(** * c99-to-c89: the symbol table, the enum constant evaluator and the
      token printer of [convert.c], embedded in Rocq.

    The embedding follows [convert.c] function by function.  The program
    keeps three global registries (structs, enums, typedefs), writes to
    standard output with [printf] and stops the process with [exit(1)]
    or a failed [assert]; here the registries and standard output form an
    explicit [State] threaded through a state-and-failure monad [M]; a
    run that stops carries the state the globals are in at that moment.

    What libclang supplies (the parse tree, the spelling, location and
    token sequence of every cursor) is input data: a [CXCursor] carries
    them as fields. *)

From Stdlib Require Import ZArith List String Ascii Lia Bool DecimalString.
From stdpp Require Import base list strings.

Set Warnings "-register-all".
Open Scope Z_scope.

(** The newline character of the C strings. *)
Definition NL : string := String (ascii_of_nat 10) EmptyString.

(** ** C values *)

(** [int] and [unsigned] are 32 bits wide on every platform libclang runs
    on.  Unsigned arithmetic wraps; signed overflow has no defined result. *)
Definition INT_MAX : Z := 2147483647.
Definition INT_MIN : Z := -2147483648.
Definition UINT_MOD : Z := 4294967296.

Definition in_int (z : Z) : bool := (INT_MIN <=? z) && (z <=? INT_MAX).

(** Conversion of an [int] to [unsigned], and the wrap-around of unsigned
    arithmetic. *)
Definition to_unsigned (z : Z) : Z := z mod UINT_MOD.

(** An [unsigned] handed to a [%d] conversion is read back as an [int]. *)
Definition to_int (u : Z) : Z := if u <=? INT_MAX then u else u - UINT_MOD.

(** How a run stops before [main] returns. *)
Inductive Failure : Type :=
| Exit (status : Z) (stderr : string)   (* fprintf(stderr, ...); exit(status) *)
| Abort (assertion : string)            (* a failed assert() *)
| Undefined (what : string).            (* C leaves open what happens *)

(** Result of a function that touches no global. *)
Inductive outcome (A : Type) : Type :=
| Ok (a : A)
| Fail (f : Failure).
Arguments Ok {A} a.
Arguments Fail {A} f.

#[export] Instance outcome_ret : MRet outcome := fun A a => Ok a.
#[export] Instance outcome_bind : MBind outcome := fun A B k m =>
  match m with
  | Ok a => k a
  | Fail f => Fail f
  end.

Definition assert (cond : bool) (text : string) : outcome unit :=
  if cond then Ok tt else Fail (Abort text).

(** Memory that [malloc] and [realloc] hand out holds no determined
    value until it is written; what a read of it yields, and so what the
    program does next, is left open by C. *)
Inductive slot (A : Type) : Type :=
| Indeterminate
| Stored (a : A).
Arguments Indeterminate {A}.
Arguments Stored {A} a.

Definition load {A : Type} (x : slot A) : outcome A :=
  match x with
  | Stored a => Ok a
  | Indeterminate => Fail (Undefined "read of an uninitialised object")
  end.

(** ** libc *)

Definition strlen (s : string) : Z := Z.of_nat (String.length s).

(** [strcmp(a, b) == 0] *)
Definition streq (a b : string) : bool := String.eqb a b.

Definition isspace (c : ascii) : bool :=
  let n := N_of_ascii c in
  (n =? 32)%N || ((9 <=? n)%N && (n <=? 13)%N).

Definition digit_value (c : ascii) : option Z :=
  let n := Z.of_N (N_of_ascii c) in
  if (48 <=? n) && (n <=? 57) then Some (n - 48) else None.

Fixpoint skip_spaces (s : string) : string :=
  match s with
  | String c s' => if isspace c then skip_spaces s' else s
  | EmptyString => s
  end.

Fixpoint read_digits (s : string) (acc : Z) : Z :=
  match s with
  | String c s' =>
      match digit_value c with
      | Some d => read_digits s' (10 * acc + d)
      | None => acc
      end
  | EmptyString => acc
  end.

(** [atoi]: optional white space, optional sign, then the longest run of
    decimal digits; a value outside [int] has no defined result. *)
Definition atoi (s : string) : outcome Z :=
  let s := skip_spaces s in
  let v :=
    match s with
    | String "-"%char s' => - read_digits s' 0
    | String "+"%char s' => read_digits s' 0
    | _ => read_digits s 0
    end in
  if in_int v then Ok v else Fail (Undefined "atoi: value out of range").

(** The [%d] conversion of [printf]. *)
Definition fmt_d (v : Z) : string := NilZero.string_of_int (Z.to_int v).

(** ** What libclang supplies *)

(** A token with the spelling and the spelling location (1-based line and
    column) that [clang_getTokenSpelling] and [clang_getSpellingLocation]
    report for it. *)
Record CXToken : Type := mkToken {
  tok_spelling : string;
  tok_line : Z;
  tok_col : Z
}.

(** A cursor of the parse tree.  [cursor_kind] and [cursor_data] are the
    bytes of the C struct, what [memcmp] compares; the other fields are
    what the libclang queries return for it: [clang_getCursorSpelling],
    [clang_getSpellingLocation] and [clang_getFileName] of its location,
    [clang_tokenize] of its extent, and the children that
    [clang_visitChildren] walks, in order. *)
Inductive CXCursor : Type :=
  mkCursor (kind : Z) (data : Z) (spelling : string)
           (line col : Z) (filename : string)
           (tokens : list CXToken) (children : list CXCursor).

Definition cursor_kind (c : CXCursor) : Z :=
  match c with mkCursor k _ _ _ _ _ _ _ => k end.
Definition cursor_data (c : CXCursor) : Z :=
  match c with mkCursor _ d _ _ _ _ _ _ => d end.
Definition cursor_spelling (c : CXCursor) : string :=
  match c with mkCursor _ _ s _ _ _ _ _ => s end.
Definition cursor_line (c : CXCursor) : Z :=
  match c with mkCursor _ _ _ l _ _ _ _ => l end.
Definition cursor_col (c : CXCursor) : Z :=
  match c with mkCursor _ _ _ _ c _ _ _ => c end.
Definition cursor_filename (c : CXCursor) : string :=
  match c with mkCursor _ _ _ _ _ f _ _ => f end.
Definition cursor_tokens (c : CXCursor) : list CXToken :=
  match c with mkCursor _ _ _ _ _ _ t _ => t end.
Definition cursor_children (c : CXCursor) : list CXCursor :=
  match c with mkCursor _ _ _ _ _ _ _ ch => ch end.

(** [memcmp(&a, &b, sizeof(a)) == 0] *)
Definition cursor_same (a b : CXCursor) : bool :=
  (cursor_kind a =? cursor_kind b) && (cursor_data a =? cursor_data b).

(** The values of [enum CXCursorKind] in [clang-c/Index.h] that
    [convert.c] names. *)
Definition CXCursor_StructDecl : Z := 2.
Definition CXCursor_EnumDecl : Z := 5.
Definition CXCursor_FieldDecl : Z := 6.
Definition CXCursor_EnumConstantDecl : Z := 7.
Definition CXCursor_TypedefDecl : Z := 20.
Definition CXCursor_TypeRef : Z := 43.
Definition CXCursor_MemberRef : Z := 47.
Definition CXCursor_UnexposedExpr : Z := 100.
Definition CXCursor_DeclRefExpr : Z := 101.
Definition CXCursor_IntegerLiteral : Z := 106.
Definition CXCursor_BinaryOperator : Z := 114.
Definition CXCursor_CompoundLiteralExpr : Z := 118.
Definition CXCursor_InitListExpr : Z := 119.

(** [tokens[i]] for an unsigned index [i]; reading past the array has no
    defined result. *)
Definition token_at (tokens : list CXToken) (i : Z) : outcome CXToken :=
  if (0 <=? i) && (i <? Z.of_nat (length tokens)) then
    match tokens !! Z.to_nat i with
    | Some t => Ok t
    | None => Fail (Undefined "token index out of range")
    end
  else Fail (Undefined "token index out of range").

(** ** Token helpers *)

Fixpoint find_token_from (tokens : list CXToken) (str : string) (n : Z)
  : option Z :=
  match tokens with
  | [] => None
  | t :: rest =>
      if streq str (tok_spelling t) then Some n
      else find_token_from rest str (n + 1)
  end.

Definition find_token_index (tokens : list CXToken) (str : string)
  : outcome Z :=
  match find_token_from tokens str 0 with
  | Some n => Ok n
  | None =>
      Fail (Exit 1 ("Could not find token " ++ str ++ " in set" ++ NL))
  end.

(** The second loop of [concat_name], from [n] for [count] more tokens:
    every spelling is followed by a space, the last one by the
    terminator. *)
Fixpoint concat_from (tokens : list CXToken) (n : Z) (count : nat)
  : outcome string :=
  match count with
  | O => Ok ""%string
  | S count' =>
      t ← token_at tokens n;
      match count' with
      | O => Ok (tok_spelling t)
      | S _ =>
          rest ← concat_from tokens (n + 1) count';
          Ok (tok_spelling t ++ " " ++ rest)%string
      end
  end.

(** [concat_name(tokens, from, to)] returns the block it has allocated.
    For [from <= to] the second loop has written the spellings of the
    tokens [from..to] and the terminator into it: the block holds that
    text.  For [from > to] neither loop runs, the request is
    [malloc(0)] and the block comes back without a byte written, not
    even a terminator.  ([malloc(0)] may also answer with a null
    pointer, on which [concat_name] exits with "Out of memory"; like
    the other out-of-memory exits this is outside the model.) *)
Definition concat_name (tokens : list CXToken) (from to : Z)
  : outcome (slot string) :=
  if to <? from then Ok Indeterminate
  else
    text ← concat_from tokens from (Z.to_nat (to - from + 1));
    Ok (Stored text).

(** ** The registries *)

(** An element of [entries] is [realloc]ed memory: [fill_struct_members]
    assigns its name and its cursor first and the other fields later.
    [type] is what the block [type] points to holds. *)
Module StructMember.
Record t : Type := make {
  type : slot string;
  name : string;
  n_ptrs : slot Z;       (* 0 if not a pointer *)
  array_size : slot Z;   (* 0 if no array *)
  cursor : CXCursor
}.

(** A member all fields of which have been assigned. *)
Definition mk (type name : string) (n_ptrs array_size : Z)
    (cursor : CXCursor) : t :=
  make (Stored type) name (Stored n_ptrs) (Stored array_size) cursor.
End StructMember.

Module StructDeclaration.
Record t : Type := mk {
  entries : list StructMember.t;
  name : string;
  cursor : CXCursor
}.
End StructDeclaration.

Module EnumMember.
Record t : Type := mk {
  name : string;
  value : Z;
  cursor : CXCursor
}.
End EnumMember.

Module EnumDeclaration.
Record t : Type := mk {
  entries : list EnumMember.t;
  name : string;
  cursor : CXCursor
}.
End EnumDeclaration.

(** A pointer into [structs] or [enums] is the index of the entry;
    [None] is the null pointer.  The three alternatives and the name are
    pointers; an entry of the [typedefs] array starts out as the
    indeterminate bytes [realloc] returned.  [proxy] points to the block
    [concat_name] returned, of which the text is written or not. *)
Module TypedefDeclaration.
Record t : Type := mk {
  proxy : slot (option (slot string));
  name : slot (option string);
  struct_decl : slot (option nat);
  enum_decl : slot (option nat);
  cursor : slot CXCursor
}.

(** [memset(&decl, 0, sizeof(decl))] *)
Definition zeroed : t :=
  mk (Stored None) (Stored None) (Stored None) (Stored None)
     (Stored (mkCursor 0 0 "" 0 0 "" [] [])).

(** A fresh element of the [realloc]ed array. *)
Definition fresh : t :=
  mk Indeterminate Indeterminate Indeterminate Indeterminate Indeterminate.

Definition set_struct_decl (p : option nat) (d : t) : t :=
  mk (proxy d) (name d) (Stored p) (enum_decl d) (cursor d).
Definition set_enum_decl (p : option nat) (d : t) : t :=
  mk (proxy d) (name d) (struct_decl d) (Stored p) (cursor d).
Definition set_proxy (p : option (slot string)) (d : t) : t :=
  mk (Stored p) (name d) (struct_decl d) (enum_decl d) (cursor d).
Definition set_name (p : option string) (d : t) : t :=
  mk (proxy d) (Stored p) (struct_decl d) (enum_decl d) (cursor d).
Definition set_cursor (c : CXCursor) (d : t) : t :=
  mk (proxy d) (name d) (struct_decl d) (enum_decl d) (Stored c).
End TypedefDeclaration.

(** The globals of [convert.c] and the bytes written to standard output
    so far.  [n_structs], [n_enums] and [n_typedefs] are the lengths of
    the lists.  Growing an array by [realloc] is taken to succeed: the
    out-of-memory exits are outside the model. *)
Record State : Type := mkState {
  structs : list StructDeclaration.t;
  enums : list EnumDeclaration.t;
  typedefs : list TypedefDeclaration.t;
  stdout : string
}.

Definition initial_state : State := mkState [] [] [] "".

(** ** Struct registration *)

(** The [for (;;)] loop of [fill_struct_members]: counts the [*] tokens
    that stand before [tokens[idx]].  Every turn reads one token further
    left, so [fuel] turns reach the start of the array when [fuel] is its
    length; the read after that is out of range. *)
Fixpoint count_ptrs (tokens : list CXToken) (idx n_ptrs : Z) (fuel : nat)
  : outcome Z :=
  let im1 := to_unsigned (idx - 1 - n_ptrs) in
  t ← token_at tokens im1;
  if streq (tok_spelling t) "*" then
    match fuel with
    | O => Fail (Undefined "token index out of range")
    | S fuel' => count_ptrs tokens idx (n_ptrs + 1) fuel'
    end
  else Ok n_ptrs.

(** [fill_struct_members], the visitor of a struct's children; [decl] is
    the declaration [client_data] points to. *)
Definition fill_struct_members (cursor parent : CXCursor)
    (decl : StructDeclaration.t) : outcome StructDeclaration.t :=
  if cursor_kind cursor =? CXCursor_FieldDecl then
    let str := cursor_spelling cursor in
    let entries := StructDeclaration.entries decl in
    let tokens := cursor_tokens cursor in
    idx ← find_token_index tokens str;
    next ← token_at tokens (to_unsigned (idx + 1));
    array_size ←
      (if streq (tok_spelling next) "[" then
         size ← token_at tokens (to_unsigned (idx + 2));
         v ← atoi (tok_spelling size);
         Ok (to_unsigned v)
       else Ok 0);
    n_ptrs ← count_ptrs tokens idx 0 (length tokens);
    let im1 := to_unsigned (idx - 1 - n_ptrs) in
    before ← token_at tokens im1;
    type ←
      (if streq (tok_spelling before) "," then
         match last entries with
         | Some prev =>
             (* strdup *)
             text ← load (StructMember.type prev);
             Ok (Stored text)
         | None => Fail (Undefined "entries[n - 1] with n = 0")
         end
       else concat_name tokens 0 im1);
    Ok (StructDeclaration.mk
          (entries ++ [StructMember.make type str (Stored n_ptrs)
                                         (Stored array_size) cursor])
          (StructDeclaration.name decl) (StructDeclaration.cursor decl))
  else Ok decl.

(** [decl] as it is when [fill_struct_members] stops on [cursor]: the
    name and the cursor of the new member are assigned and [n_entries]
    is incremented before [find_token_index] is called, so at its
    [exit(1)] the member is counted, with the fields that are assigned
    later as [realloc] left them.  (The other ways [fill_struct_members]
    stops are reads whose behaviour C leaves undefined; C defines no
    state after them, the model gives this one.) *)
Definition fill_struct_members_stopped (cursor parent : CXCursor)
    (decl : StructDeclaration.t) : StructDeclaration.t :=
  StructDeclaration.mk
    (StructDeclaration.entries decl
       ++ [StructMember.make Indeterminate (cursor_spelling cursor)
                             Indeterminate Indeterminate cursor])
    (StructDeclaration.name decl) (StructDeclaration.cursor decl).

(** [clang_visitChildren(parent, visitor, d)] with a visitor that always
    answers [CXChildVisit_Continue], as every visitor of [convert.c]
    does: the visitor runs on the direct children, in order.  [d] is what
    [client_data] points to. *)
Section VisitChildren.
Context {m : Type → Type} `{!MBind m, !MRet m} {D : Type}.
Variable visitor : CXCursor → CXCursor → D → m D.
Variable parent : CXCursor.

Fixpoint visit_list (children : list CXCursor) (d : D) : m D :=
  match children with
  | [] => mret d
  | c :: rest => d' ← visitor c parent d; visit_list rest d'
  end.
End VisitChildren.

Definition clang_visitChildren {m : Type → Type} `{!MBind m, !MRet m}
    {D : Type} (parent : CXCursor)
    (visitor : CXCursor → CXCursor → D → m D) (d : D) : m D :=
  visit_list visitor parent (cursor_children parent) d.

(** What [d] points to when a traversal with a visitor that touches no
    other global stops: the children before the one the visitor stops
    on have been visited, and on that one the visitor has got as far as
    [stopped] tells. *)
Fixpoint visit_list_stopped {D : Type}
    (visitor : CXCursor → CXCursor → D → outcome D)
    (stopped : CXCursor → CXCursor → D → D)
    (parent : CXCursor) (children : list CXCursor) (d : D) : D :=
  match children with
  | [] => d
  | c :: rest =>
      match visitor c parent d with
      | Ok d' => visit_list_stopped visitor stopped parent rest d'
      | Fail _ => stopped c parent d
      end
  end.

(** The search loop shared by [register_struct] and [register_enum]:
    the first index whose entry has the name [str] and a cursor that
    differs from [cursor]. *)
Fixpoint find_other {D : Type} (name : D → string) (cur : D → CXCursor)
    (table : list D) (str : string) (cursor : CXCursor) (n : nat)
  : option nat :=
  match table with
  | [] => None
  | d :: rest =>
      if streq (name d) str && negb (cursor_same cursor (cur d))
      then Some n
      else find_other name cur rest str cursor (S n)
  end.

(** [register_struct(str, cursor, decl_ptr)], as a function of the
    [structs] array and of the declaration [decl_ptr] points to ([None]
    for a null [decl_ptr]). *)
Definition register_struct (str : string) (cursor : CXCursor)
    (decl_ptr : option TypedefDeclaration.t)
    (structs : list StructDeclaration.t)
  : outcome (list StructDeclaration.t * option TypedefDeclaration.t) :=
  match find_other StructDeclaration.name StructDeclaration.cursor
                   structs str cursor 0 with
  | Some n =>
      (* already exists *)
      Ok (structs, TypedefDeclaration.set_struct_decl (Some n) <$> decl_ptr)
  | None =>
      let n := length structs in
      decl ← clang_visitChildren cursor fill_struct_members
                                 (StructDeclaration.mk [] str cursor);
      Ok (structs ++ [decl],
          TypedefDeclaration.set_struct_decl (Some n) <$> decl_ptr)
  end.

(** The [structs] array as it is when [register_struct] stops: the run
    can only stop in the traversal of the fields, after [n_structs] has
    been incremented and the new declaration initialised. *)
Definition register_struct_stopped (str : string) (cursor : CXCursor)
    (structs : list StructDeclaration.t) : list StructDeclaration.t :=
  structs
    ++ [visit_list_stopped fill_struct_members fill_struct_members_stopped
          cursor (cursor_children cursor)
          (StructDeclaration.mk [] str cursor)].

(** ** The constant evaluator *)

(** An [int] result of signed arithmetic: defined when representable. *)
Definition int_result (z : Z) : outcome Z :=
  if in_int z then Ok z else Fail (Undefined "signed integer overflow").

Definition int_div (val1 val2 : Z) : outcome Z :=
  if val2 =? 0 then Fail (Undefined "division by zero")
  else int_result (Z.quot val1 val2).

Definition int_mod (val1 val2 : Z) : outcome Z :=
  if val2 =? 0 then Fail (Undefined "division by zero")
  else if in_int (Z.quot val1 val2) then Ok (Z.rem val1 val2)
  else Fail (Undefined "signed integer overflow").

Definition arithmetic_expression (val1 : Z) (expr : string) (val2 : Z)
  : outcome Z :=
  match expr with
  | EmptyString => Fail (Undefined "expr[1] read past the terminator")
  | String c EmptyString =>
      if Ascii.eqb c "^" then Ok (Z.lxor val1 val2)
      else if Ascii.eqb c "|" then Ok (Z.lor val1 val2)
      else if Ascii.eqb c "&" then Ok (Z.land val1 val2)
      else if Ascii.eqb c "+" then int_result (val1 + val2)
      else if Ascii.eqb c "-" then int_result (val1 - val2)
      else if Ascii.eqb c "*" then int_result (val1 * val2)
      else if Ascii.eqb c "/" then int_div val1 val2
      else if Ascii.eqb c "%" then int_mod val1 val2
      else Fail (Exit 1 ("Unknown arithmetic expression " ++ expr ++ NL))
  | String _ (String _ _) => Fail (Abort "expr[1] == 0")
  end.

Fixpoint find_member (entries : list EnumMember.t) (str : string)
  : option Z :=
  match entries with
  | [] => None
  | e :: rest =>
      if streq (EnumMember.name e) str then Some (EnumMember.value e)
      else find_member rest str
  end.

Fixpoint find_enum_from (enums : list EnumDeclaration.t) (str : string)
  : option Z :=
  match enums with
  | [] => None
  | d :: rest =>
      match find_member (EnumDeclaration.entries d) str with
      | Some v => Some v
      | None => find_enum_from rest str
      end
  end.

Definition find_enum_value (enums : list EnumDeclaration.t) (str : string)
  : outcome Z :=
  match find_enum_from enums str with
  | Some v => Ok v
  | None => Fail (Exit 1 ("Unknown enum value " ++ str ++ NL))
  end.

(** [int cache[3] = { 0 }]: [cache[0]] counts the values found so far,
    [cache[1]] and [cache[2]] hold them. *)
Definition empty_cache : list Z := [0; 0; 0].

Definition cache_get (ptr : list Z) (i : nat) : Z := default 0 (ptr !! i).

(** [ptr[1 + ptr[0]++] = v]; a third value would be written past the
    array. *)
Definition cache_push (ptr : list Z) (v : Z) : outcome (list Z) :=
  let i := 1 + cache_get ptr 0 in
  if i <? Z.of_nat (length ptr) then
    Ok (<[0%nat := cache_get ptr 0 + 1]> (<[Z.to_nat i := v]> ptr))
  else Fail (Undefined "store past the end of cache").

Definition n_tokens (tokens : list CXToken) : Z := Z.of_nat (length tokens).

Fixpoint fill_enum_value (enums : list EnumDeclaration.t)
    (cursor parent : CXCursor) (ptr : list Z) {struct cursor}
  : outcome (list Z) :=
  match cursor with
  | mkCursor kind _ _ _ _ _ tokens children =>
      if kind =? CXCursor_BinaryOperator then
        _ ← assert (n_tokens tokens =? 4) "n_tokens == 4";
        tsp ← token_at tokens 1;
        cache ← visit_list (fill_enum_value enums) cursor children
                           empty_cache;
        _ ← assert (cache_get cache 0 =? 2) "cache[0] == 2";
        v ← arithmetic_expression (cache_get cache 1) (tok_spelling tsp)
                                  (cache_get cache 2);
        cache_push ptr v
      else if kind =? CXCursor_IntegerLiteral then
        _ ← assert (n_tokens tokens =? 2) "n_tokens == 2";
        tsp ← token_at tokens 0;
        v ← atoi (tok_spelling tsp);
        cache_push ptr v
      else if kind =? CXCursor_DeclRefExpr then
        _ ← assert (n_tokens tokens =? 2) "n_tokens == 2";
        tsp ← token_at tokens 0;
        v ← find_enum_value enums (tok_spelling tsp);
        cache_push ptr v
      else Ok ptr
  end.

(** ** Enum registration *)

(** [fill_enum_members], the visitor of an enum's children.  [decl] is
    the index in [enums] of the declaration [client_data] points to: the
    evaluator reads [enums], and so sees the members this declaration
    has got so far. *)
Definition fill_enum_members (decl : nat) (cursor parent : CXCursor)
    (enums : list EnumDeclaration.t) : outcome (list EnumDeclaration.t) :=
  if cursor_kind cursor =? CXCursor_EnumConstantDecl then
    let str := cursor_spelling cursor in
    match enums !! decl with
    | None => Fail (Undefined "decl points outside enums")
    | Some d =>
        let entries := EnumDeclaration.entries d in
        cache ← clang_visitChildren cursor (fill_enum_value enums)
                                    empty_cache;
        _ ← assert (cache_get cache 0 <=? 1) "cache[0] <= 1";
        value ←
          (if cache_get cache 0 =? 1 then Ok (cache_get cache 1)
           else
             match last entries with
             | None => Ok 0
             | Some prev => int_result (EnumMember.value prev + 1)
             end);
        Ok (<[decl := EnumDeclaration.mk
                        (entries ++ [EnumMember.mk str value cursor])
                        (EnumDeclaration.name d)
                        (EnumDeclaration.cursor d)]> enums)
    end
  else Ok enums.

(** [register_enum(str, cursor, decl_ptr)], as a function of the [enums]
    array and of the declaration [decl_ptr] points to. *)
Definition register_enum (str : string) (cursor : CXCursor)
    (decl_ptr : option TypedefDeclaration.t)
    (enums : list EnumDeclaration.t)
  : outcome (list EnumDeclaration.t * option TypedefDeclaration.t) :=
  match find_other EnumDeclaration.name EnumDeclaration.cursor
                   enums str cursor 0 with
  | Some n =>
      (* already exists *)
      Ok (enums, TypedefDeclaration.set_enum_decl (Some n) <$> decl_ptr)
  | None =>
      let n := length enums in
      enums' ← clang_visitChildren cursor (fill_enum_members n)
                 (enums ++ [EnumDeclaration.mk [] str cursor]);
      Ok (enums', TypedefDeclaration.set_enum_decl (Some n) <$> decl_ptr)
  end.

(** The [enums] array as it is when [register_enum] stops: the run can
    only stop in the traversal of the enumerators, after [n_enums] has
    been incremented and the new declaration initialised.
    [fill_enum_members] increments [n_entries] after the evaluation of
    the initializer, so the enumerator it stops on is not counted. *)
Definition register_enum_stopped (str : string) (cursor : CXCursor)
    (enums : list EnumDeclaration.t) : list EnumDeclaration.t :=
  visit_list_stopped (fill_enum_members (length enums))
    (λ _ _ enums', enums') cursor (cursor_children cursor)
    (enums ++ [EnumDeclaration.mk [] str cursor]).

(** ** Typedef registration *)

Definition register_typedef (name : string) (tokens : list CXToken)
    (decl : TypedefDeclaration.t) (cursor : CXCursor)
    (typedefs : list TypedefDeclaration.t)
  : outcome (list TypedefDeclaration.t) :=
  let entry :=
    TypedefDeclaration.set_name (Some name) TypedefDeclaration.fresh in
  struct_decl ← load (TypedefDeclaration.struct_decl decl);
  entry ←
    match struct_decl with
    | Some _ => Ok (TypedefDeclaration.set_struct_decl struct_decl entry)
    | None =>
        enum_decl ← load (TypedefDeclaration.enum_decl decl);
        match enum_decl with
        | Some _ => Ok (TypedefDeclaration.set_enum_decl enum_decl entry)
        | None =>
            proxy ← concat_name tokens 1
                      (to_unsigned (n_tokens tokens - 3));
            Ok (TypedefDeclaration.set_proxy (Some proxy) entry)
        end
    end;
  Ok (typedefs ++ [TypedefDeclaration.set_cursor cursor entry]).

(** The [typedefs] array as it is when [register_typedef] stops:
    [n_typedefs] has been incremented and the name of the new entry
    assigned, nothing else. *)
Definition register_typedef_stopped (name : string)
    (typedefs : list TypedefDeclaration.t) : list TypedefDeclaration.t :=
  typedefs
    ++ [TypedefDeclaration.set_name (Some name) TypedefDeclaration.fresh].

(** ** Functions that write to standard output or to the globals *)

(** [Stopped f s]: the run stops with [f], the globals and standard
    output being [s] at that moment. *)
Inductive result (A : Type) : Type :=
| Done (a : A) (s : State)
| Stopped (f : Failure) (s : State).
Arguments Done {A} a s.
Arguments Stopped {A} f s.

Definition M (A : Type) : Type := State → result A.

#[export] Instance M_ret : MRet M := fun A a s => Done a s.
#[export] Instance M_bind : MBind M := fun A B k m s =>
  match m s with
  | Done a s' => k a s'
  | Stopped f s' => Stopped f s'
  end.

(** The state a run ends in, whichever way it ends. *)
Definition final_state {A : Type} (r : result A) : State :=
  match r with
  | Done _ s => s
  | Stopped _ s => s
  end.

Definition lift {A : Type} (o : outcome A) : M A := fun s =>
  match o with
  | Ok a => Done a s
  | Fail f => Stopped f s
  end.

(** [printf] of an already formatted text. *)
Definition printf (text : string) : M unit := fun s =>
  Done tt (mkState (structs s) (enums s) (typedefs s) (stdout s ++ text)).

(** A registration function [f] run on its global array; [stopped] gives
    the array as it is when [f] stops. *)
Definition on_structs {A : Type}
    (f : list StructDeclaration.t → outcome (list StructDeclaration.t * A))
    (stopped : list StructDeclaration.t → list StructDeclaration.t)
  : M A := fun s =>
  match f (structs s) with
  | Ok (structs', a) =>
      Done a (mkState structs' (enums s) (typedefs s) (stdout s))
  | Fail e =>
      Stopped e (mkState (stopped (structs s)) (enums s) (typedefs s)
                         (stdout s))
  end.

Definition on_enums {A : Type}
    (f : list EnumDeclaration.t → outcome (list EnumDeclaration.t * A))
    (stopped : list EnumDeclaration.t → list EnumDeclaration.t)
  : M A := fun s =>
  match f (enums s) with
  | Ok (enums', a) =>
      Done a (mkState (structs s) enums' (typedefs s) (stdout s))
  | Fail e =>
      Stopped e (mkState (structs s) (stopped (enums s)) (typedefs s)
                         (stdout s))
  end.

Definition on_typedefs
    (f : list TypedefDeclaration.t → outcome (list TypedefDeclaration.t))
    (stopped : list TypedefDeclaration.t → list TypedefDeclaration.t)
  : M unit := fun s =>
  match f (typedefs s) with
  | Ok typedefs' =>
      Done tt (mkState (structs s) (enums s) typedefs' (stdout s))
  | Fail e =>
      Stopped e (mkState (structs s) (enums s) (stopped (typedefs s))
                         (stdout s))
  end.

(** The loop over the tokens in the [default] case of [callback], where
    [DEBUG] is 1: one line per token. *)
Fixpoint print_token_lines (tokens : list CXToken) : M unit :=
  match tokens with
  | [] => mret tt
  | t :: rest =>
      _ ← printf ("token = '" ++ tok_spelling t ++ "' @ "
                  ++ fmt_d (to_int (tok_line t)) ++ ":"
                  ++ fmt_d (to_int (tok_col t)) ++ NL);
      print_token_lines rest
  end.

(** [callback], the visitor [main] walks the translation unit with.
    [client_data] is what the pointer of that name points to, [None] for
    a null pointer.  [dprintf] prints where [DEBUG] is 1, which is the
    [default] case only. *)
Fixpoint callback (cursor parent : CXCursor)
    (client_data : option TypedefDeclaration.t) {struct cursor}
  : M (option TypedefDeclaration.t) :=
  match cursor with
  | mkCursor kind _ str line col filename tokens children =>
      if kind =? CXCursor_TypedefDecl then
        decl ← visit_list callback cursor children
                          (Some TypedefDeclaration.zeroed);
        match decl with
        | Some decl =>
            _ ← on_typedefs (register_typedef str tokens decl cursor)
                            (register_typedef_stopped str);
            mret client_data
        | None => lift (Fail (Undefined "null decl"))
        end
      else if kind =? CXCursor_StructDecl then
        on_structs (register_struct str cursor client_data)
                   (register_struct_stopped str cursor)
      else if kind =? CXCursor_EnumDecl then
        on_enums (register_enum str cursor client_data)
                 (register_enum_stopped str cursor)
      else if (kind =? CXCursor_CompoundLiteralExpr)
              || (kind =? CXCursor_TypeRef)
              || (kind =? CXCursor_InitListExpr)
              || (kind =? CXCursor_UnexposedExpr) then
        _ ← visit_list callback cursor children None;
        mret client_data
      else if kind =? CXCursor_MemberRef then
        if cursor_kind parent =? CXCursor_UnexposedExpr then
          _ ← printf ("member: " ++ str ++ " (parent: "
                      ++ fmt_d (cursor_kind parent) ++ ")" ++ NL);
          mret client_data
        else mret client_data
      else if (kind =? CXCursor_IntegerLiteral)
              || (kind =? CXCursor_DeclRefExpr) then
        if cursor_kind parent =? CXCursor_UnexposedExpr then
          _ ← lift (token_at tokens (to_unsigned (n_tokens tokens - 1)));
          mret client_data
        else mret client_data
      else
        _ ← printf ("DERP: " ++ fmt_d kind ++ " ["
                    ++ fmt_d (cursor_kind parent) ++ "] " ++ str ++ " @ "
                    ++ fmt_d (to_int line) ++ ":" ++ fmt_d (to_int col)
                    ++ " in " ++ filename ++ NL);
        _ ← print_token_lines tokens;
        _ ← visit_list callback cursor children None;
        mret client_data
  end.

(** ** The printer *)

Fixpoint replicate_string (n : nat) (s : string) : string :=
  match n with
  | O => ""
  | S n' => s ++ replicate_string n' s
  end.

(** The body of the loop of [print_tokens], from the token at hand on;
    [cpos] and [lnum] are the printer's 0-based column and line. *)
Fixpoint print_tokens_from (tokens : list CXToken) (cpos lnum : Z)
  : M unit :=
  match tokens with
  | [] => mret tt
  | tok :: rest =>
      (* somehow counting starts at 1 in clang *)
      let col := to_unsigned (tok_col tok - 1) in
      let line := to_unsigned (tok_line tok - 1) in
      _ ← lift (assert (lnum <=? line) "line >= lnum");
      (* add newlines where necessary *)
      _ ← printf (replicate_string (Z.to_nat (line - lnum)) NL);
      let cpos := if lnum <? line then 0 else cpos in
      (* add indenting where necessary *)
      _ ← printf (replicate_string (Z.to_nat (col - cpos)) " ");
      let cpos := if cpos <? col then col else cpos in
      (* print token *)
      _ ← printf (tok_spelling tok);
      print_tokens_from rest
        (to_unsigned (cpos + strlen (tok_spelling tok))) line
  end.

Definition print_tokens (tokens : list CXToken) : M unit :=
  _ ← print_tokens_from tokens 0 0;
  (* each file ends with a newline *)
  printf NL.

(** ** The driver *)

(** What [cleanup] reads of the typedef registry to decide what to free;
    it prints nothing, [DEBUG] being 0 there. *)
Fixpoint cleanup_typedefs (typedefs : list TypedefDeclaration.t)
  : outcome unit :=
  match typedefs with
  | [] => Ok tt
  | td :: rest =>
      struct_decl ← load (TypedefDeclaration.struct_decl td);
      _ ← match struct_decl with
          | Some _ => Ok tt
          | None =>
              enum_decl ← load (TypedefDeclaration.enum_decl td);
              match enum_decl with
              | Some _ => Ok tt
              | None => _ ← load (TypedefDeclaration.proxy td); Ok tt
              end
          end;
      _ ← load (TypedefDeclaration.name td);
      cleanup_typedefs rest
  end.

Definition cleanup : M unit := fun s =>
  lift (cleanup_typedefs (typedefs s)) s.

(** [main], up to and including [print_tokens]: [cursor] is the cursor of
    the translation unit, its tokens are those of the whole file. *)
Definition translate (cursor : CXCursor) : M unit :=
  _ ← clang_visitChildren cursor callback None;
  print_tokens (cursor_tokens cursor).

Definition main (cursor : CXCursor) : result unit :=
  (_ ← translate cursor; cleanup) initial_state.


(** * Vocabulary of the properties *)

(** A binary initializer: a [CXCursor_BinaryOperator] of four tokens, the
    second of which is spelled [op], and whose two operands the evaluator
    resolves to [val1] and [val2]. *)
Definition binary_initializer (enums : list EnumDeclaration.t)
    (cursor : CXCursor) (op : string) (val1 val2 : Z) : Prop :=
  cursor_kind cursor = CXCursor_BinaryOperator ∧
  n_tokens (cursor_tokens cursor) = 4 ∧
  tok_spelling <$> (cursor_tokens cursor !! 1%nat) = Some op ∧
  visit_list (fill_enum_value enums) cursor (cursor_children cursor)
             empty_cache = Ok [2; val1; val2].

(** The operators the [switch] of [arithmetic_expression] knows. *)
Definition known_operator (op : string) : bool :=
  existsb (streq op) ["^"; "|"; "&"; "+"; "-"; "*"; "/"; "%"]%string.

(** ** Sample inputs

    Cursors as libclang reports them for small sources.  The token
    sequence of an extent ends with the token that follows the extent,
    which is what the assertions on [n_tokens] in [fill_enum_value]
    expect. *)

Definition tok (spelling : string) : CXToken := mkToken spelling 1 1.

Definition sample (kind data : Z) (spelling : string)
    (tokens : list string) (children : list CXCursor) : CXCursor :=
  mkCursor kind data spelling 1 1 "a.c" (tok <$> tokens) children.

(** The literal [text], followed in the source by [next]. *)
Definition integer_literal (text next : string) : CXCursor :=
  sample CXCursor_IntegerLiteral 0 "" [text; next] [].

(** A reference to the constant [name]. *)
Definition decl_ref (name next : string) : CXCursor :=
  sample CXCursor_DeclRefExpr 0 name [name; next] [].

(** [a op b] for two literals. *)
Definition binary_literals (a op b next : string) : CXCursor :=
  sample CXCursor_BinaryOperator 0 "" [a; op; b; next]
         [integer_literal a op; integer_literal b next].

(** [1 + 2 + 3]: the left operand is the binary operator [1 + 2], whose
    extent ends before the second [+]. *)
Definition nested_sum : CXCursor :=
  sample CXCursor_BinaryOperator 0 "" ["1"; "+"; "2"; "+"; "3"; ","]
         [binary_literals "1" "+" "2" "+"; integer_literal "3" ","].

(** The enumerator [name], with the initializers [init] as children. *)
Definition enum_constant (name : string) (init : list CXCursor)
  : CXCursor :=
  sample CXCursor_EnumConstantDecl 0 name [] init.

Definition enum_decl (data : Z) (name : string)
    (members : list CXCursor) : CXCursor :=
  sample CXCursor_EnumDecl data name [] members.

(** The cursor of a translation unit; 300 is
    [CXCursor_TranslationUnit]. *)
Definition translation_unit (tokens : list CXToken)
    (children : list CXCursor) : CXCursor :=
  mkCursor 300 0 "a.c" 0 0 "" tokens children.

(** The members of all registered enums, in registration order. *)
Definition all_members (enums : list EnumDeclaration.t)
  : list EnumMember.t :=
  concat (EnumDeclaration.entries <$> enums).

(** No member of [members] bears the name [str]. *)
Definition unregistered (str : string) (members : list EnumMember.t)
  : Prop :=
  Forall (λ m, EnumMember.name m ≠ str) members.

(** The source [enum E { A = B };], where no constant [B] exists. *)
Definition undefined_reference_unit : CXCursor :=
  translation_unit
    [mkToken "enum" 1 1; mkToken "E" 1 6; mkToken "{" 1 8;
     mkToken "A" 1 10; mkToken "=" 1 12; mkToken "B" 1 14;
     mkToken "}" 1 16; mkToken ";" 1 17]
    [enum_decl 1 "E" [enum_constant "A" [decl_ref "B" "}"]]].

(** The traversal of the translation unit [tu] reaches, in state [s], an
    enumerator whose initializer is a reference to the constant [name],
    at a moment when no registered member bears that name.  The
    enumerator belongs to a top-level enum declaration [e] that
    [callback] reached in the state [s0] and that is registered afresh:
    [s] is [s0] with the new declaration in the enum registry, which
    has got the members that stand before the enumerator. *)
Definition reaches_undefined_reference (tu : CXCursor) (name : string)
    (s : State) : Prop :=
  ∃ before e after d s0 mbefore m mafter r rest t,
    cursor_children tu = before ++ e :: after ∧
    visit_list callback tu before None initial_state = Done d s0 ∧
    cursor_kind e = CXCursor_EnumDecl ∧
    find_other EnumDeclaration.name EnumDeclaration.cursor
               (enums s0) (cursor_spelling e) e 0 = None ∧
    cursor_children e = mbefore ++ m :: mafter ∧
    visit_list (fill_enum_members (length (enums s0))) e mbefore
      (enums s0 ++ [EnumDeclaration.mk [] (cursor_spelling e) e])
      = Ok (enums s) ∧
    structs s = structs s0 ∧
    typedefs s = typedefs s0 ∧
    stdout s = stdout s0 ∧
    cursor_kind m = CXCursor_EnumConstantDecl ∧
    cursor_children m = r :: rest ∧
    cursor_kind r = CXCursor_DeclRefExpr ∧
    n_tokens (cursor_tokens r) = 2 ∧
    cursor_tokens r !! 0%nat = Some t ∧
    tok_spelling t = name ∧
    unregistered name (all_members (enums s)).

(** Two registered enums, [enum E { A = 5, B }] and a later one that
    has a [B] too. *)
Definition sample_enums : list EnumDeclaration.t :=
  [EnumDeclaration.mk
     [EnumMember.mk "A" 5 (enum_constant "A" [integer_literal "5" ","]);
      EnumMember.mk "B" 6 (enum_constant "B" [])]
     "E" (enum_decl 1 "E" []);
   EnumDeclaration.mk
     [EnumMember.mk "B" 9 (enum_constant "B" [integer_literal "9" "}"])]
     "F" (enum_decl 2 "F" [])].

(** [enums] after the member [m] has been appended to the declaration
    [d] that sits at index [decl]. *)
Definition with_member (decl : nat) (d : EnumDeclaration.t)
    (m : EnumMember.t) (enums : list EnumDeclaration.t)
  : list EnumDeclaration.t :=
  <[decl := EnumDeclaration.mk (EnumDeclaration.entries d ++ [m])
                               (EnumDeclaration.name d)
                               (EnumDeclaration.cursor d)]> enums.

(** An enumerator without initializer. *)
Definition plain_enumerator (m : CXCursor) : Prop :=
  cursor_kind m = CXCursor_EnumConstantDecl ∧ cursor_children m = [].

(** What the claim gives an enumerator without initializer that is
    appended to [d]: 0 for the first member, else the value of the
    member before it plus 1. *)
Definition next_default (d : EnumDeclaration.t) : Z :=
  match last (EnumDeclaration.entries d) with
  | None => 0
  | Some prev => EnumMember.value prev + 1
  end.

(** Members for the enumerators [members] with the consecutive values
    [k], [k + 1], ... *)
Fixpoint counted_members (k : Z) (members : list CXCursor)
  : list EnumMember.t :=
  match members with
  | [] => []
  | m :: rest =>
      EnumMember.mk (cursor_spelling m) k m :: counted_members (k + 1) rest
  end.

(** The names and values of the members of every registered enum. *)
Definition member_values (enums : list EnumDeclaration.t)
  : list (list (string * Z)) :=
  (λ d, (λ m, (EnumMember.name m, EnumMember.value m))
          <$> EnumDeclaration.entries d) <$> enums.

(** [enum E { A, B, C };] and [enum E { A = 5, B, C };] *)
Definition enum_plain : CXCursor :=
  enum_decl 1 "E"
    [enum_constant "A" []; enum_constant "B" []; enum_constant "C" []].

Definition enum_from_five : CXCursor :=
  enum_decl 1 "E"
    [enum_constant "A" [integer_literal "5" ","];
     enum_constant "B" []; enum_constant "C" []].

(** The kinds of cursor the evaluator finds a value for. *)
Definition evaluated_kind (kind : Z) : bool :=
  (kind =? CXCursor_BinaryOperator) || (kind =? CXCursor_IntegerLiteral)
  || (kind =? CXCursor_DeclRefExpr).

(** [enum E { A = -1, B = (2) }]: libclang reports the initializers as a
    unary operator (kind 112) and a parenthesized expression (kind
    111). *)
Definition enum_ignored_initializers : CXCursor :=
  enum_decl 1 "E"
    [enum_constant "A"
       [sample 112 0 "" ["-"; "1"; ","] [integer_literal "1" ","]];
     enum_constant "B"
       [sample 111 0 "" ["("; "2"; ")"; "}"] [integer_literal "2" ")"]]].

(** [enum E { A = 2147483647, B }] *)
Definition enum_from_int_max : CXCursor :=
  enum_decl 1 "E"
    [enum_constant "A" [integer_literal "2147483647" ","];
     enum_constant "B" []].

(** [enum E { A = 2 + 3, B = A, C }] *)
Definition enum_evaluated : CXCursor :=
  enum_decl 1 "E"
    [enum_constant "A" [binary_literals "2" "+" "3" ","];
     enum_constant "B" [decl_ref "A" ","];
     enum_constant "C" []].

(** [struct S { int a; }] registered under the node identity 1, and the
    same for an enum. *)
Definition sample_structs : list StructDeclaration.t :=
  [StructDeclaration.mk [] "S" (sample CXCursor_StructDecl 1 "S" [] [])].

Definition sample_enum_registry : list EnumDeclaration.t :=
  [EnumDeclaration.mk [] "E" (enum_decl 1 "E" [])].

(** [decl] after the member [m] has been appended to it. *)
Definition with_field (decl : StructDeclaration.t) (m : StructMember.t)
  : StructDeclaration.t :=
  StructDeclaration.mk (StructDeclaration.entries decl ++ [m])
                       (StructDeclaration.name decl)
                       (StructDeclaration.cursor decl).

(** The fields of [struct S { int *p[4]; }] and of
    [struct S { int a, b; }] as libclang reports them: the extent of [b]
    starts at the type specifier it shares with [a]. *)
Definition field_p : CXCursor :=
  sample CXCursor_FieldDecl 0 "p" ["int"; "*"; "p"; "["; "4"; "]"; ";"] [].
Definition field_a : CXCursor :=
  sample CXCursor_FieldDecl 0 "a" ["int"; "a"; ","] [].
Definition field_b : CXCursor :=
  sample CXCursor_FieldDecl 1 "b" ["int"; "a"; ","; "b"; ";"] [].

Definition struct_of (fields : list CXCursor) : CXCursor :=
  sample CXCursor_StructDecl 1 "S" [] fields.

(** The source [typedef int T;]: the typedef declaration has no
    children, its tokens are those of the whole line. *)
Definition typedef_int_tokens : list CXToken :=
  [mkToken "typedef" 1 1; mkToken "int" 1 9; mkToken "T" 1 13;
   mkToken ";" 1 14].

Definition typedef_int : CXCursor :=
  mkCursor CXCursor_TypedefDecl 1 "T" 1 13 "a.c" typedef_int_tokens [].

Definition typedef_int_unit : CXCursor :=
  translation_unit typedef_int_tokens [typedef_int].

(** A pointer that is set: written, and not null. *)
Definition is_set {A : Type} (x : slot (option A)) : Prop :=
  ∃ a, x = Stored (Some a).

(** A pointer that is unset: it holds the null pointer. *)
Definition is_unset {A : Type} (x : slot (option A)) : Prop :=
  x = Stored None.

(** ** Positions in the output *)

(** The 0-based line and column reached after [s] has been written from
    the position [pos]. *)
Fixpoint advance (s : string) (pos : Z * Z) : Z * Z :=
  match s with
  | EmptyString => pos
  | String c s' =>
      advance s' (if Ascii.eqb c (ascii_of_nat 10)
                  then (fst pos + 1, 0)
                  else (fst pos, snd pos + 1))
  end.

(** The token [tok] stands in the text [out] at the place its location
    records: [out] is [pre ++ spelling ++ post], and writing [pre] from
    the start of the output leads to the line and column of [tok]. *)
Definition printed_at (out : string) (tok : CXToken) : Prop :=
  ∃ pre post,
    out = (pre ++ tok_spelling tok ++ post)%string ∧
    advance pre (0, 0) = (tok_line tok - 1, tok_col tok - 1).

(** The decision procedure for [printed_at]: walk through [out] from
    the position [pos] and look for the spelling at the recorded
    place. *)
Fixpoint printed_at_from (out : string) (pos : Z * Z) (tok : CXToken)
  : bool :=
  ((fst pos =? tok_line tok - 1) && (snd pos =? tok_col tok - 1)
   && String.prefix (tok_spelling tok) out)
  || match out with
     | EmptyString => false
     | String c out' =>
         printed_at_from out'
           (if Ascii.eqb c (ascii_of_nat 10)
            then (fst pos + 1, 0)
            else (fst pos, snd pos + 1))
           tok
     end.

(** No line break in [s]. *)
Fixpoint single_line (s : string) : bool :=
  match s with
  | EmptyString => true
  | String c s' => negb (Ascii.eqb c (ascii_of_nat 10)) && single_line s'
  end.

(** Token locations the printer can follow from its line [lnum] and
    column [cpos]: every token is on the line of the printer or on a
    later one, and when it shares the line it starts at or after the
    column the printer has reached, which after a token is the end of
    that token; no spelling contains a line break; lines and columns
    are those of an [unsigned]. *)
Inductive well_placed : Z → Z → list CXToken → Prop :=
| well_placed_nil lnum cpos : well_placed lnum cpos []
| well_placed_cons lnum cpos tok rest :
    1 ≤ tok_line tok < UINT_MOD →
    1 ≤ tok_col tok →
    tok_col tok - 1 + strlen (tok_spelling tok) < UINT_MOD →
    single_line (tok_spelling tok) = true →
    lnum < tok_line tok - 1
      ∨ (lnum = tok_line tok - 1 ∧ cpos ≤ tok_col tok - 1) →
    well_placed (tok_line tok - 1)
                (tok_col tok - 1 + strlen (tok_spelling tok)) rest →
    well_placed lnum cpos (tok :: rest).

(** A file that starts with a comment of two lines:
<<
/* a
   b */
int x;
>>
    libclang reports the comment as one token. *)
Definition comment_tokens : list CXToken :=
  [mkToken ("/* a" ++ NL ++ "   b */") 1 1;
   mkToken "int" 3 1; mkToken "x" 3 5; mkToken ";" 3 6].

(** ** A compound literal inside a block

    The one-line source
<<
void f(int *p) { p = (int[2]){1, 2}; p = 0; }
>>
    and its parse tree: the function, its parameter, the block, the two
    assignments and, in the first, the compound literal with its
    initializer list under the implicit conversion of the array. *)
Definition hoist_tokens : list CXToken :=
  [mkToken "void" 1 1; mkToken "f" 1 6; mkToken "(" 1 7;
   mkToken "int" 1 8; mkToken "*" 1 12; mkToken "p" 1 13;
   mkToken ")" 1 14; mkToken "{" 1 16; mkToken "p" 1 18;
   mkToken "=" 1 20; mkToken "(" 1 22; mkToken "int" 1 23;
   mkToken "[" 1 26; mkToken "2" 1 27; mkToken "]" 1 28;
   mkToken ")" 1 29; mkToken "{" 1 30; mkToken "1" 1 31;
   mkToken "," 1 32; mkToken "2" 1 34; mkToken "}" 1 35;
   mkToken ";" 1 36; mkToken "p" 1 38; mkToken "=" 1 40;
   mkToken "0" 1 42; mkToken ";" 1 43; mkToken "}" 1 45].

(** The tokens [from] to [to - 1] of the file. *)
Definition span (from to : nat) : list CXToken :=
  take (to - from) (drop from hoist_tokens).

Definition node (kind : Z) (spelling : string) (col : Z) (from to : nat)
    (children : list CXCursor) : CXCursor :=
  mkCursor kind (Z.of_nat from) spelling 1 col "a.c" (span from to)
           children.

Definition first_assignment : CXCursor :=
  node CXCursor_BinaryOperator "" 18 8 22
    [node CXCursor_DeclRefExpr "p" 18 8 10 [];
     node CXCursor_UnexposedExpr "" 22 10 22
       [node CXCursor_CompoundLiteralExpr "" 22 10 22
          [node CXCursor_InitListExpr "" 30 16 22
             [node CXCursor_IntegerLiteral "" 31 17 19 [];
              node CXCursor_IntegerLiteral "" 34 19 21 []]]]].

Definition second_assignment : CXCursor :=
  node CXCursor_BinaryOperator "" 38 22 26
    [node CXCursor_DeclRefExpr "p" 38 22 24 [];
     node CXCursor_UnexposedExpr "" 42 24 26
       [node CXCursor_IntegerLiteral "" 42 24 26 []]].

(** 8, 10 and 202 are [CXCursor_FunctionDecl], [CXCursor_ParmDecl] and
    [CXCursor_CompoundStmt]. *)
Definition hoist_unit : CXCursor :=
  translation_unit hoist_tokens
    [node 8 "f" 6 0 27
       [node 10 "p" 13 3 7 [];
        node 202 "" 16 7 27 [first_assignment; second_assignment]]].

(** ** What reaches standard output *)

(** Induction on the parse tree: a property of a cursor may rely on the
    property of all its children. *)
Fixpoint CXCursor_tree_ind (P : CXCursor → Prop)
    (step : ∀ kind data spelling line col filename tokens children,
        Forall P children →
        P (mkCursor kind data spelling line col filename tokens children))
    (c : CXCursor) {struct c} : P c :=
  match c with
  | mkCursor kind data spelling line col filename tokens children =>
      step kind data spelling line col filename tokens children
        ((fix all (l : list CXCursor) : Forall P l :=
            match l with
            | [] => List.Forall_nil P
            | x :: rest =>
                List.Forall_cons P x rest (CXCursor_tree_ind P step x) (all rest)
            end) children)
  end.

(** [m] only appends to standard output, and what it appends does not
    depend on the state it starts from. *)
Definition appends {A : Type} (m : M A) : Prop :=
  ∀ s, ∃ out, stdout (final_state (m s)) = (stdout s ++ out)%string.

(** [m] writes nothing. *)
Definition silent {A : Type} (m : M A) : Prop :=
  ∀ s, stdout (final_state (m s)) = stdout s.

(** The state [s] after [out] has been written. *)
Definition with_output (s : State) (out : string) : State :=
  mkState (structs s) (enums s) (typedefs s) (stdout s ++ out).

(** How a run of the printer ends from the state [s], when it writes
    [out] and stops with [stop], if at all. *)
Definition printed (s : State) (out : string) (stop : option Failure)
  : result unit :=
  match stop with
  | None => Done tt (with_output s out)
  | Some f => Stopped f (with_output s out)
  end.

(** The token stream as [print_tokens] renders it. *)
Definition rendered (tokens : list CXToken) : string :=
  stdout (final_state (print_tokens tokens initial_state)).

(** The kinds [callback] has no case for. *)
Definition unhandled (kind : Z) : bool :=
  negb (existsb (Z.eqb kind)
          [CXCursor_TypedefDecl; CXCursor_StructDecl; CXCursor_EnumDecl;
           CXCursor_CompoundLiteralExpr; CXCursor_TypeRef;
           CXCursor_InitListExpr; CXCursor_UnexposedExpr;
           CXCursor_MemberRef; CXCursor_IntegerLiteral;
           CXCursor_DeclRefExpr]).

(** The first line [callback] prints for a cursor of such a kind. *)
Definition derp_line (cursor parent : CXCursor) : string :=
  "DERP: " ++ fmt_d (cursor_kind cursor) ++ " ["
  ++ fmt_d (cursor_kind parent) ++ "] " ++ cursor_spelling cursor ++ " @ "
  ++ fmt_d (to_int (cursor_line cursor)) ++ ":"
  ++ fmt_d (to_int (cursor_col cursor))
  ++ " in " ++ cursor_filename cursor ++ NL.

(** The line that follows it for each token of the cursor. *)
Definition token_line (t : CXToken) : string :=
  "token = '" ++ tok_spelling t ++ "' @ " ++ fmt_d (to_int (tok_line t))
  ++ ":" ++ fmt_d (to_int (tok_col t)) ++ NL.

Fixpoint token_lines (tokens : list CXToken) : string :=
  match tokens with
  | [] => ""
  | t :: rest => token_line t ++ token_lines rest
  end.

(** The cursors [callback] walks through without a [printf]: below a
    cursor of kind [parent_kind], the cursor and all the descendants
    [callback] visits are typedef, struct or enum declarations, compound
    literals, type references, initializer lists, unexposed expressions,
    integer literals, declaration references, or member references
    outside an unexposed expression. *)
Fixpoint quiet (parent_kind : Z) (cursor : CXCursor) {struct cursor}
  : bool :=
  match cursor with
  | mkCursor kind _ _ _ _ _ _ children =>
      if kind =? CXCursor_TypedefDecl then forallb (quiet kind) children
      else if (kind =? CXCursor_StructDecl) || (kind =? CXCursor_EnumDecl)
      then true
      else if (kind =? CXCursor_CompoundLiteralExpr)
              || (kind =? CXCursor_TypeRef)
              || (kind =? CXCursor_InitListExpr)
              || (kind =? CXCursor_UnexposedExpr)
      then forallb (quiet kind) children
      else if kind =? CXCursor_MemberRef
      then negb (parent_kind =? CXCursor_UnexposedExpr)
      else (kind =? CXCursor_IntegerLiteral)
           || (kind =? CXCursor_DeclRefExpr)
  end.

(** The source [int x;]; 9 is [CXCursor_VarDecl]. *)
Definition int_x_tokens : list CXToken :=
  [mkToken "int" 1 1; mkToken "x" 1 5; mkToken ";" 1 6].

Definition int_x_unit : CXCursor :=
  translation_unit int_x_tokens
    [mkCursor 9 1 "x" 1 5 "a.c" int_x_tokens []].

(** The source [enum E { A, B, C };] alone in a file. *)
Definition enum_only_unit : CXCursor :=
  translation_unit
    [mkToken "enum" 1 1; mkToken "E" 1 6; mkToken "{" 1 8;
     mkToken "A" 1 10; mkToken "," 1 11; mkToken "B" 1 13;
     mkToken "," 1 14; mkToken "C" 1 16; mkToken "}" 1 18;
     mkToken ";" 1 19]
    [enum_plain].

(** * Vocabulary of the further properties *)

(** The spellings of the tokens [from] to [to], both ends included. *)
Definition spellings_between (tokens : list CXToken) (from to : Z)
  : list string :=
  tok_spelling <$> take (Z.to_nat (to - from + 1))
                        (drop (Z.to_nat from) tokens).

(** The array extent [fill_struct_members] reads off the tokens that
    follow the name of a field: the value of the token after a [[]
    (converted to [unsigned]), and 0 where no [[] follows the name. *)
Definition array_extent_of (next : CXToken) (rest : list CXToken)
    (array_size : Z) : Prop :=
  (tok_spelling next ≠ "["%string ∧ array_size = 0) ∨
  (tok_spelling next = "["%string ∧
   ∃ size rest' v,
     rest = size :: rest' ∧ atoi (tok_spelling size) = Ok v ∧
     array_size = to_unsigned v).

(** The base type text [fill_struct_members] gives a field whose
    declarator is preceded by the tokens [base], the last of which is
    [b]: after a comma the type text of the member registered before
    it, else the tokens of [base] joined by spaces. *)
Definition base_type_of (base : list CXToken) (b : CXToken)
    (decl : StructDeclaration.t) (type : string) : Prop :=
  (tok_spelling b ≠ ","%string ∧
   type = String.concat " " (tok_spelling <$> base)) ∨
  (tok_spelling b = ","%string ∧
   ∃ prev, last (StructDeclaration.entries decl) = Some prev ∧
           StructMember.type prev = Stored type).

(** The field [int **q;] with the token that follows it. *)
Definition field_q : CXCursor :=
  sample CXCursor_FieldDecl 0 "q" ["unsigned"; "int"; "*"; "*"; "q"; ";"] [].

(** The spellings of the children of kind [kind], in order. *)
Definition spellings_of_kind (kind : Z) (children : list CXCursor)
  : list string :=
  cursor_spelling <$> filter (λ c, cursor_kind c = kind) children.

(** [struct S { int a; int *b; }] with a nested declaration libclang
    lists among the children. *)
Definition struct_with_nested : CXCursor :=
  sample CXCursor_StructDecl 1 "S" []
    [sample CXCursor_FieldDecl 0 "a" ["int"; "a"; ";"] [];
     sample CXCursor_StructDecl 2 "N" [] [];
     sample CXCursor_FieldDecl 0 "b" ["int"; "*"; "b"; ";"] []].

(** ** Properties of the state that a run keeps *)

(** [m] keeps the property [P] of the state, whether it ends normally
    or stops. *)
Definition preserves {A : Type} (P : State → Prop) (m : M A) : Prop :=
  ∀ s, P s → P (final_state (m s)).

(** [P] does not depend on standard output and is kept by each of the
    three registration functions, when it returns and when it stops. *)
Definition kept_by_registration (P : State → Prop) : Prop :=
  (∀ s out, P s → P (with_output s out)) ∧
  (∀ s str cursor decl_ptr structs' decl_ptr',
     P s →
     register_struct str cursor decl_ptr (structs s)
       = Ok (structs', decl_ptr') →
     P (mkState structs' (enums s) (typedefs s) (stdout s))) ∧
  (∀ s str cursor decl_ptr f,
     P s →
     register_struct str cursor decl_ptr (structs s) = Fail f →
     P (mkState (register_struct_stopped str cursor (structs s))
                (enums s) (typedefs s) (stdout s))) ∧
  (∀ s str cursor decl_ptr enums' decl_ptr',
     P s →
     register_enum str cursor decl_ptr (enums s)
       = Ok (enums', decl_ptr') →
     P (mkState (structs s) enums' (typedefs s) (stdout s))) ∧
  (∀ s str cursor decl_ptr f,
     P s →
     register_enum str cursor decl_ptr (enums s) = Fail f →
     P (mkState (structs s)
                (register_enum_stopped str cursor (enums s))
                (typedefs s) (stdout s))) ∧
  (∀ s name tokens decl cursor typedefs',
     P s →
     register_typedef name tokens decl cursor (typedefs s)
       = Ok typedefs' →
     P (mkState (structs s) (enums s) typedefs' (stdout s))) ∧
  (∀ s name tokens decl cursor f,
     P s →
     register_typedef name tokens decl cursor (typedefs s) = Fail f →
     P (mkState (structs s) (enums s)
                (register_typedef_stopped name (typedefs s)) (stdout s))).

(** The registries of [s'] are those of [s] with entries appended. *)
Definition extends (s s' : State) : Prop :=
  structs s `prefix_of` structs s' ∧
  enums s `prefix_of` enums s' ∧
  typedefs s `prefix_of` typedefs s'.

(** The source [typedef struct S { int a; } T;]: libclang lists the
    struct declaration as the child of the typedef declaration. *)
Definition typedef_struct : CXCursor :=
  sample CXCursor_TypedefDecl 3 "T"
    ["typedef"; "struct"; "S"; "{"; "int"; "a"; ";"; "}"; "T"; ";"]
    [sample CXCursor_StructDecl 1 "S" []
       [sample CXCursor_FieldDecl 0 "a" ["int"; "a"; ";"] []]].

(** The source [typedef unsigned long size;]: the typedef declaration
    has no children. *)
Definition typedef_scalar : CXCursor :=
  sample CXCursor_TypedefDecl 3 "size"
    ["typedef"; "unsigned"; "long"; "size"; ";"] [].

(** ** The printer on any token sequence *)

(** The 0-based lines of the tokens never go back, from the line [lnum]
    on. *)
Fixpoint lines_in_order (lnum : Z) (tokens : list CXToken) : bool :=
  match tokens with
  | [] => true
  | tok :: rest =>
      (lnum <=? to_unsigned (tok_line tok - 1))
      && lines_in_order (to_unsigned (tok_line tok - 1)) rest
  end.

(** Nothing but spaces and line breaks. *)
Fixpoint blank (s : string) : bool :=
  match s with
  | EmptyString => true
  | String c s' =>
      (Ascii.eqb c " " || Ascii.eqb c (ascii_of_nat 10)) && blank s'
  end.

(** [out] is the spellings of [tokens], in their order, each preceded
    by spaces and line breaks only. *)
Inductive spaced : list CXToken → string → Prop :=
| spaced_nil : spaced [] ""
| spaced_cons tok rest gap out :
    blank gap = true →
    spaced rest out →
    spaced (tok :: rest) (gap ++ tok_spelling tok ++ out).

(** How the printer stops on tokens whose lines are, or are not, in
    order. *)
Definition printer_stop (in_order : bool) : option Failure :=
  if in_order then None else Some (Abort "line >= lnum").

(** Three tokens of which the last is on an earlier line than the one
    before it. *)
Definition backward_tokens : list CXToken :=
  [mkToken "a" 1 1; mkToken "b" 3 1; mkToken "c" 2 1].

(** The children the evaluator finds a value for. *)
Definition evaluated_children (c : CXCursor) : list CXCursor :=
  filter (λ x, evaluated_kind (cursor_kind x) = true) (cursor_children c).

(** ** Literals as [atoi] reads them *)

Definition is_digit (c : ascii) : bool :=
  match digit_value c with Some _ => true | None => false end.

(** A run of decimal digits. *)
Fixpoint all_digits (s : string) : bool :=
  match s with
  | EmptyString => true
  | String c s' => is_digit c && all_digits s'
  end.

(** [s] does not go on with a digit. *)
Definition no_leading_digit (s : string) : bool :=
  match s with
  | EmptyString => true
  | String c _ => negb (is_digit c)
  end.

(** The unnamed bit-field [int : 3;]: its spelling is empty. *)
Definition unnamed_bit_field : CXCursor :=
  sample CXCursor_FieldDecl 0 "" ["int"; ":"; "3"; ";"] [].

(** The literal [0x10], followed by a comma. *)
Definition hexadecimal_literal : CXCursor :=
  integer_literal "0x10" ",".

(** The tokens of [typedef x;], a typedef without a type specifier:
    three tokens with the one after the declaration. *)
Definition typedef_name_tokens : list CXToken :=
  [mkToken "typedef" 1 1; mkToken "x" 1 9; mkToken ";" 1 10].

(** * Properties *)

(** ** The monads *)

Lemma bind_Done {A B : Type} (m : M A) (k : A → M B) (s s' : State) (a : A) :
  m s = Done a s' → (m ≫= k) s = k a s'.
Proof. intros H. unfold mbind, M_bind. now rewrite H. Qed.

Lemma bind_Stopped {A B : Type} (m : M A) (k : A → M B) (s s' : State)
    (f : Failure) :
  m s = Stopped f s' → (m ≫= k) s = Stopped f s'.
Proof. intros H. unfold mbind, M_bind. now rewrite H. Qed.

(** ** Strings *)

Lemma string_app_cons (x : ascii) (a b : string) :
  (String x a ++ b = String x (a ++ b))%string.
Proof. reflexivity. Qed.

Lemma string_app_assoc (a b c : string) :
  ((a ++ b) ++ c = a ++ (b ++ c))%string.
Proof.
  induction a as [|x a IH]; [reflexivity|].
  now rewrite !string_app_cons, IH.
Qed.

Lemma string_app_nil_r (a : string) : (a ++ "" = a)%string.
Proof.
  induction a as [|x a IH]; [reflexivity|].
  now rewrite string_app_cons, IH.
Qed.

(** ** The constant evaluator *)

Lemma token_at_lookup (tokens : list CXToken) (i : nat) (t : CXToken) :
  tokens !! i = Some t → token_at tokens (Z.of_nat i) = Ok t.
Proof.
  intros H. unfold token_at.
  pose proof (lookup_lt_Some _ _ _ H) as Hlt.
  rewrite Nat2Z.id, H.
  destruct (Z.leb_spec 0 (Z.of_nat i)); [|lia].
  destruct (Z.ltb_spec (Z.of_nat i) (Z.of_nat (length tokens))); [|lia].
  reflexivity.
Qed.

(** On a binary initializer the evaluator hands the two operand values
    and the operator to [arithmetic_expression] and stores what it
    returns. *)
Lemma fill_enum_value_binary enums cursor parent ptr op val1 val2 :
  binary_initializer enums cursor op val1 val2 →
  fill_enum_value enums cursor parent ptr =
    (v ← arithmetic_expression val1 op val2; cache_push ptr v).
Proof.
  intros (Hk & Hn & Hop & Hv).
  destruct cursor as [kind data str line col file tokens children].
  simpl in Hk, Hn, Hop, Hv. subst kind. simpl.
  rewrite Hn. simpl.
  destruct (tokens !! 1%nat) as [t|] eqn:Ht; [|discriminate].
  injection Hop as Hop. subst op.
  pose proof (token_at_lookup tokens 1 t Ht) as Hat.
  change (Z.of_nat 1) with 1 in Hat. rewrite Hat.
  simpl. rewrite Hv. reflexivity.
Qed.

Lemma arithmetic_expression_unknown c val1 val2 :
  known_operator (String c EmptyString) = false →
  arithmetic_expression val1 (String c EmptyString) val2 =
    Fail (Exit 1 ("Unknown arithmetic expression " ++ String c EmptyString
                  ++ NL)).
Proof.
  unfold known_operator, streq. simpl. intros H.
  repeat destruct (Ascii.eqb c _); try discriminate; reflexivity.
Qed.

Lemma int_result_in z : in_int z = true → int_result z = Ok z.
Proof. unfold int_result. now intros ->. Qed.

Lemma int_div_defined val1 val2 :
  val2 ≠ 0 → in_int (Z.quot val1 val2) = true →
  int_div val1 val2 = Ok (Z.quot val1 val2).
Proof.
  intros Hz Hq. unfold int_div.
  destruct (Z.eqb_spec val2 0); [contradiction|]. now apply int_result_in.
Qed.

Lemma int_mod_defined val1 val2 :
  val2 ≠ 0 → in_int (Z.quot val1 val2) = true →
  int_mod val1 val2 = Ok (Z.rem val1 val2).
Proof.
  intros Hz Hq. unfold int_mod.
  destruct (Z.eqb_spec val2 0); [contradiction|]. now rewrite Hq.
Qed.

(** C3 (as amended): for every binary enum initializer whose extent has
    four tokens (two operands of one token each, the operator between
    them and the token after the initializer), whose two operands the
    evaluator resolves to values and whose operator token is one of
    [^ | & + - * / %], when C defines the operation on the two values
    (the result fits an [int], the divisor is not zero) the evaluator
    stores the exact integer result; division truncates towards zero
    and the remainder is the one that goes with it.  Any other operator
    token of one character stops the run with the "Unknown arithmetic
    expression" diagnostic; an operator token of two or more
    characters, such as [<<], fails the assertion [expr[1] == 0]
    instead. *)
Theorem binary_initializer_value enums cursor parent ptr op val1 val2 :
  binary_initializer enums cursor op val1 val2 →
  let stored := fill_enum_value enums cursor parent ptr in
  (op = "^"%string → stored = cache_push ptr (Z.lxor val1 val2)) ∧
  (op = "|"%string → stored = cache_push ptr (Z.lor val1 val2)) ∧
  (op = "&"%string → stored = cache_push ptr (Z.land val1 val2)) ∧
  (op = "+"%string → in_int (val1 + val2) = true →
     stored = cache_push ptr (val1 + val2)) ∧
  (op = "-"%string → in_int (val1 - val2) = true →
     stored = cache_push ptr (val1 - val2)) ∧
  (op = "*"%string → in_int (val1 * val2) = true →
     stored = cache_push ptr (val1 * val2)) ∧
  (op = "/"%string → val2 ≠ 0 → in_int (Z.quot val1 val2) = true →
     stored = cache_push ptr (Z.quot val1 val2) ∧
     Z.abs (val1 - val2 * Z.quot val1 val2) < Z.abs val2 ∧
     0 ≤ (val1 - val2 * Z.quot val1 val2) * val1) ∧
  (op = "%"%string → val2 ≠ 0 → in_int (Z.quot val1 val2) = true →
     stored = cache_push ptr (Z.rem val1 val2) ∧
     Z.rem val1 val2 = val1 - val2 * Z.quot val1 val2) ∧
  (String.length op = 1%nat → known_operator op = false →
     stored = Fail (Exit 1 ("Unknown arithmetic expression " ++ op ++ NL))) ∧
  ((2 ≤ String.length op)%nat → stored = Fail (Abort "expr[1] == 0")).
Proof.
  intros Hb stored. subst stored.
  rewrite (fill_enum_value_binary _ _ parent ptr _ _ _ Hb).
  pose proof (Z.quot_rem' val1 val2) as Hqr.
  repeat match goal with |- _ ∧ _ => split end.
  - now intros ->.
  - now intros ->.
  - now intros ->.
  - intros -> H. simpl. now rewrite (int_result_in _ H).
  - intros -> H. simpl. now rewrite (int_result_in _ H).
  - intros -> H. simpl. now rewrite (int_result_in _ H).
  - intros -> Hz Hq. simpl. rewrite (int_div_defined _ _ Hz Hq).
    replace (val1 - val2 * Z.quot val1 val2) with (Z.rem val1 val2) by lia.
    split; [reflexivity|]. split.
    + now apply Z.rem_bound_abs.
    + now apply Z.rem_sign_mul.
  - intros -> Hz Hq. simpl. rewrite (int_mod_defined _ _ Hz Hq).
    split; [reflexivity|lia].
  - intros Hlen Hk. destruct op as [|c [|c' op]]; try discriminate.
    now rewrite (arithmetic_expression_unknown c val1 val2 Hk).
  - intros Hlen. destruct op as [|c [|c' op]]; simpl in Hlen; try lia.
    reflexivity.
Qed.

Ltac sample_binary_initializer :=
  unfold binary_initializer; repeat split; vm_compute; reflexivity.

Lemma binary_initializer_value_witness :
  fill_enum_value [] (binary_literals "2" "+" "3" ",")
                  (translation_unit [] []) empty_cache = Ok [1; 5; 0] ∧
  fill_enum_value [] (binary_literals "8" "/" "3" ",")
                  (translation_unit [] []) empty_cache = Ok [1; 2; 0].
Proof.
  split.
  - destruct (binary_initializer_value [] (binary_literals "2" "+" "3" ",")
                (translation_unit [] []) empty_cache "+" 2 3)
      as (_ & _ & _ & Hadd & _); [sample_binary_initializer|].
    exact (Hadd eq_refl eq_refl).
  - destruct (binary_initializer_value [] (binary_literals "8" "/" "3" ",")
                (translation_unit [] []) empty_cache "/" 8 3)
      as (_ & _ & _ & _ & _ & _ & Hdiv & _); [sample_binary_initializer|].
    destruct (Hdiv eq_refl) as [Hq _]; [discriminate|reflexivity|].
    exact Hq.
Defined.

(** C3, as stated, fails in three ways.  For the shift operator: on the
    initializer [1 << 3] the evaluator neither stores [8] nor prints
    the unsupported-expression diagnostic; it fails the assertion
    [expr[1] == 0] of [arithmetic_expression].  For an operand that is
    an expression itself: in [1 + 2 + 3] the operator is [+] and the
    two operands resolve to 3 and 3, but the extent has six tokens and
    the evaluator fails its assertion [n_tokens == 4] instead of
    storing 6.  For a result that does not fit an [int]: on
    [2147483647 + 1] the evaluator does not store 2147483648, the
    addition it performs is an [int] addition that overflows. *)
Lemma binary_initializers_not_evaluated :
  (binary_initializer [] (binary_literals "1" "<<" "3" ",") "<<" 1 3 ∧
   fill_enum_value [] (binary_literals "1" "<<" "3" ",")
                   (translation_unit [] []) empty_cache
     = Fail (Abort "expr[1] == 0") ∧
   fill_enum_value [] (binary_literals "1" "<<" "3" ",")
                   (translation_unit [] []) empty_cache
     ≠ cache_push empty_cache (Z.shiftl 1 3)) ∧
  (cursor_kind nested_sum = CXCursor_BinaryOperator ∧
   tok_spelling <$> (cursor_tokens nested_sum !! 1%nat) = Some "+"%string ∧
   visit_list (fill_enum_value []) nested_sum (cursor_children nested_sum)
              empty_cache = Ok [2; 3; 3] ∧
   n_tokens (cursor_tokens nested_sum) = 6 ∧
   fill_enum_value [] nested_sum (translation_unit [] []) empty_cache
     = Fail (Abort "n_tokens == 4") ∧
   fill_enum_value [] nested_sum (translation_unit [] []) empty_cache
     ≠ cache_push empty_cache (3 + 3)) ∧
  (binary_initializer [] (binary_literals "2147483647" "+" "1" ",")
                      "+" 2147483647 1 ∧
   fill_enum_value [] (binary_literals "2147483647" "+" "1" ",")
                   (translation_unit [] []) empty_cache
     = Fail (Undefined "signed integer overflow") ∧
   fill_enum_value [] (binary_literals "2147483647" "+" "1" ",")
                   (translation_unit [] []) empty_cache
     ≠ cache_push empty_cache (2147483647 + 1)).
Proof.
  split; [|split].
  - split; [sample_binary_initializer|].
    split; [vm_compute; reflexivity|].
    vm_compute. discriminate.
  - repeat split; try (vm_compute; reflexivity).
    vm_compute. discriminate.
  - split; [sample_binary_initializer|].
    split; [vm_compute; reflexivity|].
    vm_compute. discriminate.
Qed.

(** C10: [arithmetic_expression] applies [/] and [%] without looking at
    the right operand.  For every binary enum initializer with one of
    these operators, a right operand that resolves to zero reaches the C
    division, whose behaviour is undefined: no diagnostic is printed and
    no assertion fails.  Whenever the evaluation yields a value, the
    right operand was not zero. *)
Theorem division_by_zero_unguarded enums cursor parent ptr op val1 val2 :
  binary_initializer enums cursor op val1 val2 →
  op = "/"%string ∨ op = "%"%string →
  (val2 = 0 →
     fill_enum_value enums cursor parent ptr
       = Fail (Undefined "division by zero")) ∧
  (∀ ptr', fill_enum_value enums cursor parent ptr = Ok ptr' → val2 ≠ 0).
Proof.
  intros Hb Hop.
  rewrite (fill_enum_value_binary _ _ parent ptr _ _ _ Hb).
  assert (Hzero : val2 = 0 →
            arithmetic_expression val1 op val2
              = Fail (Undefined "division by zero")).
  { intros ->. destruct Hop as [-> | ->]; reflexivity. }
  split.
  - intros Hz. now rewrite (Hzero Hz).
  - intros ptr' Hok Hz. rewrite (Hzero Hz) in Hok. discriminate.
Qed.

Lemma division_by_zero_unguarded_witness :
  fill_enum_value [] (binary_literals "8" "/" "0" ",")
                  (translation_unit [] []) empty_cache
    = Fail (Undefined "division by zero") ∧
  fill_enum_value [] (binary_literals "8" "%" "0" ",")
                  (translation_unit [] []) empty_cache
    = Fail (Undefined "division by zero").
Proof.
  split.
  - refine (proj1 (division_by_zero_unguarded []
              (binary_literals "8" "/" "0" ",") (translation_unit [] [])
              empty_cache "/" 8 0 _ (or_introl eq_refl)) eq_refl).
    sample_binary_initializer.
  - refine (proj1 (division_by_zero_unguarded []
              (binary_literals "8" "%" "0" ",") (translation_unit [] [])
              empty_cache "%" 8 0 _ (or_intror eq_refl)) eq_refl).
    sample_binary_initializer.
Defined.

(** ** Lookup of enum constants *)

Lemma find_member_first members str before m after :
  members = before ++ m :: after →
  EnumMember.name m = str →
  unregistered str before →
  find_member members str = Some (EnumMember.value m).
Proof.
  intros -> Hm Hbefore.
  induction Hbefore as [|x before Hx _ IH]; simpl.
  - unfold streq. now rewrite (proj2 (String.eqb_eq _ _) Hm).
  - unfold streq. now rewrite (proj2 (String.eqb_neq _ _) Hx).
Qed.

Lemma find_member_none members str :
  unregistered str members → find_member members str = None.
Proof.
  induction 1 as [|x members Hx _ IH]; simpl; [reflexivity|].
  unfold streq. now rewrite (proj2 (String.eqb_neq _ _) Hx).
Qed.

Lemma find_member_app l1 l2 str :
  find_member (l1 ++ l2) str =
    match find_member l1 str with
    | Some v => Some v
    | None => find_member l2 str
    end.
Proof.
  induction l1 as [|x l1 IH]; simpl; [reflexivity|].
  destruct (streq (EnumMember.name x) str); [reflexivity|apply IH].
Qed.

(** The two nested loops of [find_enum_value] are one scan of the
    members in registration order. *)
Lemma find_enum_from_flat enums str :
  find_enum_from enums str = find_member (all_members enums) str.
Proof.
  induction enums as [|d enums IH]; simpl; [reflexivity|].
  unfold all_members. simpl. rewrite find_member_app.
  destruct (find_member (EnumDeclaration.entries d) str); [reflexivity|].
  apply IH.
Qed.

Lemma find_enum_value_unknown enums str :
  unregistered str (all_members enums) →
  find_enum_value enums str
    = Fail (Exit 1 ("Unknown enum value " ++ str ++ NL)).
Proof.
  intros H. unfold find_enum_value.
  now rewrite find_enum_from_flat, (find_member_none _ _ H).
Qed.

(** ** Visiting children *)

Lemma visit_list_invariant {D : Type} (P : D → Prop)
    (visitor : CXCursor → CXCursor → D → outcome D) parent :
  (∀ c d d', P d → visitor c parent d = Ok d' → P d') →
  ∀ l d d', P d → visit_list visitor parent l d = Ok d' → P d'.
Proof.
  intros Hstep. induction l as [|c l IH]; intros d d' Hd; simpl.
  - intros [= <-]. exact Hd.
  - destruct (visitor c parent d) as [d1|] eqn:E; simpl; [|discriminate].
    apply IH. exact (Hstep _ _ _ Hd E).
Qed.

Lemma visit_list_M_app {D : Type}
    (visitor : CXCursor → CXCursor → D → M D) parent l1 l2 d s :
  visit_list visitor parent (l1 ++ l2) d s =
    (d' ← visit_list visitor parent l1 d; visit_list visitor parent l2 d') s.
Proof.
  revert d s. induction l1 as [|c l1 IH]; intros d s; simpl; [reflexivity|].
  unfold mbind, M_bind.
  destruct (visitor c parent d s); [apply IH|reflexivity].
Qed.

Lemma visit_list_stopped_at {D : Type}
    (visitor : CXCursor → CXCursor → D → outcome D)
    (stopped : CXCursor → CXCursor → D → D) parent l1 c l2 d d1 f :
  visit_list visitor parent l1 d = Ok d1 →
  visitor c parent d1 = Fail f →
  visit_list visitor parent (l1 ++ c :: l2) d = Fail f ∧
  visit_list_stopped visitor stopped parent (l1 ++ c :: l2) d
    = stopped c parent d1.
Proof.
  revert d. induction l1 as [|x l1 IH]; intros d; simpl.
  - intros [= ->] Hc. now rewrite Hc.
  - destruct (visitor x parent d) as [d'|]; simpl; [|discriminate].
    apply IH.
Qed.

Lemma fill_enum_members_length decl c parent enums enums' :
  fill_enum_members decl c parent enums = Ok enums' →
  length enums' = length enums.
Proof.
  unfold fill_enum_members.
  destruct (cursor_kind c =? CXCursor_EnumConstantDecl);
    [|now intros [= <-]].
  destruct (enums !! decl); [|discriminate].
  destruct (clang_visitChildren c (fill_enum_value enums) empty_cache);
    simpl; [|discriminate].
  destruct (assert _ _); simpl; [|discriminate].
  match goal with |- (?v ≫= _) = _ → _ => destruct v end;
    simpl; [|discriminate].
  intros [= <-]. apply length_insert.
Qed.

Lemma fill_enum_value_unknown_reference enums r parent ptr t :
  cursor_kind r = CXCursor_DeclRefExpr →
  n_tokens (cursor_tokens r) = 2 →
  cursor_tokens r !! 0%nat = Some t →
  unregistered (tok_spelling t) (all_members enums) →
  fill_enum_value enums r parent ptr
    = Fail (Exit 1 ("Unknown enum value " ++ tok_spelling t ++ NL)).
Proof.
  intros Hk Hn Ht Hun.
  destruct r as [kind data str line col file tokens children].
  simpl in Hk, Hn, Ht. subst kind. simpl. rewrite Hn. simpl.
  pose proof (token_at_lookup tokens 0 t Ht) as Hat.
  change (Z.of_nat 0) with 0 in Hat. rewrite Hat. simpl.
  now rewrite (find_enum_value_unknown _ _ Hun).
Qed.

(** C4: [find_enum_value] returns the value of the first member, in
    registration order, that bears the name; when no registered member
    bears it, the result is [exit(1)] after the diagnostic "Unknown enum
    value <name>".  A run whose traversal reaches an enumerator
    initialized with a reference to an unregistered name stops there
    with that diagnostic: [main] ends in the very state in which the
    traversal reached the enumerator, so [print_tokens] never runs and
    nothing of the token stream is written. *)
Theorem find_enum_value_first_or_fatal :
  (∀ enums str before m after,
     all_members enums = before ++ m :: after →
     EnumMember.name m = str →
     unregistered str before →
     find_enum_value enums str = Ok (EnumMember.value m)) ∧
  (∀ enums str,
     unregistered str (all_members enums) →
     find_enum_value enums str
       = Fail (Exit 1 ("Unknown enum value " ++ str ++ NL))) ∧
  (∀ tu name s,
     reaches_undefined_reference tu name s →
     main tu = Stopped (Exit 1 ("Unknown enum value " ++ name ++ NL)) s).
Proof.
  split; [|split].
  - intros enums str before m after Hall Hm Hb.
    unfold find_enum_value.
    now rewrite find_enum_from_flat, (find_member_first _ _ _ _ _ Hall Hm Hb).
  - apply find_enum_value_unknown.
  - intros tu name s
      (before & e & after & d & s0 & mbefore & m & mafter & r & rest & t
       & Hch & Hbefore & Hke & Hfresh & Hmem & Hmb & Hstructs & Htypedefs
       & Hstdout & Hkm & Hinit & Hkr & Hn & Ht & Hname & Hun).
    subst name.
    assert (Hm : fill_enum_members (length (enums s0)) m e (enums s)
                 = Fail (Exit 1 ("Unknown enum value " ++ tok_spelling t
                                 ++ NL))).
    { assert (Hlen : length (enums s) = S (length (enums s0))).
      { refine (visit_list_invariant (λ l, length l = S (length (enums s0)))
                  _ e _ mbefore _ _ _ Hmb).
        - intros c l l' Hl Hc.
          now rewrite (fill_enum_members_length _ _ _ _ _ Hc).
        - rewrite length_app. simpl. lia. }
      unfold fill_enum_members. rewrite Hkm. simpl.
      destruct (enums s !! length (enums s0)) as [d0|] eqn:Hd0.
      2:{ apply lookup_ge_None in Hd0. lia. }
      unfold clang_visitChildren. rewrite Hinit. simpl.
      now rewrite (fill_enum_value_unknown_reference _ _ m _ t Hkr Hn Ht Hun). }
    assert (He : callback e tu d s0
                 = Stopped (Exit 1 ("Unknown enum value " ++ tok_spelling t
                                    ++ NL)) s).
    { destruct (visit_list_stopped_at
                  (fill_enum_members (length (enums s0)))
                  (λ _ _ enums', enums') e mbefore m mafter _ _ _ Hmb Hm)
        as [Hfail Hstop].
      destruct e as [kind data str line col file tokens children].
      simpl in Hke, Hfresh, Hmem, Hfail, Hstop. subst kind children. simpl.
      unfold on_enums, register_enum, register_enum_stopped.
      rewrite Hfresh.
      unfold clang_visitChildren. simpl cursor_children.
      rewrite Hfail, Hstop. simpl.
      destruct s. simpl in Hstructs, Htypedefs, Hstdout.
      now subst. }
    unfold main, translate, clang_visitChildren. rewrite Hch.
    apply bind_Stopped, bind_Stopped.
    rewrite visit_list_M_app. rewrite (bind_Done _ _ _ _ _ Hbefore).
    simpl. now apply bind_Stopped.
Qed.

Lemma find_enum_value_first_or_fatal_witness :
  find_enum_value sample_enums "B" = Ok 6 ∧
  find_enum_value sample_enums "C"
    = Fail (Exit 1 ("Unknown enum value C" ++ NL)) ∧
  main undefined_reference_unit
    = Stopped (Exit 1 ("Unknown enum value B" ++ NL))
        (mkState []
           [EnumDeclaration.mk [] "E"
              (enum_decl 1 "E" [enum_constant "A" [decl_ref "B" "}"]])]
           [] "").
Proof.
  destruct find_enum_value_first_or_fatal as (Hfirst & Hnone & Hrun).
  split; [|split].
  - refine (Hfirst sample_enums "B"
              [EnumMember.mk "A" 5
                 (enum_constant "A" [integer_literal "5" ","])]
              (EnumMember.mk "B" 6 (enum_constant "B" []))
              [EnumMember.mk "B" 9
                 (enum_constant "B" [integer_literal "9" "}"])]
              eq_refl eq_refl _).
    repeat constructor. discriminate.
  - apply (Hnone sample_enums "C").
    repeat constructor; discriminate.
  - apply (Hrun undefined_reference_unit "B").
    exists [], (enum_decl 1 "E" [enum_constant "A" [decl_ref "B" "}"]]), [],
      None, initial_state, [], (enum_constant "A" [decl_ref "B" "}"]), [],
      (decl_ref "B" "}"), [], (tok "B").
    repeat split; try reflexivity.
    repeat constructor.
Defined.

(** ** Enum members *)

Lemma insert_last {A : Type} (l : list A) (x y : A) :
  <[length l := x]> (l ++ [y]) = l ++ [x].
Proof.
  rewrite <- (Nat.add_0_r (length l)) at 1. now rewrite insert_app_r.
Qed.

Lemma in_int_bounds z : INT_MIN ≤ z ≤ INT_MAX → in_int z = true.
Proof.
  intros [Hlo Hhi]. unfold in_int.
  apply andb_true_intro; split; now apply Z.leb_le.
Qed.

Lemma fill_enum_members_evaluated decl enums d cursor parent cache :
  cursor_kind cursor = CXCursor_EnumConstantDecl →
  enums !! decl = Some d →
  clang_visitChildren cursor (fill_enum_value enums) empty_cache
    = Ok cache →
  cache_get cache 0 = 1 →
  fill_enum_members decl cursor parent enums
    = Ok (with_member decl d
            (EnumMember.mk (cursor_spelling cursor) (cache_get cache 1)
                           cursor) enums).
Proof.
  intros Hk Hd Hv Hone. unfold fill_enum_members.
  rewrite Hk, Hd. simpl. rewrite Hv. simpl. rewrite Hone. reflexivity.
Qed.

Lemma fill_enum_members_plain decl enums d cursor parent :
  plain_enumerator cursor →
  enums !! decl = Some d →
  INT_MIN ≤ next_default d ≤ INT_MAX →
  fill_enum_members decl cursor parent enums
    = Ok (with_member decl d
            (EnumMember.mk (cursor_spelling cursor) (next_default d)
                           cursor) enums).
Proof.
  intros [Hk Hno] Hd Hrange. unfold fill_enum_members, clang_visitChildren.
  rewrite Hk, Hd, Hno. simpl. unfold next_default in *.
  destruct (last (EnumDeclaration.entries d)) as [prev|]; [|reflexivity].
  now rewrite (int_result_in _ (in_int_bounds _ Hrange)).
Qed.

(** A run of enumerators without initializer counts on from the
    default of the first of them. *)
Lemma visit_plain_enumerators decl parent members :
  ∀ enums d,
    Forall plain_enumerator members →
    enums !! decl = Some d →
    INT_MIN ≤ next_default d →
    next_default d + Z.of_nat (length members) ≤ INT_MAX + 1 →
    visit_list (fill_enum_members decl) parent members enums
      = Ok (<[decl := EnumDeclaration.mk
                        (EnumDeclaration.entries d
                           ++ counted_members (next_default d) members)
                        (EnumDeclaration.name d)
                        (EnumDeclaration.cursor d)]> enums).
Proof.
  induction members as [|m members IH]; intros enums d Hall Hd Hlo Hhi.
  - simpl. rewrite app_nil_r. destruct d. simpl.
    now rewrite list_insert_id.
  - apply Forall_cons in Hall as [Hm Hall].
    rewrite length_cons, Nat2Z.inj_succ in Hhi.
    simpl. rewrite (fill_enum_members_plain _ _ d) by (try assumption; lia).
    simpl. unfold with_member.
    pose proof (lookup_lt_Some _ _ _ Hd) as Hlt.
    rewrite (IH _ _ Hall (list_lookup_insert_eq _ _ _ Hlt));
      unfold next_default; simpl; rewrite last_snoc; simpl;
      fold (next_default d); try lia.
    rewrite list_insert_insert_eq, <- app_assoc. reflexivity.
Qed.

Lemma fill_enum_value_skips enums c parent ptr :
  evaluated_kind (cursor_kind c) = false →
  fill_enum_value enums c parent ptr = Ok ptr.
Proof.
  destruct c as [kind data str line col file tokens children].
  unfold evaluated_kind. simpl. intros H.
  apply orb_false_elim in H as [H H3].
  apply orb_false_elim in H as [H1 H2].
  now rewrite H1, H2, H3.
Qed.

Lemma visit_skipped enums parent children ptr :
  Forall (λ c, evaluated_kind (cursor_kind c) = false) children →
  visit_list (fill_enum_value enums) parent children ptr = Ok ptr.
Proof.
  induction 1 as [|c children Hc _ IH]; simpl; [reflexivity|].
  now rewrite (fill_enum_value_skips _ _ _ _ Hc).
Qed.

Lemma fill_enum_value_literal enums init parent ptr t next :
  cursor_kind init = CXCursor_IntegerLiteral →
  cursor_tokens init = [t; next] →
  fill_enum_value enums init parent ptr
    = (v ← atoi (tok_spelling t); cache_push ptr v).
Proof.
  destruct init as [kind data str line col file tokens children].
  simpl. intros -> ->. reflexivity.
Qed.

Lemma fill_enum_value_reference enums init parent ptr t before m after :
  cursor_kind init = CXCursor_DeclRefExpr →
  n_tokens (cursor_tokens init) = 2 →
  cursor_tokens init !! 0%nat = Some t →
  all_members enums = before ++ m :: after →
  EnumMember.name m = tok_spelling t →
  unregistered (tok_spelling t) before →
  fill_enum_value enums init parent ptr
    = cache_push ptr (EnumMember.value m).
Proof.
  intros Hk Hn Ht Hall Hm Hbefore.
  destruct init as [kind data str line col file tokens children].
  simpl in Hk, Hn, Ht. subst kind. simpl. rewrite Hn. simpl.
  pose proof (token_at_lookup tokens 0 t Ht) as Hat.
  change (Z.of_nat 0) with 0 in Hat. rewrite Hat. simpl.
  unfold find_enum_value.
  now rewrite find_enum_from_flat,
    (find_member_first _ _ _ _ _ Hall Hm Hbefore).
Qed.

(** An enumerator whose only child the evaluator finds the value [v]
    for. *)
Lemma fill_enum_members_single decl enums d cursor parent init v :
  cursor_kind cursor = CXCursor_EnumConstantDecl →
  enums !! decl = Some d →
  cursor_children cursor = [init] →
  fill_enum_value enums init cursor empty_cache
    = cache_push empty_cache v →
  fill_enum_members decl cursor parent enums
    = Ok (with_member decl d
            (EnumMember.mk (cursor_spelling cursor) v cursor) enums).
Proof.
  intros Hk Hd Hch Hv.
  apply (fill_enum_members_evaluated _ _ _ _ _ [1; v; 0] Hk Hd);
    [|reflexivity].
  unfold clang_visitChildren. rewrite Hch. simpl. now rewrite Hv.
Qed.

Lemma fill_enum_members_default decl enums d cursor parent :
  cursor_kind cursor = CXCursor_EnumConstantDecl →
  enums !! decl = Some d →
  Forall (λ c, evaluated_kind (cursor_kind c) = false)
         (cursor_children cursor) →
  INT_MIN ≤ next_default d ≤ INT_MAX →
  fill_enum_members decl cursor parent enums
    = Ok (with_member decl d
            (EnumMember.mk (cursor_spelling cursor) (next_default d)
                           cursor) enums).
Proof.
  intros Hk Hd Hskip Hrange.
  unfold fill_enum_members, clang_visitChildren.
  rewrite Hk, Hd, (visit_skipped _ _ _ _ Hskip). simpl.
  unfold next_default in *.
  destruct (last (EnumDeclaration.entries d)) as [prev|]; [|reflexivity].
  now rewrite (int_result_in _ (in_int_bounds _ Hrange)).
Qed.

(** C2 (as amended): for every enumerator of an enum declaration, when
    the evaluator finds a value for its initializer the member takes
    that value: for an integer literal the number [atoi] reads in its
    spelling, for a reference the value of the first registered member
    of that name, for a binary operator on two operands it resolves the
    result of the operator.  An enumerator without initializer, and
    likewise one whose initializer is of a kind the evaluator has no
    case for, takes 0 when it is the first member of the declaration
    and otherwise the value of the member before it plus 1 (an [int]
    addition, so that value must be below [INT_MAX]).  Hence a
    declaration whose enumerators have no initializer resolves to 0, 1,
    2, ..., and one whose first enumerator alone has an initializer, of
    value [v], to [v], [v + 1], [v + 2], ...: [enum { A, B, C }]
    resolves to 0, 1, 2, [enum { A = 5, B, C }] to 5, 6, 7,
    [enum { A = 2 + 3, B = A, C }] to 5, 5, 6 and
    [enum { A = -1, B = (2) }] to 0, 1. *)
Theorem enum_member_values :
  (∀ decl enums d cursor parent,
     cursor_kind cursor = CXCursor_EnumConstantDecl →
     enums !! decl = Some d →
     let registers v :=
       fill_enum_members decl cursor parent enums
         = Ok (with_member decl d
                 (EnumMember.mk (cursor_spelling cursor) v cursor) enums) in
     (∀ cache,
        clang_visitChildren cursor (fill_enum_value enums) empty_cache
          = Ok cache →
        cache_get cache 0 = 1 →
        registers (cache_get cache 1)) ∧
     (∀ init t next v,
        cursor_children cursor = [init] →
        cursor_kind init = CXCursor_IntegerLiteral →
        cursor_tokens init = [t; next] →
        atoi (tok_spelling t) = Ok v →
        registers v) ∧
     (∀ init t before m after,
        cursor_children cursor = [init] →
        cursor_kind init = CXCursor_DeclRefExpr →
        n_tokens (cursor_tokens init) = 2 →
        cursor_tokens init !! 0%nat = Some t →
        all_members enums = before ++ m :: after →
        EnumMember.name m = tok_spelling t →
        unregistered (tok_spelling t) before →
        registers (EnumMember.value m)) ∧
     (∀ init op val1 val2 v,
        cursor_children cursor = [init] →
        binary_initializer enums init op val1 val2 →
        arithmetic_expression val1 op val2 = Ok v →
        registers v) ∧
     (Forall (λ c, evaluated_kind (cursor_kind c) = false)
             (cursor_children cursor) →
      (EnumDeclaration.entries d = [] → registers 0) ∧
      (∀ before prev,
         EnumDeclaration.entries d = before ++ [prev] →
         INT_MIN - 1 ≤ EnumMember.value prev < INT_MAX →
         registers (EnumMember.value prev + 1)))) ∧
  (∀ enums str cursor decl_ptr,
     find_other EnumDeclaration.name EnumDeclaration.cursor
                enums str cursor 0 = None →
     Forall plain_enumerator (cursor_children cursor) →
     Z.of_nat (length (cursor_children cursor)) ≤ INT_MAX + 1 →
     register_enum str cursor decl_ptr enums
       = Ok (enums ++ [EnumDeclaration.mk
                         (counted_members 0 (cursor_children cursor))
                         str cursor],
             TypedefDeclaration.set_enum_decl (Some (length enums))
               <$> decl_ptr)) ∧
  (∀ enums str cursor decl_ptr first rest cache,
     find_other EnumDeclaration.name EnumDeclaration.cursor
                enums str cursor 0 = None →
     cursor_children cursor = first :: rest →
     cursor_kind first = CXCursor_EnumConstantDecl →
     clang_visitChildren first
       (fill_enum_value (enums ++ [EnumDeclaration.mk [] str cursor]))
       empty_cache = Ok cache →
     cache_get cache 0 = 1 →
     Forall plain_enumerator rest →
     INT_MIN - 1 ≤ cache_get cache 1 →
     cache_get cache 1 + Z.of_nat (length rest) ≤ INT_MAX →
     register_enum str cursor decl_ptr enums
       = Ok (enums ++ [EnumDeclaration.mk
                         (EnumMember.mk (cursor_spelling first)
                                        (cache_get cache 1) first
                          :: counted_members (cache_get cache 1 + 1) rest)
                         str cursor],
             TypedefDeclaration.set_enum_decl (Some (length enums))
               <$> decl_ptr)) ∧
  (∃ enums,
     register_enum "E" enum_plain None [] = Ok (enums, None) ∧
     member_values enums = [[("A", 0); ("B", 1); ("C", 2)]]%string) ∧
  (∃ enums,
     register_enum "E" enum_from_five None [] = Ok (enums, None) ∧
     member_values enums = [[("A", 5); ("B", 6); ("C", 7)]]%string) ∧
  (∃ enums,
     register_enum "E" enum_evaluated None [] = Ok (enums, None) ∧
     member_values enums = [[("A", 5); ("B", 5); ("C", 6)]]%string) ∧
  (∃ enums,
     register_enum "E" enum_ignored_initializers None []
       = Ok (enums, None) ∧
     member_values enums = [[("A", 0); ("B", 1)]]%string).
Proof.
  repeat match goal with |- _ ∧ _ => split end.
  - intros decl enums d cursor parent Hk Hd registers. subst registers.
    repeat match goal with |- _ ∧ _ => split end.
    + intros cache Hv Hone.
      now apply fill_enum_members_evaluated.
    + intros init t next v Hch Hki Htok Hv.
      apply (fill_enum_members_single _ _ _ _ _ init); try assumption.
      rewrite (fill_enum_value_literal _ _ _ _ t next Hki Htok), Hv.
      reflexivity.
    + intros init t before m after Hch Hki Hn Ht Hall Hm Hbefore.
      apply (fill_enum_members_single _ _ _ _ _ init); try assumption.
      exact (fill_enum_value_reference _ _ _ _ _ _ _ _ Hki Hn Ht Hall Hm
               Hbefore).
    + intros init op val1 val2 v Hch Hb Hv.
      apply (fill_enum_members_single _ _ _ _ _ init); try assumption.
      rewrite (fill_enum_value_binary _ _ cursor empty_cache _ _ _ Hb), Hv.
      reflexivity.
    + intros Hskip. split.
      * intros Hfirst.
        rewrite (fill_enum_members_default _ _ d); unfold next_default;
          rewrite ?Hfirst; simpl; unfold INT_MIN, INT_MAX;
          try easy; try lia.
      * intros before prev Hentries Hrange.
        rewrite (fill_enum_members_default _ _ d); unfold next_default;
          rewrite ?Hentries, ?last_snoc; try easy; lia.
  - intros enums str cursor decl_ptr Hfresh Hall Hlen.
    unfold register_enum, clang_visitChildren. rewrite Hfresh.
    rewrite (visit_plain_enumerators _ _ _ _
               (EnumDeclaration.mk [] str cursor) Hall);
      try (unfold next_default, INT_MIN; simpl; lia).
    + simpl. unfold next_default. simpl.
      rewrite insert_last. reflexivity.
    + now apply list_lookup_middle.
  - intros enums str cursor decl_ptr first rest cache
      Hfresh Hch Hk Hv Hone Hrest Hlo Hhi.
    unfold register_enum, clang_visitChildren. rewrite Hfresh, Hch.
    pose proof (list_lookup_middle enums []
                  (EnumDeclaration.mk [] str cursor) (length enums)
                  eq_refl) as Hd.
    simpl.
    rewrite (fill_enum_members_evaluated _ _ _ _ _ _ Hk Hd Hv Hone).
    simpl. unfold with_member. simpl.
    rewrite insert_last.
    rewrite (visit_plain_enumerators _ _ _ _
               (EnumDeclaration.mk
                  [EnumMember.mk (cursor_spelling first)
                                 (cache_get cache 1) first] str cursor)
               Hrest);
      try (unfold next_default; simpl; unfold INT_MIN in *; lia).
    + simpl. unfold next_default. simpl.
      rewrite insert_last. reflexivity.
    + now apply list_lookup_middle.
  - eexists. split; vm_compute; reflexivity.
  - eexists. split; vm_compute; reflexivity.
  - eexists. split; vm_compute; reflexivity.
  - eexists. split; vm_compute; reflexivity.
Qed.

Lemma enum_member_values_witness :
  fill_enum_members 0 (enum_constant "B" []) enum_from_five
    [EnumDeclaration.mk
       [EnumMember.mk "A" 5 (enum_constant "A" [integer_literal "5" ","])]
       "E" enum_from_five]
  = Ok [EnumDeclaration.mk
          [EnumMember.mk "A" 5 (enum_constant "A" [integer_literal "5" ","]);
           EnumMember.mk "B" 6 (enum_constant "B" [])]
          "E" enum_from_five] ∧
  fill_enum_members 0 (enum_constant "A" [integer_literal "5" ","])
    enum_from_five [EnumDeclaration.mk [] "E" enum_from_five]
  = Ok [EnumDeclaration.mk
          [EnumMember.mk "A" 5 (enum_constant "A" [integer_literal "5" ","])]
          "E" enum_from_five] ∧
  fill_enum_members 0 (enum_constant "A" [binary_literals "2" "+" "3" ","])
    enum_evaluated [EnumDeclaration.mk [] "E" enum_evaluated]
  = Ok [EnumDeclaration.mk
          [EnumMember.mk "A" 5
             (enum_constant "A" [binary_literals "2" "+" "3" ","])]
          "E" enum_evaluated] ∧
  fill_enum_members 0 (enum_constant "B" [decl_ref "A" ","])
    enum_evaluated
    [EnumDeclaration.mk
       [EnumMember.mk "A" 5
          (enum_constant "A" [binary_literals "2" "+" "3" ","])]
       "E" enum_evaluated]
  = Ok [EnumDeclaration.mk
          [EnumMember.mk "A" 5
             (enum_constant "A" [binary_literals "2" "+" "3" ","]);
           EnumMember.mk "B" 5 (enum_constant "B" [decl_ref "A" ","])]
          "E" enum_evaluated] ∧
  fill_enum_members 0
    (enum_constant "A"
       [sample 112 0 "" ["-"; "1"; ","] [integer_literal "1" ","]])
    enum_ignored_initializers
    [EnumDeclaration.mk [] "E" enum_ignored_initializers]
  = Ok [EnumDeclaration.mk
          [EnumMember.mk "A" 0
             (enum_constant "A"
                [sample 112 0 "" ["-"; "1"; ","]
                   [integer_literal "1" ","]])]
          "E" enum_ignored_initializers].
Proof.
  destruct enum_member_values as (Hstep & _).
  repeat match goal with |- _ ∧ _ => split end.
  - destruct (Hstep 0%nat
                [EnumDeclaration.mk
                   [EnumMember.mk "A" 5
                      (enum_constant "A" [integer_literal "5" ","])]
                   "E" enum_from_five]
                _ (enum_constant "B" []) enum_from_five eq_refl eq_refl)
      as (_ & _ & _ & _ & Hdefault).
    destruct (Hdefault (List.Forall_nil _)) as [_ Hnext].
    refine (Hnext [] _ eq_refl _); vm_compute; split; congruence.
  - destruct (Hstep 0%nat [EnumDeclaration.mk [] "E" enum_from_five]
                _ (enum_constant "A" [integer_literal "5" ","])
                enum_from_five eq_refl eq_refl)
      as (_ & Hliteral & _).
    exact (Hliteral (integer_literal "5" ",") (tok "5") (tok ",") 5
             eq_refl eq_refl eq_refl eq_refl).
  - destruct (Hstep 0%nat [EnumDeclaration.mk [] "E" enum_evaluated]
                _ (enum_constant "A" [binary_literals "2" "+" "3" ","])
                enum_evaluated eq_refl eq_refl)
      as (_ & _ & _ & Hbinary & _).
    refine (Hbinary (binary_literals "2" "+" "3" ",") "+"%string 2 3 5
              eq_refl _ eq_refl).
    sample_binary_initializer.
  - destruct (Hstep 0%nat
                [EnumDeclaration.mk
                   [EnumMember.mk "A" 5
                      (enum_constant "A"
                         [binary_literals "2" "+" "3" ","])]
                   "E" enum_evaluated]
                _ (enum_constant "B" [decl_ref "A" ","])
                enum_evaluated eq_refl eq_refl)
      as (_ & _ & Hreference & _).
    refine (Hreference (decl_ref "A" ",") (tok "A") []
              (EnumMember.mk "A" 5
                 (enum_constant "A" [binary_literals "2" "+" "3" ","]))
              [] eq_refl eq_refl eq_refl eq_refl eq_refl eq_refl _).
    constructor.
  - destruct (Hstep 0%nat
                [EnumDeclaration.mk [] "E" enum_ignored_initializers]
                _ (enum_constant "A"
                     [sample 112 0 "" ["-"; "1"; ","]
                        [integer_literal "1" ","]])
                enum_ignored_initializers eq_refl eq_refl)
      as (_ & _ & _ & _ & Hdefault).
    destruct Hdefault as [Hfirst _]; [repeat constructor|].
    exact (Hfirst eq_refl).
Defined.

(** C2, as stated, fails for an explicit initializer of a kind the
    evaluator has no case for: in [enum E { A = -1, B = (2) }] the
    initializers are a unary operator and a parenthesized expression,
    which [fill_enum_value] passes over without descending into them.
    [A] is registered with 0 and [B] with 1, not with the values -1 and
    2 of their initializers.  It also fails after a member of value
    [INT_MAX]: in [enum E { A = 2147483647, B }] the member [B] is not
    registered with 2147483648, the [int] addition overflows. *)
Lemma explicit_initializer_not_evaluated :
  (∃ enums,
     register_enum "E" enum_ignored_initializers None []
       = Ok (enums, None) ∧
     member_values enums = [[("A", 0); ("B", 1)]]%string ∧
     member_values enums ≠ [[("A", -1); ("B", 2)]]%string) ∧
  register_enum "E" enum_from_int_max None []
    = Fail (Undefined "signed integer overflow").
Proof.
  split; [|vm_compute; reflexivity].
  eexists. split; [vm_compute; reflexivity|].
  split; [vm_compute; reflexivity|].
  vm_compute. discriminate.
Qed.

(** ** Registration under a name that is already there *)

Lemma find_other_found {D : Type} (name : D → string) (cur : D → CXCursor)
    (table : list D) (str : string) (cursor : CXCursor) (d : D) (k : nat) :
  d ∈ table → name d = str → cursor_same cursor (cur d) = false →
  ∃ n e, find_other name cur table str cursor k = Some (k + n)%nat ∧
         table !! n = Some e ∧ name e = str ∧
         cursor_same cursor (cur e) = false.
Proof.
  intros Hin Hname Hdiff. revert k.
  induction table as [|x table IH]; intros k.
  - now apply elem_of_nil in Hin.
  - simpl.
    destruct (streq (name x) str && negb (cursor_same cursor (cur x)))
      eqn:Hx.
    + apply andb_prop in Hx as [Hn Hc]. exists 0%nat, x.
      rewrite Nat.add_0_r. repeat split.
      * now apply String.eqb_eq.
      * now apply negb_true_iff.
    + apply elem_of_cons in Hin as [-> | Hin].
      * unfold streq in Hx.
        rewrite (proj2 (String.eqb_eq _ _) Hname), Hdiff in Hx.
        discriminate.
      * destruct (IH Hin (S k)) as (n & e & Hf & He & Hne & Hce).
        exists (S n), e. rewrite Hf. repeat split; try assumption.
        f_equal. lia.
Qed.

(** C5: registering a struct or an enum under a name for which the
    registry holds an entry with another node identity leaves the
    registry as it is: the same array comes back, so its size is
    unchanged and nothing is registered afresh, and the declaration
    [decl_ptr] points to, when there is one, is linked to an entry that
    is already there, of that name and of another identity.  This holds
    for every content of the registry. *)
Theorem reregistration_links_existing :
  (∀ structs str cursor decl_ptr d,
     d ∈ structs →
     StructDeclaration.name d = str →
     cursor_same cursor (StructDeclaration.cursor d) = false →
     ∃ n e,
       register_struct str cursor decl_ptr structs
         = Ok (structs,
               TypedefDeclaration.set_struct_decl (Some n) <$> decl_ptr) ∧
       structs !! n = Some e ∧
       StructDeclaration.name e = str ∧
       cursor_same cursor (StructDeclaration.cursor e) = false) ∧
  (∀ enums str cursor decl_ptr d,
     d ∈ enums →
     EnumDeclaration.name d = str →
     cursor_same cursor (EnumDeclaration.cursor d) = false →
     ∃ n e,
       register_enum str cursor decl_ptr enums
         = Ok (enums,
               TypedefDeclaration.set_enum_decl (Some n) <$> decl_ptr) ∧
       enums !! n = Some e ∧
       EnumDeclaration.name e = str ∧
       cursor_same cursor (EnumDeclaration.cursor e) = false).
Proof.
  split.
  - intros structs str cursor decl_ptr d Hin Hname Hdiff.
    destruct (find_other_found StructDeclaration.name StructDeclaration.cursor
                structs str cursor d 0 Hin Hname Hdiff)
      as (n & e & Hf & He & Hne & Hce).
    exists n, e. unfold register_struct. rewrite Hf. auto.
  - intros enums str cursor decl_ptr d Hin Hname Hdiff.
    destruct (find_other_found EnumDeclaration.name EnumDeclaration.cursor
                enums str cursor d 0 Hin Hname Hdiff)
      as (n & e & Hf & He & Hne & Hce).
    exists n, e. unfold register_enum. rewrite Hf. auto.
Qed.

Lemma reregistration_links_existing_witness :
  (∃ n e,
     register_struct "S" (sample CXCursor_StructDecl 2 "S" [] [])
                     (Some TypedefDeclaration.zeroed) sample_structs
       = Ok (sample_structs,
             TypedefDeclaration.set_struct_decl (Some n)
               <$> Some TypedefDeclaration.zeroed) ∧
     sample_structs !! n = Some e ∧
     StructDeclaration.name e = "S"%string ∧
     cursor_same (sample CXCursor_StructDecl 2 "S" [] [])
                 (StructDeclaration.cursor e) = false) ∧
  (∃ n e,
     register_enum "E" (enum_decl 2 "E" [enum_constant "A" []])
                   None sample_enum_registry
       = Ok (sample_enum_registry,
             TypedefDeclaration.set_enum_decl (Some n) <$> None) ∧
     sample_enum_registry !! n = Some e ∧
     EnumDeclaration.name e = "E"%string ∧
     cursor_same (enum_decl 2 "E" [enum_constant "A" []])
                 (EnumDeclaration.cursor e) = false).
Proof.
  destruct reregistration_links_existing as (Hs & He).
  split.
  - refine (Hs sample_structs "S"%string
              (sample CXCursor_StructDecl 2 "S" [] [])
              (Some TypedefDeclaration.zeroed)
              (StructDeclaration.mk [] "S"
                 (sample CXCursor_StructDecl 1 "S" [] []))
              _ eq_refl eq_refl).
    apply list_elem_of_here.
  - refine (He sample_enum_registry "E"%string
              (enum_decl 2 "E" [enum_constant "A" []]) None
              (EnumDeclaration.mk [] "E" (enum_decl 1 "E" []))
              _ eq_refl eq_refl).
    apply list_elem_of_here.
Defined.

(** ** Struct fields *)

(** What the helpers compute on a token array they still compute when
    more tokens follow it. *)
Lemma token_at_app_l pre rest i t :
  token_at pre i = Ok t → token_at (pre ++ rest) i = Ok t.
Proof.
  unfold token_at.
  destruct ((0 <=? i) && (i <? Z.of_nat (length pre))) eqn:Hr;
    [|discriminate].
  apply andb_prop in Hr as [H0 Hlt].
  apply Z.leb_le in H0. apply Z.ltb_lt in Hlt.
  destruct (pre !! Z.to_nat i) as [t'|] eqn:Hl; [|discriminate].
  intros [= <-].
  rewrite length_app, (lookup_app_l_Some _ _ _ _ Hl).
  destruct (Z.leb_spec 0 i); [|lia].
  destruct (Z.ltb_spec i (Z.of_nat (length pre + length rest))); [|lia].
  reflexivity.
Qed.

Lemma find_token_from_app_l pre rest str n k :
  find_token_from pre str n = Some k →
  find_token_from (pre ++ rest) str n = Some k.
Proof.
  revert n. induction pre as [|t pre IH]; intros n; simpl; [discriminate|].
  destruct (streq str (tok_spelling t)); [trivial|apply IH].
Qed.

Lemma find_token_index_app_l pre rest str k :
  find_token_index pre str = Ok k →
  find_token_index (pre ++ rest) str = Ok k.
Proof.
  unfold find_token_index.
  destruct (find_token_from pre str 0) as [n|] eqn:E; [|discriminate].
  intros [= <-]. now rewrite (find_token_from_app_l _ rest _ _ _ E).
Qed.

Lemma count_ptrs_app_l pre rest idx fuel :
  ∀ n k fuel', (fuel ≤ fuel')%nat →
    count_ptrs pre idx n fuel = Ok k →
    count_ptrs (pre ++ rest) idx n fuel' = Ok k.
Proof.
  induction fuel as [|fuel IH]; intros n k fuel' Hle.
  - simpl.
    destruct (token_at pre (to_unsigned (idx - 1 - n))) as [t|] eqn:Ht;
      simpl; [|discriminate].
    destruct (streq (tok_spelling t) "*") eqn:Hs; [discriminate|].
    intros [= <-].
    destruct fuel'; simpl; rewrite (token_at_app_l _ rest _ _ Ht); simpl;
      now rewrite Hs.
  - simpl.
    destruct (token_at pre (to_unsigned (idx - 1 - n))) as [t|] eqn:Ht;
      simpl; [|discriminate].
    destruct fuel' as [|fuel']; [lia|]. simpl.
    rewrite (token_at_app_l _ rest _ _ Ht). simpl.
    destruct (streq (tok_spelling t) "*"); [|trivial].
    apply IH. lia.
Qed.

Lemma concat_from_S tokens n count :
  concat_from tokens n (S count) =
    (t ← token_at tokens n;
     match count with
     | O => Ok (tok_spelling t)
     | S _ =>
         rest ← concat_from tokens (n + 1) count;
         Ok (tok_spelling t ++ " " ++ rest)%string
     end).
Proof. reflexivity. Qed.

Lemma concat_from_app_l pre rest count :
  ∀ n s, concat_from pre n count = Ok s →
         concat_from (pre ++ rest) n count = Ok s.
Proof.
  induction count as [|count IH]; intros n s; [trivial|].
  rewrite !concat_from_S.
  destruct (token_at pre n) as [t|] eqn:Ht; [|discriminate].
  rewrite (token_at_app_l _ rest _ _ Ht). unfold mbind, outcome_bind.
  destruct count as [|count']; [trivial|].
  destruct (concat_from pre (n + 1) (S count')) as [r|] eqn:Hr;
    [|discriminate].
  intros [= <-]. now rewrite (IH _ _ Hr).
Qed.

Lemma concat_name_app_l pre rest from to s :
  concat_name pre from to = Ok (Stored s) →
  concat_name (pre ++ rest) from to = Ok (Stored s).
Proof.
  unfold concat_name. destruct (to <? from); [discriminate|].
  destruct (concat_from pre from _) as [text|] eqn:E; [|discriminate].
  intros [= <-]. now rewrite (concat_from_app_l _ rest _ _ _ E).
Qed.

(** Evaluate the helpers of [fill_struct_members] on the known tokens
    [pre] of an array [pre ++ rest]. *)
Ltac on_known_tokens :=
  repeat match goal with
  | |- context [find_token_index (?pre ++ ?rest) ?str] =>
      let r := eval vm_compute in (find_token_index pre str) in
      match r with
      | Ok ?k => rewrite (find_token_index_app_l pre rest str k)
                   by (vm_compute; reflexivity)
      end
  | |- context [token_at (?pre ++ ?rest) ?i] =>
      let r := eval vm_compute in (token_at pre i) in
      match r with
      | Ok ?t => rewrite (token_at_app_l pre rest i t)
                   by (vm_compute; reflexivity)
      end
  | |- context [count_ptrs (?pre ++ ?rest) ?idx ?n ?fuel] =>
      let r := eval vm_compute in (count_ptrs pre idx n (length pre)) in
      match r with
      | Ok ?k => rewrite (count_ptrs_app_l pre rest idx (length pre) n k fuel)
                   by (try (rewrite length_app; lia); vm_compute; reflexivity)
      end
  | |- context [concat_name (?pre ++ ?rest) ?from ?to] =>
      let r := eval vm_compute in (concat_name pre from to) in
      match r with
      | Ok (Stored ?s) => rewrite (concat_name_app_l pre rest from to s)
                            by (vm_compute; reflexivity)
      end
  | |- context [Ok ?a ≫= ?k] => change (Ok a ≫= k) with (k a); cbv beta
  | |- context [streq ?a ?b] =>
      let r := eval vm_compute in (streq a b) in
      match r with
      | true => idtac
      | false => idtac
      end;
      change (streq a b) with r; cbv iota
  | |- context [atoi ?a] =>
      let r := eval vm_compute in (atoi a) in
      match r with
      | Ok ?v => change (atoi a) with (@Ok Z v)
      end
  end.

Ltac known_spellings pre H :=
  repeat (destruct pre as [|[? ? ?] pre]; simpl in H;
          [discriminate H|]; injection H as ? H; subst);
  destruct pre; simpl in H; [clear H|discriminate H].

(** C7: a field declared [int *p[4];], that is a [CXCursor_FieldDecl]
    named [p] whose tokens start with [int * p [ 4 ]], is registered
    with pointer depth 1, array extent 4 and base type text [int].  For
    [int a, b;], where the tokens of [a] start with [int a ,] and those
    of [b] with [int a , b ;], both members are registered with base
    type text [int]: the second takes the type text of the member
    before it. *)
Theorem struct_field_shapes :
  (∀ cursor parent decl pre rest,
     cursor_kind cursor = CXCursor_FieldDecl →
     cursor_spelling cursor = "p"%string →
     cursor_tokens cursor = pre ++ rest →
     tok_spelling <$> pre = ["int"; "*"; "p"; "["; "4"; "]"]%string →
     fill_struct_members cursor parent decl
       = Ok (with_field decl (StructMember.mk "int" "p" 1 4 cursor))) ∧
  (∀ a b parent decl pre_a rest_a pre_b rest_b,
     cursor_kind a = CXCursor_FieldDecl →
     cursor_spelling a = "a"%string →
     cursor_tokens a = pre_a ++ rest_a →
     tok_spelling <$> pre_a = ["int"; "a"; ","]%string →
     cursor_kind b = CXCursor_FieldDecl →
     cursor_spelling b = "b"%string →
     cursor_tokens b = pre_b ++ rest_b →
     tok_spelling <$> pre_b = ["int"; "a"; ","; "b"; ";"]%string →
     visit_list fill_struct_members parent [a; b] decl
       = Ok (with_field
               (with_field decl (StructMember.mk "int" "a" 0 0 a))
               (StructMember.mk "int" "b" 0 0 b))).
Proof.
  split.
  - intros cursor parent decl pre rest Hk Hs Ht Hpre.
    unfold fill_struct_members. rewrite Hk, Hs, Ht. simpl.
    known_spellings pre Hpre. on_known_tokens. reflexivity.
  - intros a b parent decl pre_a rest_a pre_b rest_b
      Hka Hsa Hta Hpa Hkb Hsb Htb Hpb.
    simpl. unfold fill_struct_members.
    rewrite Hka, Hsa, Hta, Hkb, Hsb, Htb. simpl.
    known_spellings pre_a Hpa. known_spellings pre_b Hpb. on_known_tokens.
    cbn [StructDeclaration.entries]. rewrite last_snoc. reflexivity.
Qed.

Lemma struct_field_shapes_witness :
  fill_struct_members field_p (struct_of [field_p])
    (StructDeclaration.mk [] "S" (struct_of [field_p]))
  = Ok (StructDeclaration.mk [StructMember.mk "int" "p" 1 4 field_p]
          "S" (struct_of [field_p])) ∧
  visit_list fill_struct_members (struct_of [field_a; field_b])
    [field_a; field_b]
    (StructDeclaration.mk [] "S" (struct_of [field_a; field_b]))
  = Ok (StructDeclaration.mk
          [StructMember.mk "int" "a" 0 0 field_a;
           StructMember.mk "int" "b" 0 0 field_b]
          "S" (struct_of [field_a; field_b])).
Proof.
  destruct struct_field_shapes as (Hp & Hab).
  split.
  - exact (Hp field_p (struct_of [field_p])
              (StructDeclaration.mk [] "S" (struct_of [field_p]))
              (tok <$> ["int"; "*"; "p"; "["; "4"; "]"]%string) [tok ";"]
              eq_refl eq_refl eq_refl eq_refl).
  - exact (Hab field_a field_b (struct_of [field_a; field_b])
              (StructDeclaration.mk [] "S" (struct_of [field_a; field_b]))
              (tok <$> ["int"; "a"; ","]%string) []
              (tok <$> ["int"; "a"; ","; "b"; ";"]%string) []
              eq_refl eq_refl eq_refl eq_refl
              eq_refl eq_refl eq_refl eq_refl).
Defined.

(** ** Typedef registration *)

(** What [register_typedef] does to the registry: one entry is appended,
    with exactly one of the three alternatives written, to a value that
    is not null; the other two are never written and keep what
    [realloc] returned. *)
Lemma register_typedef_writes_one name tokens decl cursor typedefs typedefs' :
  register_typedef name tokens decl cursor typedefs = Ok typedefs' →
  ∃ entry,
    typedefs' = typedefs ++ [entry] ∧
    ((is_set (TypedefDeclaration.struct_decl entry) ∧
      TypedefDeclaration.enum_decl entry = Indeterminate ∧
      TypedefDeclaration.proxy entry = Indeterminate) ∨
     (TypedefDeclaration.struct_decl entry = Indeterminate ∧
      is_set (TypedefDeclaration.enum_decl entry) ∧
      TypedefDeclaration.proxy entry = Indeterminate) ∨
     (TypedefDeclaration.struct_decl entry = Indeterminate ∧
      TypedefDeclaration.enum_decl entry = Indeterminate ∧
      is_set (TypedefDeclaration.proxy entry))).
Proof.
  unfold register_typedef.
  destruct (load (TypedefDeclaration.struct_decl decl)) as [[n|]|];
    simpl; [| |discriminate].
  - intros [= <-]. eexists. split; [reflexivity|].
    left. simpl. repeat split. now exists n.
  - destruct (load (TypedefDeclaration.enum_decl decl)) as [[n|]|];
      simpl; [| |discriminate].
    + intros [= <-]. eexists. split; [reflexivity|].
      right; left. simpl. repeat split. now exists n.
    + destruct (concat_name tokens 1 _) as [p|]; simpl; [|discriminate].
      intros [= <-]. eexists. split; [reflexivity|].
      right; right. simpl. repeat split. now exists p.
Qed.

(** C6 fails on [typedef int T;]: the registered entry has its proxy
    text set, but its struct and enum references are neither set nor
    unset: they are the uninitialised bytes of the [realloc]ed array.
    [cleanup] then reads the struct reference to decide what to free. *)
Theorem typedef_alternatives_uninitialised :
  ∃ entry,
    typedefs (final_state (main typedef_int_unit)) = [entry] ∧
    TypedefDeclaration.proxy entry = Stored (Some (Stored "int"%string)) ∧
    TypedefDeclaration.struct_decl entry = Indeterminate ∧
    TypedefDeclaration.enum_decl entry = Indeterminate ∧
    ¬ is_unset (TypedefDeclaration.struct_decl entry) ∧
    ¬ is_unset (TypedefDeclaration.enum_decl entry) ∧
    cleanup_typedefs [entry]
      = Fail (Undefined "read of an uninitialised object").
Proof.
  eexists. split; [vm_compute; reflexivity|].
  simpl. repeat split; try reflexivity; discriminate.
Qed.

(** ** Standard output *)

Lemma silent_ret {A : Type} (a : A) : silent (mret a : M A).
Proof. intros s. reflexivity. Qed.

Lemma silent_lift {A : Type} (o : outcome A) : silent (lift o).
Proof. intros s. now destruct o. Qed.

Lemma silent_bind {A B : Type} (m : M A) (k : A → M B) :
  silent m → (∀ a, silent (k a)) → silent (m ≫= k).
Proof.
  intros Hm Hk s. specialize (Hm s). unfold mbind, M_bind.
  destruct (m s) as [a s'|f s']; simpl in *; [|exact Hm].
  now rewrite (Hk a s').
Qed.

Lemma silent_on_structs {A : Type} f stopped :
  silent (@on_structs A f stopped).
Proof. intros s. unfold on_structs. now destruct (f _) as [[? ?]|]. Qed.

Lemma silent_on_enums {A : Type} f stopped :
  silent (@on_enums A f stopped).
Proof. intros s. unfold on_enums. now destruct (f _) as [[? ?]|]. Qed.

Lemma silent_on_typedefs f stopped : silent (on_typedefs f stopped).
Proof. intros s. unfold on_typedefs. now destruct (f _). Qed.

Lemma silent_cleanup : silent cleanup.
Proof. intros s. unfold cleanup. apply silent_lift. Qed.

Lemma silent_appends {A : Type} (m : M A) : silent m → appends m.
Proof. intros H s. exists ""%string. now rewrite string_app_nil_r. Qed.

Lemma appends_printf text : appends (printf text).
Proof. intros s. now exists text. Qed.

Lemma appends_bind {A B : Type} (m : M A) (k : A → M B) :
  appends m → (∀ a, appends (k a)) → appends (m ≫= k).
Proof.
  intros Hm Hk s. destruct (Hm s) as [out Hout]. unfold mbind, M_bind.
  destruct (m s) as [a s'|f s']; simpl in *; [|now exists out].
  destruct (Hk a s') as [out' Hout']. exists (out ++ out')%string.
  now rewrite Hout', Hout, string_app_assoc.
Qed.

Lemma visit_list_silent {D : Type}
    (visitor : CXCursor → CXCursor → D → M D) parent children :
  Forall (λ c, ∀ d, silent (visitor c parent d)) children →
  ∀ d, silent (visit_list visitor parent children d).
Proof.
  induction 1 as [|c children Hc _ IH]; intros d; simpl.
  - apply silent_ret.
  - apply silent_bind; [apply Hc|apply IH].
Qed.

Lemma visit_list_appends {D : Type}
    (visitor : CXCursor → CXCursor → D → M D) parent children :
  Forall (λ c, ∀ d, appends (visitor c parent d)) children →
  ∀ d, appends (visit_list visitor parent children d).
Proof.
  induction 1 as [|c children Hc _ IH]; intros d; simpl.
  - apply silent_appends, silent_ret.
  - apply appends_bind; [apply Hc|apply IH].
Qed.

Lemma print_token_lines_appends tokens : appends (print_token_lines tokens).
Proof.
  induction tokens as [|t tokens IH]; simpl.
  - apply silent_appends, silent_ret.
  - apply appends_bind; [apply appends_printf|intros _; exact IH].
Qed.

(** Whatever the tree, [callback] only appends to standard output. *)
Lemma callback_appends c :
  ∀ parent d, appends (callback c parent d).
Proof.
  induction c as [kind data str line col file tokens children IH]
    using CXCursor_tree_ind.
  intros parent d.
  assert (Hvisit : ∀ p d', appends (visit_list callback p children d')).
  { intros p d'. apply visit_list_appends.
    apply (Forall_impl _ _ _ IH). intros c Hc d''. apply Hc. }
  simpl.
  destruct (kind =? CXCursor_TypedefDecl).
  { apply appends_bind; [apply Hvisit|]. intros [decl|].
    - apply appends_bind; [apply silent_appends, silent_on_typedefs|].
      intros _. apply silent_appends, silent_ret.
    - apply silent_appends, silent_lift. }
  destruct (kind =? CXCursor_StructDecl).
  { apply silent_appends, silent_on_structs. }
  destruct (kind =? CXCursor_EnumDecl).
  { apply silent_appends, silent_on_enums. }
  destruct ((kind =? CXCursor_CompoundLiteralExpr)
            || (kind =? CXCursor_TypeRef)
            || (kind =? CXCursor_InitListExpr)
            || (kind =? CXCursor_UnexposedExpr)).
  { apply appends_bind; [apply Hvisit|].
    intros _. apply silent_appends, silent_ret. }
  destruct (kind =? CXCursor_MemberRef).
  { destruct (cursor_kind parent =? CXCursor_UnexposedExpr).
    - apply appends_bind; [apply appends_printf|].
      intros _. apply silent_appends, silent_ret.
    - apply silent_appends, silent_ret. }
  destruct ((kind =? CXCursor_IntegerLiteral)
            || (kind =? CXCursor_DeclRefExpr)).
  { destruct (cursor_kind parent =? CXCursor_UnexposedExpr).
    - apply silent_appends, silent_bind; [apply silent_lift|].
      intros _. apply silent_ret.
    - apply silent_appends, silent_ret. }
  apply appends_bind; [apply appends_printf|]. intros _.
  apply appends_bind; [apply print_token_lines_appends|]. intros _.
  apply appends_bind; [apply Hvisit|].
  intros _. apply silent_appends, silent_ret.
Qed.

(** On a quiet tree [callback] writes nothing. *)
Lemma callback_quiet c :
  ∀ parent d,
    quiet (cursor_kind parent) c = true → silent (callback c parent d).
Proof.
  induction c as [kind data str line col file tokens children IH]
    using CXCursor_tree_ind.
  intros parent d Hq.
  assert (Hvisit : forallb (quiet kind) children = true →
            ∀ d', silent (visit_list callback
                            (mkCursor kind data str line col file tokens
                                      children) children d')).
  { intros Hall d'. apply visit_list_silent.
    rewrite forallb_forall in Hall. rewrite List.Forall_forall in IH.
    apply List.Forall_forall. intros c Hin d''.
    apply (IH c Hin). simpl. now apply Hall. }
  simpl in Hq. simpl.
  destruct (kind =? CXCursor_TypedefDecl).
  { apply silent_bind; [now apply Hvisit|]. intros [decl|].
    - apply silent_bind; [apply silent_on_typedefs|].
      intros _. apply silent_ret.
    - apply silent_lift. }
  destruct (kind =? CXCursor_StructDecl); [apply silent_on_structs|].
  destruct (kind =? CXCursor_EnumDecl); [apply silent_on_enums|].
  simpl in Hq.
  destruct ((kind =? CXCursor_CompoundLiteralExpr)
            || (kind =? CXCursor_TypeRef)
            || (kind =? CXCursor_InitListExpr)
            || (kind =? CXCursor_UnexposedExpr)).
  { apply silent_bind; [now apply Hvisit|]. intros _. apply silent_ret. }
  destruct (kind =? CXCursor_MemberRef).
  { destruct (cursor_kind parent =? CXCursor_UnexposedExpr);
      [discriminate|apply silent_ret]. }
  rewrite Hq.
  destruct (cursor_kind parent =? CXCursor_UnexposedExpr).
  - apply silent_bind; [apply silent_lift|]. intros _. apply silent_ret.
  - apply silent_ret.
Qed.

Lemma with_output_nil s : with_output s "" = s.
Proof. destruct s. unfold with_output. simpl. now rewrite string_app_nil_r. Qed.

Lemma with_output_app s a b :
  with_output (with_output s a) b = with_output s (a ++ b).
Proof. unfold with_output. simpl. now rewrite string_app_assoc. Qed.

Lemma printf_with_output text s : printf text s = Done tt (with_output s text).
Proof. reflexivity. Qed.

(** What the printer writes, and whether it fails an assertion, depends
    on the tokens only. *)
Lemma print_tokens_from_uniform tokens :
  ∀ cpos lnum, ∃ out stop,
    ∀ s, print_tokens_from tokens cpos lnum s = printed s out stop.
Proof.
  induction tokens as [|tok tokens IH]; intros cpos lnum.
  - exists ""%string, None. intros s. simpl. now rewrite with_output_nil.
  - simpl.
    destruct (lnum <=? to_unsigned (tok_line tok - 1)) eqn:Hline.
    + match goal with
      | |- context [print_tokens_from tokens ?c ?l] =>
          destruct (IH c l) as (out & stop & Hrest)
      end.
      eexists. exists stop. intros s.
      unfold mbind, M_bind, lift, assert. simpl. rewrite Hrest.
      unfold printed, with_output. simpl.
      destruct stop; rewrite !string_app_assoc; reflexivity.
    + exists ""%string, (Some (Abort "line >= lnum")). intros s.
      unfold mbind, M_bind, lift, assert. simpl.
      now rewrite with_output_nil.
Qed.

Lemma print_tokens_uniform tokens :
  ∃ out stop,
    (∀ s, print_tokens tokens s = printed s out stop) ∧
    (stop = None → ∃ body, out = (body ++ NL)%string).
Proof.
  destruct (print_tokens_from_uniform tokens 0 0) as (out & stop & H).
  destruct stop as [f|].
  - exists out, (Some f). split; [|discriminate].
    intros s. unfold print_tokens, mbind, M_bind. now rewrite H.
  - exists (out ++ NL)%string, None. split; [|now exists out].
    intros s. unfold print_tokens, mbind, M_bind. rewrite H. simpl.
    now rewrite printf_with_output, with_output_app.
Qed.

Lemma print_tokens_rendered tokens s :
  stdout (final_state (print_tokens tokens s))
    = (stdout s ++ rendered tokens)%string.
Proof.
  destruct (print_tokens_uniform tokens) as (out & stop & H & _).
  unfold rendered. rewrite !H. now destruct stop.
Qed.

(** ** The printer *)

Lemma prefix_app (a b : string) : String.prefix a (a ++ b) = true.
Proof.
  induction a as [|c a IH]; simpl; [now destruct b|].
  destruct (ascii_dec c c); [exact IH|contradiction].
Qed.

Lemma printed_at_from_here out tok :
  String.prefix (tok_spelling tok) out = true →
  printed_at_from out (tok_line tok - 1, tok_col tok - 1) tok = true.
Proof.
  intros Hp. destruct out; simpl; simpl in Hp; rewrite Hp, !Z.eqb_refl;
    reflexivity.
Qed.

Lemma printed_at_from_complete tok post :
  ∀ pre pos,
    advance pre pos = (tok_line tok - 1, tok_col tok - 1) →
    printed_at_from (pre ++ tok_spelling tok ++ post) pos tok = true.
Proof.
  induction pre as [|c pre IH]; intros pos Hpos.
  - simpl in Hpos. subst pos.
    apply printed_at_from_here. exact (prefix_app _ _).
  - simpl. rewrite (IH _ Hpos). apply orb_true_r.
Qed.

Lemma printed_at_decide out tok :
  printed_at out tok → printed_at_from out (0, 0) tok = true.
Proof.
  intros (pre & post & -> & Hpos). now apply printed_at_from_complete.
Qed.

Lemma advance_app a b pos :
  advance (a ++ b) pos = advance b (advance a pos).
Proof.
  revert pos. induction a as [|c a IH]; intros pos; [reflexivity|].
  rewrite string_app_cons. simpl. apply IH.
Qed.

Lemma advance_newlines n line col :
  advance (replicate_string (S n) NL) (line, col)
    = (line + Z.of_nat (S n), 0).
Proof.
  revert line col. induction n as [|n IH]; intros line col.
  - reflexivity.
  - change (replicate_string (S (S n)) NL)
      with (NL ++ replicate_string (S n) NL)%string.
    rewrite advance_app. change (advance NL (line, col)) with (line + 1, 0).
    rewrite IH. f_equal. lia.
Qed.

Lemma advance_spaces n line col :
  advance (replicate_string n " ") (line, col) = (line, col + Z.of_nat n).
Proof.
  revert col. induction n as [|n IH]; intros col.
  - simpl. f_equal. lia.
  - change (replicate_string (S n) " ")
      with (" " ++ replicate_string n " ")%string.
    rewrite advance_app. change (advance " " (line, col)) with (line, col + 1).
    rewrite IH. f_equal. lia.
Qed.

Lemma advance_single_line s line col :
  single_line s = true → advance s (line, col) = (line, col + strlen s).
Proof.
  revert col. induction s as [|c s IH]; intros col Hs.
  - simpl. unfold strlen. simpl. f_equal. lia.
  - simpl in Hs. apply andb_prop in Hs as [Hc Hs].
    apply negb_true_iff in Hc. simpl. rewrite Hc. simpl.
    rewrite (IH _ Hs). unfold strlen. simpl String.length. f_equal. lia.
Qed.

Lemma printed_at_more out more tok :
  printed_at out tok → printed_at (out ++ more) tok.
Proof.
  intros (pre & post & -> & Hpos). exists pre, (post ++ more)%string.
  split; [|exact Hpos]. now rewrite !string_app_assoc.
Qed.

Lemma print_tokens_from_step tok rest cpos lnum s :
  let col := to_unsigned (tok_col tok - 1) in
  let line := to_unsigned (tok_line tok - 1) in
  let cpos' := if lnum <? line then 0 else cpos in
  let cpos'' := if cpos' <? col then col else cpos' in
  (lnum <=? line) = true →
  print_tokens_from (tok :: rest) cpos lnum s =
    print_tokens_from rest
      (to_unsigned (cpos'' + strlen (tok_spelling tok))) line
      (with_output
         (with_output
            (with_output s (replicate_string (Z.to_nat (line - lnum)) NL))
            (replicate_string (Z.to_nat (col - cpos')) " "))
         (tok_spelling tok)).
Proof.
  intros col line cpos' cpos'' Hline. simpl.
  unfold mbind, M_bind, lift, assert. fold col line. rewrite Hline.
  reflexivity.
Qed.

(** Where no token spans lines, the printer puts every token at the
    line and column of its location. *)
Lemma print_tokens_from_positions tokens :
  ∀ lnum cpos s,
    well_placed lnum cpos tokens →
    0 ≤ lnum → 0 ≤ cpos →
    advance (stdout s) (0, 0) = (lnum, cpos) →
    ∃ out,
      print_tokens_from tokens cpos lnum s = Done tt (with_output s out) ∧
      Forall (printed_at (stdout s ++ out)) tokens.
Proof.
  induction tokens as [|tok rest IH]; intros lnum cpos s Hwp Hl Hc Hpos.
  - exists ""%string. simpl. rewrite with_output_nil. split; [reflexivity|].
    constructor.
  - inversion Hwp as [|? ? ? ? Hline Hcol Hend Hsingle Hnext Hrest];
      subst.
    pose proof (Nat2Z.is_nonneg (String.length (tok_spelling tok))) as Hlen.
    fold (strlen (tok_spelling tok)) in Hlen.
    assert (Eline : to_unsigned (tok_line tok - 1) = tok_line tok - 1).
    { apply Z.mod_small. unfold UINT_MOD in *. lia. }
    assert (Ecol : to_unsigned (tok_col tok - 1) = tok_col tok - 1).
    { apply Z.mod_small. unfold UINT_MOD in *. lia. }
    rewrite print_tokens_from_step
      by (rewrite Eline; apply Z.leb_le; lia).
    rewrite Eline, Ecol.
    set (line := tok_line tok - 1) in *.
    set (col := tok_col tok - 1) in *.
    set (cpos' := if lnum <? line then 0 else cpos).
    assert (Hcpos' : 0 ≤ cpos' ≤ col).
    { unfold cpos'. destruct (Z.ltb_spec lnum line); lia. }
    replace (if cpos' <? col then col else cpos') with col
      by (destruct (Z.ltb_spec cpos' col); lia).
    assert (Eend : to_unsigned (col + strlen (tok_spelling tok))
                   = col + strlen (tok_spelling tok)).
    { apply Z.mod_small. unfold UINT_MOD in *. lia. }
    rewrite Eend.
    set (nl := replicate_string (Z.to_nat (line - lnum)) NL).
    set (sp := replicate_string (Z.to_nat (col - cpos')) " ").
    assert (Hnl : advance (stdout s ++ nl) (0, 0) = (line, cpos')).
    { rewrite advance_app, Hpos. unfold nl, cpos'.
      destruct (Z.ltb_spec lnum line) as [Hlt|Hge].
      - destruct (Z.to_nat (line - lnum)) as [|n] eqn:En; [lia|].
        rewrite advance_newlines. f_equal. lia.
      - replace (line - lnum) with 0 by lia. simpl. f_equal. lia. }
    assert (Hsp : advance ((stdout s ++ nl) ++ sp) (0, 0) = (line, col)).
    { rewrite advance_app, Hnl. unfold sp. rewrite advance_spaces.
      f_equal. lia. }
    destruct (IH line (col + strlen (tok_spelling tok))
                (with_output (with_output (with_output s nl) sp)
                             (tok_spelling tok)))
      as (out & Hrun & Hall); [assumption|lia|lia| |].
    { simpl. rewrite advance_app, Hsp.
      now apply advance_single_line. }
    exists (nl ++ sp ++ tok_spelling tok ++ out)%string.
    rewrite Hrun, !with_output_app. split; [reflexivity|].
    simpl in Hall.
    replace (stdout s ++ nl ++ sp ++ tok_spelling tok ++ out)%string
      with ((((stdout s ++ nl) ++ sp) ++ tok_spelling tok) ++ out)%string
      by now rewrite !string_app_assoc.
    constructor; [|exact Hall].
    exists ((stdout s ++ nl) ++ sp)%string, out.
    split; [now rewrite !string_app_assoc|exact Hsp].
Qed.

Lemma print_tokens_positions tokens :
  well_placed 0 0 tokens →
  ∃ s body,
    print_tokens tokens initial_state = Done tt s ∧
    stdout s = (body ++ NL)%string ∧
    Forall (printed_at (stdout s)) tokens.
Proof.
  intros Hwp.
  destruct (print_tokens_from_positions tokens 0 0 initial_state Hwp)
    as (out & Hrun & Hall); [lia|lia|reflexivity|].
  exists (with_output (with_output initial_state out) NL), out.
  split; [|split].
  - unfold print_tokens, mbind, M_bind. now rewrite Hrun.
  - reflexivity.
  - apply (Forall_impl _ _ _ Hall). intros tok Htok.
    simpl. now apply printed_at_more.
Qed.

(** C8 fails on a token that spans two lines, such as a comment: the
    printer counts lines from the locations only, so after the comment
    of lines 1 and 2 it adds two line breaks to reach line 3, and [int]
    comes out on the fourth line of the output instead of the third.
    The locations are nondecreasing and no two tokens share a line
    before [int]. *)
Theorem multi_line_token_shifts_lines :
  ∃ s,
    print_tokens comment_tokens initial_state = Done tt s ∧
    stdout s = ("/* a" ++ NL ++ "   b */" ++ NL ++ NL ++ "int x;" ++ NL)%string ∧
    advance ("/* a" ++ NL ++ "   b */" ++ NL ++ NL) (0, 0) = (3, 0) ∧
    ¬ printed_at (stdout s) (mkToken "int" 3 1).
Proof.
  eexists. split; [vm_compute; reflexivity|].
  split; [reflexivity|]. split; [reflexivity|].
  intros H. apply printed_at_decide in H.
  vm_compute in H. discriminate H.
Qed.

(** ** The rewrite *)

(** C1 fails on a block with a compound literal followed by another
    statement: nothing is hoisted.  After the debug trace of the
    traversal the program prints the tokens of the file as they are; the
    statement [p = 0;] that follows the literal stays in the original
    block and no nested scope is opened. *)
Theorem literal_not_hoisted :
  ∃ s,
    main hoist_unit = Done tt s ∧
    stdout s =
      (stdout (final_state
                 (clang_visitChildren hoist_unit callback None
                                      initial_state))
       ++ "void f(int *p) { p = (int[2]){1, 2}; p = 0; }" ++ NL)%string.
Proof.
  eexists. split; vm_compute; reflexivity.
Qed.

(** ** Debug output and token stream *)

(** C9, as stated, fails on the source [int x;]: before the token stream
    the run writes a "DERP:" line and a line per token for the variable
    declaration, a kind of cursor [callback] has no case for. *)
Lemma debug_trace_on_standard_output :
  ∃ s,
    main int_x_unit = Done tt s ∧
    rendered (cursor_tokens int_x_unit) = ("int x;" ++ NL)%string ∧
    stdout s =
      ("DERP: 9 [300] x @ 1:5 in a.c" ++ NL
       ++ "token = 'int' @ 1:1" ++ NL
       ++ "token = 'x' @ 1:5" ++ NL
       ++ "token = ';' @ 1:6" ++ NL
       ++ "int x;" ++ NL)%string ∧
    stdout s ≠ rendered (cursor_tokens int_x_unit).
Proof.
  eexists. split; [vm_compute; reflexivity|].
  split; [vm_compute; reflexivity|].
  split; [vm_compute; reflexivity|].
  vm_compute. discriminate.
Qed.

Lemma unhandled_kind kind :
  unhandled kind = true →
  (kind =? CXCursor_TypedefDecl) = false ∧
  (kind =? CXCursor_StructDecl) = false ∧
  (kind =? CXCursor_EnumDecl) = false ∧
  ((kind =? CXCursor_CompoundLiteralExpr) || (kind =? CXCursor_TypeRef)
   || (kind =? CXCursor_InitListExpr) || (kind =? CXCursor_UnexposedExpr))
    = false ∧
  (kind =? CXCursor_MemberRef) = false ∧
  ((kind =? CXCursor_IntegerLiteral) || (kind =? CXCursor_DeclRefExpr))
    = false.
Proof.
  unfold unhandled. simpl. intros H. apply negb_true_iff in H.
  repeat (apply orb_false_elim in H; destruct H as [? H]).
  repeat split; try assumption;
    repeat (apply orb_false_intro; try assumption).
Qed.

Lemma print_token_lines_output tokens :
  ∀ s, print_token_lines tokens s
       = Done tt (with_output s (token_lines tokens)).
Proof.
  induction tokens as [|t tokens IH]; intros s; simpl.
  - now rewrite with_output_nil.
  - unfold mbind at 1, M_bind at 1. rewrite printf_with_output, IH.
    now rewrite with_output_app.
Qed.

Lemma final_state_bind_ret {A B : Type} (m : M A) (b : B) s :
  final_state ((m ≫= λ _, mret b) s) = final_state (m s).
Proof. unfold mbind, M_bind. now destruct (m s). Qed.

(** C9 (as amended): over a run that reaches the end of the printer,
    standard output is what the debug statements of [callback] wrote
    during the traversal, followed by the token stream rendered once,
    which ends with a newline; [cleanup] adds nothing.  When the
    traversal meets quiet cursors only, the token stream is all there
    is.  On a cursor of a kind [callback] has no case for, [callback]
    writes a "DERP:" line, then one "token =" line for each token of
    the cursor, and then goes on as the traversal of the children of
    the cursor does from there: what it writes is these lines followed
    by what that traversal writes. *)
Theorem standard_output_trace_then_tokens :
  (∀ tu s,
     translate tu initial_state = Done tt s →
     ∃ d s1 body,
       clang_visitChildren tu callback None initial_state = Done d s1 ∧
       stdout s = (stdout s1 ++ rendered (cursor_tokens tu))%string ∧
       rendered (cursor_tokens tu) = (body ++ NL)%string ∧
       stdout (final_state (main tu)) = stdout s ∧
       (forallb (quiet (cursor_kind tu)) (cursor_children tu) = true →
        stdout s = rendered (cursor_tokens tu))) ∧
  (∀ c parent d s,
     unhandled (cursor_kind c) = true →
     let trace :=
       (derp_line c parent ++ token_lines (cursor_tokens c))%string in
     final_state (callback c parent d s)
       = final_state (visit_list callback c (cursor_children c) None
                                 (with_output s trace)) ∧
     ∃ rest,
       stdout (final_state (callback c parent d s))
         = (stdout s ++ trace ++ rest)%string).
Proof.
  split.
  - intros tu s Hrun.
    assert (Hmain : stdout (final_state (main tu)) = stdout s).
    { unfold main. rewrite (bind_Done _ _ _ _ _ Hrun).
      apply silent_cleanup. }
    unfold translate, mbind, M_bind in Hrun.
    destruct (clang_visitChildren tu callback None initial_state)
      as [d s1|f s1] eqn:Hvisit; [|discriminate].
    destruct (print_tokens_uniform (cursor_tokens tu))
      as (out & stop & Hprint & Hnl).
    assert (Hout : rendered (cursor_tokens tu) = out).
    { unfold rendered. rewrite Hprint. now destruct stop. }
    rewrite Hprint in Hrun. destruct stop as [f|]; [discriminate|].
    injection Hrun as <-. destruct (Hnl eq_refl) as [body Hbody].
    exists d, s1, body. rewrite Hout.
    repeat split; try assumption; try reflexivity.
    intros Hquiet.
    assert (Hsilent : stdout s1 = ""%string).
    { change s1 with (final_state (Done d s1)). rewrite <- Hvisit.
      unfold clang_visitChildren. apply visit_list_silent.
      rewrite forallb_forall in Hquiet. apply List.Forall_forall.
      intros c Hin d'. apply callback_quiet. now apply Hquiet. }
    simpl. now rewrite Hsilent.
  - intros c parent d s Hun trace.
    assert (Hrun : final_state (callback c parent d s)
                   = final_state (visit_list callback c (cursor_children c)
                                             None (with_output s trace))).
    { subst trace.
      destruct c as [kind data str line col file tokens children].
      simpl in Hun.
      destruct (unhandled_kind kind Hun) as (H1 & H2 & H3 & H4 & H5 & H6).
      cbn [callback]. rewrite H1, H2, H3, H4, H5, H6.
      unfold mbind at 1, M_bind at 1. rewrite printf_with_output.
      unfold mbind at 1, M_bind at 1. rewrite print_token_lines_output.
      rewrite final_state_bind_ret, with_output_app. reflexivity. }
    split; [exact Hrun|].
    assert (Hvisit : appends (visit_list callback c (cursor_children c)
                                         None)).
    { apply visit_list_appends, List.Forall_forall.
      intros x _ d'. apply callback_appends. }
    destruct (Hvisit (with_output s trace)) as [rest Hrest].
    exists rest. rewrite Hrun, Hrest. simpl.
    now rewrite string_app_assoc.
Qed.

Lemma standard_output_trace_then_tokens_witness :
  stdout (final_state (main enum_only_unit))
    = rendered (cursor_tokens enum_only_unit) ∧
  ∃ rest,
    stdout (final_state
              (callback (mkCursor 9 1 "x" 1 5 "a.c" int_x_tokens [])
                        int_x_unit None initial_state))
      = ("" ++ ("DERP: 9 [300] x @ 1:5 in a.c" ++ NL
                ++ "token = 'int' @ 1:1" ++ NL
                ++ "token = 'x' @ 1:5" ++ NL
                ++ "token = ';' @ 1:6" ++ NL) ++ rest)%string.
Proof.
  destruct standard_output_trace_then_tokens as (Hrun & Hderp).
  split.
  - destruct (Hrun enum_only_unit
                (final_state (translate enum_only_unit initial_state)))
      as (d & s1 & body & _ & _ & _ & Hmain & Hquiet);
      [vm_compute; reflexivity|].
    rewrite Hmain. apply Hquiet. reflexivity.
  - exact (proj2 (Hderp (mkCursor 9 1 "x" 1 5 "a.c" int_x_tokens [])
                    int_x_unit None initial_state eq_refl)).
Defined.

(** * Further properties *)

(** ** Token helpers *)

Lemma find_token_from_found tokens str :
  ∀ n k,
    find_token_from tokens str n = Some k →
    ∃ i t, k = n + Z.of_nat i ∧ tokens !! i = Some t ∧
           tok_spelling t = str ∧
           Forall (λ t', tok_spelling t' ≠ str) (take i tokens).
Proof.
  induction tokens as [|t tokens IH]; intros n k; simpl; [discriminate|].
  unfold streq. destruct (String.eqb_spec str (tok_spelling t)) as [E|E].
  - intros [= <-]. exists 0%nat, t. repeat split; [lia|easy|constructor].
  - intros H. destruct (IH _ _ H) as (i & t' & -> & Hi & Ht & Hall).
    exists (S i), t'. repeat split; [lia|assumption..|].
    simpl. constructor; [congruence|assumption].
Qed.

Lemma find_token_from_missing tokens str :
  ∀ n, find_token_from tokens str n = None →
       Forall (λ t, tok_spelling t ≠ str) tokens.
Proof.
  induction tokens as [|t tokens IH]; intros n; simpl; [constructor|].
  unfold streq. destruct (String.eqb_spec str (tok_spelling t)) as [E|E];
    [discriminate|].
  intros H. constructor; [congruence|now apply (IH (n + 1))].
Qed.

(** X1: [find_token_index] answers with the index of the first token
    spelled [str], an index inside the array; when no token is spelled
    [str] it stops the run with "Could not find token <str> in set". *)
Theorem find_token_index_first tokens str :
  match find_token_index tokens str with
  | Ok n =>
      ∃ i t, n = Z.of_nat i ∧ tokens !! i = Some t ∧
             tok_spelling t = str ∧
             Forall (λ t', tok_spelling t' ≠ str) (take i tokens)
  | Fail f =>
      f = Exit 1 ("Could not find token " ++ str ++ " in set" ++ NL) ∧
      Forall (λ t, tok_spelling t ≠ str) tokens
  end.
Proof.
  unfold find_token_index.
  destruct (find_token_from tokens str 0) as [k|] eqn:E.
  - destruct (find_token_from_found _ _ _ _ E) as (i & t & -> & H).
    now exists i, t.
  - split; [reflexivity|]. now apply (find_token_from_missing _ _ 0).
Qed.

Lemma concat_from_join tokens count :
  ∀ n, (n + count ≤ length tokens)%nat →
    concat_from tokens (Z.of_nat n) count
      = Ok (String.concat " " (tok_spelling <$> take count (drop n tokens))).
Proof.
  induction count as [|count IH]; intros n Hlen; [reflexivity|].
  rewrite concat_from_S.
  destruct (drop n tokens) as [|t after] eqn:Hdrop.
  { apply (f_equal length) in Hdrop. rewrite length_drop in Hdrop.
    simpl in Hdrop. lia. }
  assert (Ht : tokens !! n = Some t).
  { rewrite <- (Nat.add_0_r n), <- lookup_drop, Hdrop. reflexivity. }
  assert (Hafter : drop (S n) tokens = after).
  { rewrite (drop_S _ _ _ Ht) in Hdrop. now injection Hdrop. }
  rewrite (token_at_lookup _ _ _ Ht). unfold mbind at 1, outcome_bind at 1.
  destruct count as [|count'].
  - reflexivity.
  - replace (Z.of_nat n + 1) with (Z.of_nat (S n)) by lia.
    rewrite IH by lia. rewrite Hafter. simpl.
    destruct after as [|t' after']; [|reflexivity].
    apply (f_equal length) in Hafter. rewrite length_drop in Hafter.
    simpl in Hafter. lia.
Qed.

Lemma token_at_outside tokens i :
  n_tokens tokens ≤ i →
  token_at tokens i = Fail (Undefined "token index out of range").
Proof.
  intros H. unfold token_at, n_tokens in *.
  destruct (Z.ltb_spec i (Z.of_nat (length tokens))); [lia|].
  now rewrite andb_false_r.
Qed.

Lemma concat_name_range tokens from to :
  from ≤ to →
  concat_name tokens from to
    = (text ← concat_from tokens from (Z.to_nat (to - from + 1));
       Ok (Stored text)).
Proof.
  intros H. unfold concat_name.
  destruct (Z.ltb_spec to from); [lia|reflexivity].
Qed.

(** X2: for a range that lies inside the token array, [concat_name]
    gives the spellings of the tokens [from] to [to] separated by single
    spaces, with no space at either end.  For a range that starts inside
    the array and ends past it, the copy loop reads past the array. *)
Theorem concat_name_joins tokens from to :
  (0 ≤ from ≤ to → to < n_tokens tokens →
   concat_name tokens from to
     = Ok (Stored (String.concat " " (spellings_between tokens from to)))) ∧
  (0 ≤ from ≤ to → n_tokens tokens ≤ to →
   ∃ what, concat_name tokens from to = Fail (Undefined what)).
Proof.
  unfold n_tokens. split.
  - intros Hrange Hto. rewrite concat_name_range by lia.
    unfold spellings_between.
    rewrite <- (Z2Nat.id from) at 1 by lia.
    rewrite concat_from_join by lia. reflexivity.
  - intros Hrange Hto. rewrite concat_name_range by lia.
    assert (Hfail : ∃ what,
              concat_from tokens from (Z.to_nat (to - from + 1))
                = Fail (Undefined what)).
    2:{ destruct Hfail as [what ->]. now exists what. }
    assert (Hcount : (length tokens - Z.to_nat from
                      < Z.to_nat (to - from + 1))%nat) by lia.
    revert Hcount. generalize (Z.to_nat (to - from + 1)) as count.
    destruct Hrange as [Hfrom _]. revert from Hfrom.
    intros from Hfrom count. revert from Hfrom.
    induction count as [|count IH]; intros from Hfrom Hcount; [lia|].
    rewrite concat_from_S.
    destruct (Z.le_gt_cases (n_tokens tokens) from) as [Hout|Hin].
    + rewrite (token_at_outside _ _ Hout). now eexists.
    + unfold n_tokens in Hin.
      destruct (tokens !! Z.to_nat from) as [t|] eqn:Ht.
      2:{ apply lookup_ge_None in Ht. lia. }
      pose proof (token_at_lookup _ _ _ Ht) as Hat.
      rewrite Z2Nat.id in Hat by lia. rewrite Hat.
      unfold mbind at 1, outcome_bind at 1.
      destruct count as [|count']; [lia|].
      destruct (IH (from + 1)) as [what Hwhat]; [lia|lia|].
      rewrite Hwhat. now eexists.
Qed.

Lemma concat_name_joins_witness :
  concat_name typedef_int_tokens 1 2 = Ok (Stored "int T"%string) ∧
  ∃ what, concat_name typedef_int_tokens 1 4 = Fail (Undefined what).
Proof.
  split.
  - destruct (concat_name_joins typedef_int_tokens 1 2) as (H & _).
    apply H; [lia|reflexivity].
  - destruct (concat_name_joins typedef_int_tokens 1 4) as (_ & H).
    apply H; [lia|vm_compute; discriminate].
Defined.

Lemma find_token_from_at pre t post str :
  Forall (λ t', tok_spelling t' ≠ str) pre →
  tok_spelling t = str →
  ∀ n, find_token_from (pre ++ t :: post) str n
       = Some (n + Z.of_nat (length pre)).
Proof.
  intros Hpre Ht. induction Hpre as [|x pre Hx _ IH]; intros n; simpl.
  - unfold streq. rewrite (proj2 (String.eqb_eq _ _) (eq_sym Ht)).
    f_equal. lia.
  - unfold streq.
    rewrite (proj2 (String.eqb_neq _ _) (λ E, Hx (eq_sym E))).
    rewrite IH. f_equal. lia.
Qed.

Lemma to_unsigned_small z : 0 ≤ z < UINT_MOD → to_unsigned z = z.
Proof. apply Z.mod_small. Qed.

Lemma token_at_middle pre t post :
  token_at (pre ++ t :: post) (Z.of_nat (length pre)) = Ok t.
Proof. apply token_at_lookup. now apply list_lookup_middle. Qed.

(** The pointer loop counts the [*] tokens between the last token of the
    base type and the name. *)
Lemma count_ptrs_stars base' b stars after :
  tok_spelling b ≠ "*"%string →
  Forall (λ t, tok_spelling t = "*"%string) stars →
  Z.of_nat (length (base' ++ [b] ++ stars)) < UINT_MOD →
  ∀ k fuel, (k ≤ length stars)%nat → (k ≤ fuel)%nat →
    count_ptrs ((base' ++ [b]) ++ stars ++ after)
               (Z.of_nat (length ((base' ++ [b]) ++ stars)))
               (Z.of_nat (length stars - k)) fuel
      = Ok (Z.of_nat (length stars)).
Proof.
  intros Hb Hstars Hsmall.
  rewrite !length_app in Hsmall. simpl in Hsmall.
  induction k as [|k IH]; intros fuel Hk Hfuel.
  - replace (length stars - 0)%nat with (length stars) by lia.
    assert (E : to_unsigned (Z.of_nat (length ((base' ++ [b]) ++ stars))
                             - 1 - Z.of_nat (length stars))
                = Z.of_nat (length base')).
    { rewrite !length_app. simpl. rewrite to_unsigned_small; lia. }
    assert (Hat : token_at ((base' ++ [b]) ++ stars ++ after)
                           (Z.of_nat (length base')) = Ok b).
    { apply token_at_lookup. rewrite <- app_assoc.
      now apply list_lookup_middle. }
    destruct fuel; simpl; rewrite E, Hat; simpl; unfold streq;
      now rewrite (proj2 (String.eqb_neq _ _) Hb).
  - destruct fuel as [|fuel]; [lia|].
    assert (E : to_unsigned (Z.of_nat (length ((base' ++ [b]) ++ stars))
                             - 1 - Z.of_nat (length stars - S k))
                = Z.of_nat (length (base' ++ [b]) + k)).
    { rewrite !length_app. simpl. rewrite to_unsigned_small; lia. }
    destruct (stars !! k) as [t|] eqn:Ht.
    2:{ apply lookup_ge_None in Ht. lia. }
    assert (Hat : ((base' ++ [b]) ++ stars ++ after)
                    !! (length (base' ++ [b]) + k)%nat = Some t).
    { rewrite lookup_app_r by lia.
      replace (length (base' ++ [b]) + k - length (base' ++ [b]))%nat
        with k by lia.
      now apply lookup_app_l_Some. }
    simpl. rewrite E, (token_at_lookup _ _ _ Hat). simpl.
    rewrite List.Forall_forall in Hstars.
    rewrite (Hstars t) by (apply list_elem_of_In, list_elem_of_lookup; eauto).
    simpl.
    replace (Z.of_nat (length stars - S k) + 1)
      with (Z.of_nat (length stars - k)) by lia.
    apply IH; lia.
Qed.

(** X3: the shape [fill_struct_members] extracts from the tokens of a
    field.  When the name of the field first occurs after the tokens
    [base] of the type and a run [stars] of [*] tokens, and a token
    follows it, the member is registered with the number of those [*]
    tokens as pointer depth, the number after a following [[] as array
    extent (0 without one), and as base type the tokens of [base]
    joined by spaces, or the type of the member before it when [base]
    ends with a comma. *)
Theorem field_shape cursor parent decl base' b stars name_tok next rest
    type array_size :
  cursor_kind cursor = CXCursor_FieldDecl →
  cursor_tokens cursor
    = (base' ++ [b]) ++ stars ++ name_tok :: next :: rest →
  tok_spelling name_tok = cursor_spelling cursor →
  Forall (λ t, tok_spelling t ≠ cursor_spelling cursor)
         ((base' ++ [b]) ++ stars) →
  tok_spelling b ≠ "*"%string →
  Forall (λ t, tok_spelling t = "*"%string) stars →
  n_tokens (cursor_tokens cursor) < UINT_MOD →
  array_extent_of next rest array_size →
  base_type_of (base' ++ [b]) b decl type →
  fill_struct_members cursor parent decl
    = Ok (with_field decl
            (StructMember.mk type (cursor_spelling cursor)
                             (Z.of_nat (length stars)) array_size cursor)).
Proof.
  intros Hk Htok Hname Hfirst Hb Hstars Hsmall Harray Htype.
  unfold fill_struct_members. rewrite Hk, Htok. simpl.
  rewrite Htok in Hsmall. unfold n_tokens in Hsmall.
  set (pre := (base' ++ [b]) ++ stars) in *.
  set (str := cursor_spelling cursor) in *.
  assert (Etok : (base' ++ [b]) ++ stars ++ name_tok :: next :: rest
                 = pre ++ name_tok :: next :: rest)
    by (unfold pre; now rewrite (app_assoc (base' ++ [b]) stars)).
  rewrite Etok in Hsmall. rewrite length_app in Hsmall. simpl in Hsmall.
  assert (Hpre : length pre = (length base' + 1 + length stars)%nat)
    by (unfold pre; rewrite !length_app; simpl; lia).
  (* the name *)
  assert (Hidx : find_token_index
                   ((base' ++ [b]) ++ stars ++ name_tok :: next :: rest) str
                 = Ok (Z.of_nat (length pre))).
  { rewrite Etok. unfold find_token_index.
    now rewrite (find_token_from_at _ _ _ _ Hfirst Hname). }
  rewrite Hidx. unfold mbind at 1, outcome_bind at 1.
  (* the token after the name *)
  assert (Hnext : token_at
                    ((base' ++ [b]) ++ stars ++ name_tok :: next :: rest)
                    (to_unsigned (Z.of_nat (length pre) + 1)) = Ok next).
  { rewrite Etok, to_unsigned_small by lia.
    replace (Z.of_nat (length pre) + 1)
      with (Z.of_nat (length (pre ++ [name_tok])))
      by (rewrite length_app; simpl; lia).
    replace (pre ++ name_tok :: next :: rest)
      with ((pre ++ [name_tok]) ++ next :: rest)
      by now rewrite <- app_assoc.
    apply token_at_middle. }
  rewrite Hnext. unfold mbind at 1, outcome_bind at 1.
  (* the array extent *)
  assert (Harr :
    (if streq (tok_spelling next) "["
     then size ← token_at
                   ((base' ++ [b]) ++ stars ++ name_tok :: next :: rest)
                   (to_unsigned (Z.of_nat (length pre) + 2));
          v ← atoi (tok_spelling size); Ok (to_unsigned v)
     else Ok 0) = Ok array_size).
  { destruct Harray as [[Hn ->]|[Hn (size & rest' & v & -> & Hv & ->)]].
    - unfold streq. now rewrite (proj2 (String.eqb_neq _ _) Hn).
    - rewrite Hn. simpl.
      rewrite Etok, to_unsigned_small by (simpl in Hsmall; lia).
      replace (Z.of_nat (length pre) + 2)
        with (Z.of_nat (length (pre ++ [name_tok; next])))
        by (rewrite length_app; simpl; lia).
      replace (pre ++ name_tok :: next :: size :: rest')
        with ((pre ++ [name_tok; next]) ++ size :: rest')
        by now rewrite <- app_assoc.
      rewrite token_at_middle. simpl. now rewrite Hv. }
  rewrite Harr. unfold mbind at 1, outcome_bind at 1.
  (* the pointer depth *)
  assert (Hcount : count_ptrs
                     ((base' ++ [b]) ++ stars ++ name_tok :: next :: rest)
                     (Z.of_nat (length pre)) 0
                     (length ((base' ++ [b]) ++ stars
                              ++ name_tok :: next :: rest))
                   = Ok (Z.of_nat (length stars))).
  { replace 0 with (Z.of_nat (length stars - length stars)) by lia.
    apply count_ptrs_stars; try assumption.
    - rewrite !length_app. simpl. lia.
    - lia.
    - rewrite !length_app. lia. }
  rewrite Hcount. unfold mbind at 1, outcome_bind at 1.
  (* the token before the stars *)
  assert (Eim1 : to_unsigned (Z.of_nat (length pre) - 1
                              - Z.of_nat (length stars))
                 = Z.of_nat (length base')).
  { rewrite to_unsigned_small; lia. }
  rewrite Eim1.
  assert (Hbefore : token_at
                      ((base' ++ [b]) ++ stars ++ name_tok :: next :: rest)
                      (Z.of_nat (length base')) = Ok b).
  { apply token_at_lookup. rewrite <- app_assoc.
    now apply list_lookup_middle. }
  rewrite Hbefore. unfold mbind at 1, outcome_bind at 1.
  (* the base type *)
  destruct Htype as [[Hc ->]|[Hc (prev & Hprev & Hptype)]].
  - unfold streq. rewrite (proj2 (String.eqb_neq _ _) Hc).
    rewrite concat_name_range by lia.
    replace (Z.to_nat (Z.of_nat (length base') - 0 + 1))
      with (length (base' ++ [b]))
      by (rewrite length_app; simpl; lia).
    rewrite (concat_from_join _ _ 0)
      by (rewrite !length_app; simpl; lia).
    rewrite drop_0, take_app_length. reflexivity.
  - rewrite Hc, Hprev, Hptype. reflexivity.
Qed.

Lemma field_shape_witness :
  fill_struct_members field_q (struct_of [field_q])
    (StructDeclaration.mk [] "S" (struct_of [field_q]))
  = Ok (StructDeclaration.mk
          [StructMember.mk "unsigned int" "q" 2 0 field_q]
          "S" (struct_of [field_q])).
Proof.
  apply (field_shape field_q (struct_of [field_q])
           (StructDeclaration.mk [] "S" (struct_of [field_q]))
           [tok "unsigned"] (tok "int") [tok "*"; tok "*"] (tok "q")
           (tok ";") [] "unsigned int" 0).
  - reflexivity.
  - reflexivity.
  - reflexivity.
  - repeat constructor; discriminate.
  - discriminate.
  - repeat constructor.
  - reflexivity.
  - left. split; [discriminate|reflexivity].
  - left. split; [discriminate|reflexivity].
Defined.

(** ** Registration under a new name *)

(** Take a successful bind apart. *)
Ltac bind_inv H :=
  match type of H with
  | (?m ≫= _) = Ok _ =>
      let E := fresh "E" in
      destruct m eqn:E; simpl in H; [|discriminate H]
  end.

Lemma fill_struct_members_step c parent d d' :
  fill_struct_members c parent d = Ok d' →
  (cursor_kind c = CXCursor_FieldDecl ∧
   ∃ m, d' = with_field d m ∧
        StructMember.name m = cursor_spelling c ∧
        StructMember.cursor m = c) ∨
  (cursor_kind c ≠ CXCursor_FieldDecl ∧ d' = d).
Proof.
  unfold fill_struct_members.
  destruct (Z.eqb_spec (cursor_kind c) CXCursor_FieldDecl) as [Hk|Hk].
  - intros H. left. split; [assumption|].
    do 6 bind_inv H. injection H as <-. eexists. now split.
  - intros [= <-]. now right.
Qed.

Lemma visit_fields_names parent children :
  ∀ d d',
    visit_list fill_struct_members parent children d = Ok d' →
    StructMember.name <$> StructDeclaration.entries d'
      = (StructMember.name <$> StructDeclaration.entries d)
        ++ spellings_of_kind CXCursor_FieldDecl children ∧
    StructDeclaration.name d' = StructDeclaration.name d ∧
    StructDeclaration.cursor d' = StructDeclaration.cursor d.
Proof.
  unfold spellings_of_kind.
  induction children as [|c children IH]; intros d d'; simpl.
  - intros [= <-]. now rewrite app_nil_r.
  - intros H. bind_inv H.
    destruct (IH _ _ H) as (Hnames & Hname & Hcur).
    rewrite Hnames, Hname, Hcur.
    destruct (fill_struct_members_step _ _ _ _ E)
      as [(Hk & m & -> & Hm & _)|(Hk & ->)].
    + rewrite filter_cons_True by assumption. simpl.
      rewrite fmap_app. simpl. rewrite Hm, <- app_assoc. now split.
    + rewrite filter_cons_False by assumption. now split.
Qed.

Lemma find_other_none {D : Type} (name : D → string) (cur : D → CXCursor)
    (table : list D) (str : string) (cursor : CXCursor) :
  (∀ d, d ∈ table → name d = str → cursor_same cursor (cur d) = true) →
  ∀ n, find_other name cur table str cursor n = None.
Proof.
  induction table as [|d table IH]; intros Hsame n; simpl; [reflexivity|].
  unfold streq. destruct (String.eqb_spec (name d) str) as [E|E]; simpl.
  - rewrite (Hsame d (list_elem_of_here _ _) E). simpl.
    apply IH. intros d' Hin. apply Hsame. now apply list_elem_of_further.
  - apply IH. intros d' Hin. apply Hsame. now apply list_elem_of_further.
Qed.

(** X4: when every registered struct of the name [str] has the node
    identity of [cursor] (in particular when none has that name), a
    successful [register_struct] appends exactly one declaration and
    leaves the entries before it as they are.  The new declaration
    bears the name and the cursor, its members bear the names of the
    [CXCursor_FieldDecl] children of the cursor, in their order (other
    children are skipped), and [decl_ptr] is linked to it. *)
Theorem register_struct_appends structs str cursor decl_ptr structs'
    decl_ptr' :
  (∀ d, d ∈ structs → StructDeclaration.name d = str →
        cursor_same cursor (StructDeclaration.cursor d) = true) →
  register_struct str cursor decl_ptr structs = Ok (structs', decl_ptr') →
  ∃ decl,
    structs' = structs ++ [decl] ∧
    StructDeclaration.name decl = str ∧
    StructDeclaration.cursor decl = cursor ∧
    StructMember.name <$> StructDeclaration.entries decl
      = spellings_of_kind CXCursor_FieldDecl (cursor_children cursor) ∧
    decl_ptr' = TypedefDeclaration.set_struct_decl (Some (length structs))
                  <$> decl_ptr.
Proof.
  intros Hsame. unfold register_struct, clang_visitChildren.
  rewrite (find_other_none _ _ _ _ _ Hsame). intros H. bind_inv H.
  injection H as <- <-.
  destruct (visit_fields_names _ _ _ _ E) as (Hnames & Hname & Hcur).
  exists a. now repeat split.
Qed.

Lemma register_struct_appends_witness :
  ∃ decl,
    register_struct "S" struct_with_nested None [] = Ok ([decl], None) ∧
    StructMember.name <$> StructDeclaration.entries decl
      = ["a"; "b"]%string.
Proof.
  assert (∃ r, register_struct "S" struct_with_nested None [] = Ok r)
    as [[structs' decl_ptr'] Hrun] by (eexists; vm_compute; reflexivity).
  destruct (register_struct_appends [] "S" struct_with_nested None
              structs' decl_ptr')
    as (decl & -> & _ & _ & Hnames & ->); [|exact Hrun|].
  - intros d Hd. now apply elem_of_nil in Hd.
  - exists decl. split; [exact Hrun|exact Hnames].
Defined.

Lemma cursor_same_refl c : cursor_same c c = true.
Proof. unfold cursor_same. now rewrite !Z.eqb_refl. Qed.

(** X5: a node that is registered a second time is registered again:
    when [register_struct] has appended a declaration for [cursor],
    the same call on the new registry appends the same declaration
    once more.  Only a node of another identity is taken for a
    declaration that already exists. *)
Theorem register_struct_twice structs str cursor decl_ptr decl decl_ptr' :
  register_struct str cursor decl_ptr structs
    = Ok (structs ++ [decl], decl_ptr') →
  register_struct str cursor decl_ptr (structs ++ [decl])
    = Ok (structs ++ [decl; decl],
          TypedefDeclaration.set_struct_decl (Some (S (length structs)))
            <$> decl_ptr).
Proof.
  intros H. unfold register_struct in H.
  destruct (find_other StructDeclaration.name StructDeclaration.cursor
                       structs str cursor 0) as [n|] eqn:Hfind.
  { injection H as Hlen _. apply (f_equal length) in Hlen.
    rewrite length_app in Hlen. simpl in Hlen. lia. }
  bind_inv H. injection H as Ha _. apply app_inj_tail in Ha as [_ ->].
  unfold clang_visitChildren in E.
  destruct (visit_fields_names _ _ _ _ E) as (_ & Hname & Hcur).
  simpl in Hname, Hcur.
  assert (Hnone : find_other StructDeclaration.name StructDeclaration.cursor
                    (structs ++ [decl]) str cursor 0 = None).
  { clear E. revert Hfind. generalize 0%nat.
    induction structs as [|d structs IH]; intros n; simpl.
    - intros _. rewrite Hcur, cursor_same_refl. now rewrite andb_false_r.
    - destruct (streq _ _ && _); [discriminate|]. apply IH. }
  unfold register_struct, clang_visitChildren. rewrite Hnone, E. simpl.
  rewrite length_app, <- app_assoc. simpl.
  now rewrite Nat.add_1_r.
Qed.

Lemma register_struct_twice_witness :
  ∃ decl,
    register_struct "S" struct_with_nested None [decl]
      = Ok ([decl; decl], None).
Proof.
  assert (∃ decl, register_struct "S" struct_with_nested None []
                    = Ok ([] ++ [decl], None))
    as [decl Hrun] by (eexists; vm_compute; reflexivity).
  exists decl.
  exact (register_struct_twice [] "S" struct_with_nested None decl None
           Hrun).
Defined.

Lemma fill_enum_members_step decl c parent enums enums' :
  fill_enum_members decl c parent enums = Ok enums' →
  (cursor_kind c = CXCursor_EnumConstantDecl ∧
   ∃ d v,
     enums !! decl = Some d ∧
     enums' = with_member decl d
                (EnumMember.mk (cursor_spelling c) v c) enums ∧
     ((∃ cache,
         clang_visitChildren c (fill_enum_value enums) empty_cache
           = Ok cache ∧
         cache_get cache 0 = 1 ∧ v = cache_get cache 1) ∨
      (v = next_default d ∧ in_int v = true))) ∨
  (cursor_kind c ≠ CXCursor_EnumConstantDecl ∧ enums' = enums).
Proof.
  unfold fill_enum_members.
  destruct (Z.eqb_spec (cursor_kind c) CXCursor_EnumConstantDecl)
    as [Hk|Hk]; [|intros [= <-]; now right].
  destruct (enums !! decl) as [d|] eqn:Hd; [|discriminate].
  intros H. left. split; [assumption|].
  bind_inv H. bind_inv H. bind_inv H. injection H as <-.
  exists d, a1. split; [reflexivity|]. split; [reflexivity|].
  destruct (Z.eqb_spec (cache_get a 0) 1) as [Hone|Hone].
  - left. exists a. injection E1 as <-. now repeat split.
  - right. unfold next_default.
    destruct (last (EnumDeclaration.entries d)) as [prev|].
    + unfold int_result in E1.
      destruct (in_int (EnumMember.value prev + 1)) eqn:Hin;
        [|discriminate].
      injection E1 as <-. now split.
    + injection E1 as <-. now split.
Qed.

Lemma visit_enumerators_names parent members enums0 :
  ∀ d0 enums',
    visit_list (fill_enum_members (length enums0)) parent members
               (enums0 ++ [d0]) = Ok enums' →
    ∃ d',
      enums' = enums0 ++ [d'] ∧
      EnumMember.name <$> EnumDeclaration.entries d'
        = (EnumMember.name <$> EnumDeclaration.entries d0)
          ++ spellings_of_kind CXCursor_EnumConstantDecl members ∧
      EnumDeclaration.name d' = EnumDeclaration.name d0 ∧
      EnumDeclaration.cursor d' = EnumDeclaration.cursor d0.
Proof.
  unfold spellings_of_kind.
  induction members as [|c members IH]; intros d0 enums'; simpl.
  - intros [= <-]. exists d0. now rewrite app_nil_r.
  - intros H. bind_inv H.
    destruct (fill_enum_members_step _ _ _ _ _ E)
      as [(Hk & d & v & Hd & -> & _)|(Hk & ->)].
    + rewrite list_lookup_middle in Hd by reflexivity.
      injection Hd as <-. unfold with_member in H.
      rewrite insert_last in H.
      destruct (IH _ _ H) as (d' & -> & Hnames & Hname & Hcur).
      exists d'. simpl in Hnames, Hname, Hcur.
      rewrite filter_cons_True by assumption. simpl.
      rewrite Hnames, fmap_app, <- app_assoc. now repeat split.
    + destruct (IH _ _ H) as (d' & -> & Hnames & Hname & Hcur).
      exists d'. rewrite filter_cons_False by assumption.
      now repeat split.
Qed.

(** X6: when every registered enum of the name [str] has the node
    identity of [cursor], a successful [register_enum] appends exactly
    one declaration and leaves the entries before it as they are: the
    evaluation of the initializers writes to the new declaration only.
    Its members bear the names of the [CXCursor_EnumConstantDecl]
    children of the cursor, in their order, and [decl_ptr] is linked to
    it. *)
Theorem register_enum_appends enums str cursor decl_ptr enums' decl_ptr' :
  (∀ d, d ∈ enums → EnumDeclaration.name d = str →
        cursor_same cursor (EnumDeclaration.cursor d) = true) →
  register_enum str cursor decl_ptr enums = Ok (enums', decl_ptr') →
  ∃ decl,
    enums' = enums ++ [decl] ∧
    EnumDeclaration.name decl = str ∧
    EnumDeclaration.cursor decl = cursor ∧
    EnumMember.name <$> EnumDeclaration.entries decl
      = spellings_of_kind CXCursor_EnumConstantDecl
                          (cursor_children cursor) ∧
    decl_ptr' = TypedefDeclaration.set_enum_decl (Some (length enums))
                  <$> decl_ptr.
Proof.
  intros Hsame. unfold register_enum, clang_visitChildren.
  rewrite (find_other_none _ _ _ _ _ Hsame). intros H. bind_inv H.
  injection H as <- <-.
  destruct (visit_enumerators_names _ _ _ _ _ E)
    as (d' & -> & Hnames & Hname & Hcur).
  exists d'. now repeat split.
Qed.

Lemma register_enum_appends_witness :
  ∃ decl,
    register_enum "E" enum_from_five None [] = Ok ([decl], None) ∧
    EnumMember.name <$> EnumDeclaration.entries decl
      = ["A"; "B"; "C"]%string.
Proof.
  assert (∃ r, register_enum "E" enum_from_five None [] = Ok r)
    as [[enums' decl_ptr'] Hrun] by (eexists; vm_compute; reflexivity).
  destruct (register_enum_appends [] "E" enum_from_five None
              enums' decl_ptr')
    as (decl & -> & _ & _ & Hnames & ->); [|exact Hrun|].
  - intros d Hd. now apply elem_of_nil in Hd.
  - exists decl. split; [exact Hrun|exact Hnames].
Defined.

(** ** What a run does to the registries *)

Lemma preserves_ret {A : Type} P (a : A) : preserves P (mret a : M A).
Proof. intros s Hs. exact Hs. Qed.

Lemma preserves_lift {A : Type} P (o : outcome A) : preserves P (lift o).
Proof. intros s Hs. now destruct o. Qed.

Lemma preserves_bind {A B : Type} P (m : M A) (k : A → M B) :
  preserves P m → (∀ a, preserves P (k a)) → preserves P (m ≫= k).
Proof.
  intros Hm Hk s Hs. specialize (Hm s Hs). unfold mbind, M_bind.
  destruct (m s) as [a s'|f s']; simpl in *; [|exact Hm].
  now apply Hk.
Qed.

Lemma preserves_printf P text :
  (∀ s out, P s → P (with_output s out)) → preserves P (printf text).
Proof. intros Hout s Hs. now apply Hout. Qed.

Lemma preserves_visit_list {D : Type} P
    (visitor : CXCursor → CXCursor → D → M D) parent children :
  Forall (λ c, ∀ d, preserves P (visitor c parent d)) children →
  ∀ d, preserves P (visit_list visitor parent children d).
Proof.
  induction 1 as [|c children Hc _ IH]; intros d; simpl.
  - apply preserves_ret.
  - apply preserves_bind; [apply Hc|apply IH].
Qed.

Lemma preserves_print_token_lines P tokens :
  (∀ s out, P s → P (with_output s out)) →
  preserves P (print_token_lines tokens).
Proof.
  intros Hout. induction tokens as [|t tokens IH]; simpl.
  - apply preserves_ret.
  - apply preserves_bind; [now apply preserves_printf|intros _; exact IH].
Qed.

(** Whatever the parse tree, a property of the state that does not
    depend on standard output and that each of the three registration
    functions keeps is kept by [callback]. *)
Lemma callback_keeps P :
  kept_by_registration P →
  ∀ c parent client_data, preserves P (callback c parent client_data).
Proof.
  intros (Hout & Hstruct & Hstruct' & Henum & Henum' & Htypedef
          & Htypedef') c.
  induction c as [kind data str line col file tokens children IH]
    using CXCursor_tree_ind.
  intros parent d.
  assert (Hvisit : ∀ p d', preserves P (visit_list callback p children d')).
  { intros p d'. apply preserves_visit_list.
    apply (Forall_impl _ _ _ IH). intros c Hc d''. apply Hc. }
  simpl.
  destruct (kind =? CXCursor_TypedefDecl).
  { apply preserves_bind; [apply Hvisit|]. intros [decl|].
    - apply preserves_bind; [|intros _; apply preserves_ret].
      intros s Hs. unfold on_typedefs.
      destruct (register_typedef _ _ _ _ _) eqn:E.
      + exact (Htypedef _ _ _ _ _ _ Hs E).
      + exact (Htypedef' _ _ _ _ _ _ Hs E).
    - apply preserves_lift. }
  destruct (kind =? CXCursor_StructDecl).
  { intros s Hs. unfold on_structs.
    destruct (register_struct _ _ _ _) as [[structs' p]|] eqn:E.
    - exact (Hstruct _ _ _ _ _ _ Hs E).
    - exact (Hstruct' _ _ _ _ _ Hs E). }
  destruct (kind =? CXCursor_EnumDecl).
  { intros s Hs. unfold on_enums.
    destruct (register_enum _ _ _ _) as [[enums' p]|] eqn:E.
    - exact (Henum _ _ _ _ _ _ Hs E).
    - exact (Henum' _ _ _ _ _ Hs E). }
  destruct ((kind =? CXCursor_CompoundLiteralExpr)
            || (kind =? CXCursor_TypeRef)
            || (kind =? CXCursor_InitListExpr)
            || (kind =? CXCursor_UnexposedExpr)).
  { apply preserves_bind; [apply Hvisit|]. intros _. apply preserves_ret. }
  destruct (kind =? CXCursor_MemberRef).
  { destruct (cursor_kind parent =? CXCursor_UnexposedExpr).
    - apply preserves_bind; [now apply preserves_printf|].
      intros _. apply preserves_ret.
    - apply preserves_ret. }
  destruct ((kind =? CXCursor_IntegerLiteral)
            || (kind =? CXCursor_DeclRefExpr)).
  { destruct (cursor_kind parent =? CXCursor_UnexposedExpr).
    - apply preserves_bind; [apply preserves_lift|].
      intros _. apply preserves_ret.
    - apply preserves_ret. }
  apply preserves_bind; [now apply preserves_printf|]. intros _.
  apply preserves_bind; [now apply preserves_print_token_lines|]. intros _.
  apply preserves_bind; [apply Hvisit|]. intros _. apply preserves_ret.
Qed.

Lemma preserves_print_tokens_from P tokens :
  (∀ s out, P s → P (with_output s out)) →
  ∀ cpos lnum, preserves P (print_tokens_from tokens cpos lnum).
Proof.
  intros Hout. induction tokens as [|t tokens IH]; intros cpos lnum; simpl.
  - apply preserves_ret.
  - apply preserves_bind; [apply preserves_lift|]. intros _.
    apply preserves_bind; [now apply preserves_printf|]. intros _.
    apply preserves_bind; [now apply preserves_printf|]. intros _.
    apply preserves_bind; [now apply preserves_printf|]. intros _.
    apply IH.
Qed.

(** The same for a whole run. *)
Lemma main_keeps P tu :
  kept_by_registration P → P initial_state → P (final_state (main tu)).
Proof.
  intros HP Hinit. unfold main.
  pose proof HP as (Hout & _).
  refine (preserves_bind P _ _ _ _ initial_state Hinit).
  - unfold translate. apply preserves_bind.
    + unfold clang_visitChildren. apply preserves_visit_list.
      apply List.Forall_forall. intros c _ d.
      now apply callback_keeps.
    + intros _. unfold print_tokens. apply preserves_bind.
      * now apply preserves_print_tokens_from.
      * intros _. now apply preserves_printf.
  - intros _ s Hs. unfold cleanup. now apply preserves_lift.
Qed.

(** X7: [callback] changes the globals only through [register_struct],
    [register_enum], [register_typedef] and [printf].  Whatever the
    parse tree, a property of the state that does not depend on
    standard output and that each of the three registration functions
    keeps, both when it returns and in the state it leaves when it
    stops the run, is kept by [callback] on every cursor, also when
    the traversal stops on the way; if it holds of the empty registries
    it holds at the end of every run of [main]. *)
Theorem traversal_keeps_registration_invariants P :
  kept_by_registration P →
  (∀ c parent client_data, preserves P (callback c parent client_data)) ∧
  (∀ tu, P initial_state → P (final_state (main tu))).
Proof.
  intros HP. split.
  - now apply callback_keeps.
  - intros tu. now apply main_keeps.
Qed.

Lemma find_other_inv {D : Type} (name : D → string) (cur : D → CXCursor)
    (table : list D) (str : string) (cursor : CXCursor) :
  ∀ k n,
    find_other name cur table str cursor k = Some n →
    ∃ i e, n = (k + i)%nat ∧ table !! i = Some e ∧ name e = str ∧
           cursor_same cursor (cur e) = false.
Proof.
  induction table as [|d table IH]; intros k n; simpl; [discriminate|].
  destruct (streq (name d) str && negb (cursor_same cursor (cur d)))
    eqn:Hd.
  - intros [= <-]. apply andb_prop in Hd as [Hn Hc].
    exists 0%nat, d. repeat split; [lia| |].
    + now apply String.eqb_eq.
    + now apply negb_true_iff.
  - intros H. destruct (IH _ _ H) as (i & e & -> & Hi & He & Hc).
    exists (S i), e. repeat split; try assumption. lia.
Qed.

Lemma register_struct_prefix str cursor decl_ptr structs structs' p :
  register_struct str cursor decl_ptr structs = Ok (structs', p) →
  structs `prefix_of` structs'.
Proof.
  unfold register_struct.
  destruct (find_other _ _ _ _ _ _).
  - now intros [= <- _].
  - intros H. bind_inv H. injection H as <- _. now apply prefix_app_r.
Qed.

Lemma register_enum_prefix str cursor decl_ptr enums enums' p :
  register_enum str cursor decl_ptr enums = Ok (enums', p) →
  enums `prefix_of` enums'.
Proof.
  unfold register_enum, clang_visitChildren.
  destruct (find_other _ _ _ _ _ _).
  - now intros [= <- _].
  - intros H. bind_inv H. injection H as <- _.
    destruct (visit_enumerators_names _ _ _ _ _ E) as (d' & -> & _).
    now apply prefix_app_r.
Qed.

Lemma register_typedef_prefix name tokens decl cursor typedefs typedefs' :
  register_typedef name tokens decl cursor typedefs = Ok typedefs' →
  typedefs `prefix_of` typedefs'.
Proof.
  intros H. destruct (register_typedef_writes_one _ _ _ _ _ _ H)
    as (entry & -> & _).
  now apply prefix_app_r.
Qed.

(** A stopped registration of an enum has written to the new
    declaration only. *)
Lemma visit_enumerators_stopped parent members enums0 :
  ∀ d0, ∃ d',
    visit_list_stopped (fill_enum_members (length enums0))
      (λ _ _ enums', enums') parent members (enums0 ++ [d0])
    = enums0 ++ [d'].
Proof.
  induction members as [|c members IH]; intros d0; simpl.
  - now exists d0.
  - destruct (fill_enum_members _ c parent _) as [enums1|] eqn:E;
      [|now exists d0].
    destruct (fill_enum_members_step _ _ _ _ _ E)
      as [(Hk & d & v & Hd & -> & _)|(Hk & ->)]; [|apply IH].
    rewrite list_lookup_middle in Hd by reflexivity.
    injection Hd as <-. unfold with_member. rewrite insert_last.
    apply IH.
Qed.

Lemma register_enum_stopped_prefix str cursor enums :
  enums `prefix_of` register_enum_stopped str cursor enums.
Proof.
  unfold register_enum_stopped.
  destruct (visit_enumerators_stopped cursor (cursor_children cursor)
              enums (EnumDeclaration.mk [] str cursor)) as [d' ->].
  now apply prefix_app_r.
Qed.

Lemma extends_kept s0 : kept_by_registration (extends s0).
Proof.
  unfold kept_by_registration, extends.
  repeat match goal with |- _ ∧ _ => split end.
  - intros s out H. exact H.
  - intros s str cursor p structs' p' (Hs & He & Ht) H. simpl.
    repeat split; try assumption.
    etransitivity; [exact Hs|]. exact (register_struct_prefix _ _ _ _ _ _ H).
  - intros s str cursor p f (Hs & He & Ht) _. simpl.
    repeat split; try assumption.
    etransitivity; [exact Hs|]. now apply prefix_app_r.
  - intros s str cursor p enums' p' (Hs & He & Ht) H. simpl.
    repeat split; try assumption.
    etransitivity; [exact He|]. exact (register_enum_prefix _ _ _ _ _ _ H).
  - intros s str cursor p f (Hs & He & Ht) _. simpl.
    repeat split; try assumption.
    etransitivity; [exact He|]. apply register_enum_stopped_prefix.
  - intros s name tokens decl cursor tds' (Hs & He & Ht) H. simpl.
    repeat split; try assumption.
    etransitivity; [exact Ht|].
    exact (register_typedef_prefix _ _ _ _ _ _ H).
  - intros s name tokens decl cursor f (Hs & He & Ht) _. simpl.
    repeat split; try assumption.
    etransitivity; [exact Ht|]. now apply prefix_app_r.
Qed.

(** X8: the registries are append-only.  Whatever cursor [callback] is
    run on and from whatever state, the struct, enum and typedef
    registries it ends with are the ones it started with, with entries
    appended: no entry is ever removed, moved or changed. *)
Theorem registries_append_only c parent client_data s :
  extends s (final_state (callback c parent client_data s)).
Proof.
  apply (callback_keeps (extends s) (extends_kept s)).
  unfold extends. now repeat split.
Qed.

Lemma traversal_keeps_registration_invariants_witness :
  extends (mkState sample_structs sample_enum_registry [] "")
    (final_state
       (callback (enum_decl 2 "F" [enum_constant "A" [decl_ref "B" "}"]])
                 (translation_unit [] []) None
                 (mkState sample_structs sample_enum_registry [] ""))).
Proof.
  destruct (traversal_keeps_registration_invariants
              (extends (mkState sample_structs sample_enum_registry [] ""))
              (extends_kept _)) as [Hcallback _].
  apply Hcallback. unfold extends. now repeat split.
Defined.

Lemma register_struct_link str cursor decl structs structs' decl_ptr' :
  register_struct str cursor (Some decl) structs
    = Ok (structs', decl_ptr') →
  ∃ n e,
    decl_ptr' = Some (TypedefDeclaration.set_struct_decl (Some n) decl) ∧
    structs' !! n = Some e ∧ StructDeclaration.name e = str.
Proof.
  unfold register_struct.
  destruct (find_other _ _ _ _ _ _) as [n|] eqn:Hfind.
  - intros [= <- <-].
    destruct (find_other_inv _ _ _ _ _ _ _ Hfind)
      as (i & e & -> & Hi & He & _).
    now exists i, e.
  - intros H. bind_inv H. injection H as <- <-.
    unfold clang_visitChildren in E.
    destruct (visit_fields_names _ _ _ _ E) as (_ & Hname & _).
    exists (length structs), a. repeat split; [|exact Hname].
    now apply list_lookup_middle.
Qed.

Lemma register_enum_link str cursor decl enums enums' decl_ptr' :
  register_enum str cursor (Some decl) enums = Ok (enums', decl_ptr') →
  ∃ n e,
    decl_ptr' = Some (TypedefDeclaration.set_enum_decl (Some n) decl) ∧
    enums' !! n = Some e ∧ EnumDeclaration.name e = str.
Proof.
  unfold register_enum, clang_visitChildren.
  destruct (find_other _ _ _ _ _ _) as [n|] eqn:Hfind.
  - intros [= <- <-].
    destruct (find_other_inv _ _ _ _ _ _ _ Hfind)
      as (i & e & -> & Hi & He & _).
    now exists i, e.
  - intros H. bind_inv H. injection H as <- <-.
    destruct (visit_enumerators_names _ _ _ _ _ E)
      as (d' & -> & _ & Hname & _).
    exists (length enums), d'. repeat split; [|exact Hname].
    now apply list_lookup_middle.
Qed.

(** X9: whenever [register_struct] or [register_enum] succeeds with a
    [decl_ptr] that is not null, the declaration it points to is linked
    to an entry of the resulting registry that bears the name [str],
    whether the entry was there before or has just been appended. *)
Theorem registration_links_named_entry :
  (∀ str cursor decl structs structs' decl_ptr',
     register_struct str cursor (Some decl) structs
       = Ok (structs', decl_ptr') →
     ∃ n e,
       decl_ptr' = Some (TypedefDeclaration.set_struct_decl (Some n) decl) ∧
       structs' !! n = Some e ∧ StructDeclaration.name e = str) ∧
  (∀ str cursor decl enums enums' decl_ptr',
     register_enum str cursor (Some decl) enums = Ok (enums', decl_ptr') →
     ∃ n e,
       decl_ptr' = Some (TypedefDeclaration.set_enum_decl (Some n) decl) ∧
       enums' !! n = Some e ∧ EnumDeclaration.name e = str).
Proof.
  split.
  - intros str cursor decl structs structs' p.
    apply register_struct_link.
  - intros str cursor decl enums enums' p. apply register_enum_link.
Qed.

Lemma registration_links_named_entry_witness :
  ∃ structs' n e,
    register_struct "S" struct_with_nested (Some TypedefDeclaration.zeroed)
                    []
      = Ok (structs',
            Some (TypedefDeclaration.set_struct_decl
                    (Some n) TypedefDeclaration.zeroed)) ∧
    structs' !! n = Some e ∧ StructDeclaration.name e = "S"%string.
Proof.
  assert (∃ r, register_struct "S" struct_with_nested
                 (Some TypedefDeclaration.zeroed) [] = Ok r)
    as [[structs' decl_ptr'] Hrun] by (eexists; vm_compute; reflexivity).
  destruct registration_links_named_entry as (Hstruct & _).
  destruct (Hstruct _ _ _ _ _ _ Hrun) as (n & e & -> & He & Hname).
  now exists structs', n, e.
Defined.

(** ** Typedefs of declarations and of other types *)

Lemma bind_Done_inv {A B : Type} (m : M A) (k : A → M B) s r s' :
  (m ≫= k) s = Done r s' →
  ∃ a s1, m s = Done a s1 ∧ k a s1 = Done r s'.
Proof.
  unfold mbind, M_bind. destruct (m s) as [a s1|f s1]; [|discriminate].
  intros H. now exists a, s1.
Qed.

Ltac mbind_inv H :=
  let a := fresh "a" in
  let s1 := fresh "s" in
  let E := fresh "E" in
  apply bind_Done_inv in H; destruct H as (a & s1 & E & H).

Lemma callback_typedef c parent client_data :
  cursor_kind c = CXCursor_TypedefDecl →
  callback c parent client_data =
    (decl ← visit_list callback c (cursor_children c)
                       (Some TypedefDeclaration.zeroed);
     match decl with
     | Some decl =>
         _ ← on_typedefs (register_typedef (cursor_spelling c)
                            (cursor_tokens c) decl c)
                         (register_typedef_stopped (cursor_spelling c));
         mret client_data
     | None => lift (Fail (Undefined "null decl"))
     end).
Proof. destruct c. simpl. now intros ->. Qed.

Lemma callback_struct c parent client_data :
  cursor_kind c = CXCursor_StructDecl →
  callback c parent client_data
    = on_structs (register_struct (cursor_spelling c) c client_data)
                 (register_struct_stopped (cursor_spelling c) c).
Proof. destruct c. simpl. now intros ->. Qed.

Lemma callback_enum c parent client_data :
  cursor_kind c = CXCursor_EnumDecl →
  callback c parent client_data
    = on_enums (register_enum (cursor_spelling c) c client_data)
               (register_enum_stopped (cursor_spelling c) c).
Proof. destruct c. simpl. now intros ->. Qed.

(** X12: how the registrations compose for [typedef struct S {...} T;]
    and [typedef enum E {...} T;].  When the only child of a typedef
    declaration is a struct (an enum) declaration and [callback]
    succeeds on the typedef, one entry is appended to the typedef
    registry; it bears the name of the typedef and its struct (enum)
    reference points to an entry of the struct (enum) registry that
    bears the name of the child.  The data of the caller is returned as
    it was. *)
Theorem typedef_of_declaration cursor parent client_data s r s' c :
  cursor_kind cursor = CXCursor_TypedefDecl →
  cursor_children cursor = [c] →
  callback cursor parent client_data s = Done r s' →
  r = client_data ∧
  (cursor_kind c = CXCursor_StructDecl →
   ∃ entry n e,
     typedefs s' = typedefs s ++ [entry] ∧
     TypedefDeclaration.name entry = Stored (Some (cursor_spelling cursor)) ∧
     TypedefDeclaration.struct_decl entry = Stored (Some n) ∧
     structs s' !! n = Some e ∧
     StructDeclaration.name e = cursor_spelling c) ∧
  (cursor_kind c = CXCursor_EnumDecl →
   ∃ entry n e,
     typedefs s' = typedefs s ++ [entry] ∧
     TypedefDeclaration.name entry = Stored (Some (cursor_spelling cursor)) ∧
     TypedefDeclaration.enum_decl entry = Stored (Some n) ∧
     enums s' !! n = Some e ∧
     EnumDeclaration.name e = cursor_spelling c).
Proof.
  intros Hk Hch H. rewrite (callback_typedef _ _ _ Hk), Hch in H.
  mbind_inv H. simpl in E. mbind_inv E. injection E as <- <-.
  destruct a0 as [decl|]; [|discriminate].
  mbind_inv H. injection H as <- <-.
  split; [reflexivity|]. split.
  - intros Hc. rewrite (callback_struct _ _ _ Hc) in E0.
    unfold on_structs in E0.
    destruct (register_struct _ _ _ _) as [[structs' p]|] eqn:Hreg;
      [|discriminate].
    injection E0 as Hp Hs. subst p s1.
    destruct (register_struct_link _ _ _ _ _ _ Hreg)
      as (n & e & [= ->] & Hn & He).
    unfold on_typedefs, register_typedef in E. simpl in E.
    injection E as Ha Hs0. subst s0. simpl. eexists _, n, e.
    repeat split; try eassumption; reflexivity.
  - intros Hc. rewrite (callback_enum _ _ _ Hc) in E0.
    unfold on_enums in E0.
    destruct (register_enum _ _ _ _) as [[enums' p]|] eqn:Hreg;
      [|discriminate].
    injection E0 as Hp Hs. subst p s1.
    destruct (register_enum_link _ _ _ _ _ _ Hreg)
      as (n & e & [= ->] & Hn & He).
    unfold on_typedefs, register_typedef in E. simpl in E.
    injection E as Ha Hs0. subst s0. simpl. eexists _, n, e.
    repeat split; try eassumption; reflexivity.
Qed.

Lemma typedef_of_declaration_witness :
  ∃ s' entry n e,
    callback typedef_struct (translation_unit [] [typedef_struct]) None
             initial_state = Done None s' ∧
    typedefs s' = [entry] ∧
    TypedefDeclaration.name entry = Stored (Some "T"%string) ∧
    TypedefDeclaration.struct_decl entry = Stored (Some n) ∧
    structs s' !! n = Some e ∧
    StructDeclaration.name e = "S"%string.
Proof.
  assert (∃ r s', callback typedef_struct
                    (translation_unit [] [typedef_struct]) None
                    initial_state = Done r s')
    as (r & s' & Hrun) by (do 2 eexists; vm_compute; reflexivity).
  destruct (typedef_of_declaration typedef_struct _ _ _ _ _
              (sample CXCursor_StructDecl 1 "S" []
                 [sample CXCursor_FieldDecl 0 "a" ["int"; "a"; ";"] []])
              eq_refl eq_refl Hrun)
    as (-> & Hstruct & _).
  destruct (Hstruct eq_refl) as (entry & n & e & H1 & H2 & H3 & H4 & H5).
  now exists s', entry, n, e.
Defined.

Lemma callback_returns_data c parent client_data s r s' :
  cursor_kind c ≠ CXCursor_StructDecl →
  cursor_kind c ≠ CXCursor_EnumDecl →
  callback c parent client_data s = Done r s' → r = client_data.
Proof.
  destruct c as [kind data str line col file tokens children].
  simpl. intros Hs He.
  destruct (kind =? CXCursor_TypedefDecl).
  { intros H. mbind_inv H. destruct a as [decl|]; [|discriminate].
    mbind_inv H. now injection H as <- _. }
  destruct (Z.eqb_spec kind CXCursor_StructDecl); [contradiction|].
  destruct (Z.eqb_spec kind CXCursor_EnumDecl); [contradiction|].
  destruct (_ || _).
  { intros H. mbind_inv H. now injection H as <- _. }
  destruct (kind =? CXCursor_MemberRef).
  { destruct (_ =? _); intros H;
      [mbind_inv H|]; now injection H as <- _. }
  destruct (_ || _).
  { destruct (_ =? _); intros H;
      [mbind_inv H|]; now injection H as <- _. }
  intros H. do 3 mbind_inv H. now injection H as <- _.
Qed.

Lemma visit_returns_data parent children :
  Forall (λ c, cursor_kind c ≠ CXCursor_StructDecl ∧
               cursor_kind c ≠ CXCursor_EnumDecl) children →
  ∀ d s r s',
    visit_list callback parent children d s = Done r s' → r = d.
Proof.
  induction 1 as [|c children [Hs He] _ IH]; intros d s r s'; simpl.
  - now intros [= <- _].
  - intros H. mbind_inv H.
    rewrite (callback_returns_data _ _ _ _ _ _ Hs He E) in H.
    exact (IH _ _ _ _ H).
Qed.

(** X13: a typedef declaration that has no struct and no enum
    declaration among its children, such as [typedef unsigned long
    size;] or [typedef S T;], is registered with a proxy text: the
    tokens between the first token, [typedef], and the last two, the
    name and the token after the declaration, joined by single spaces.
    Its struct and enum references are left unwritten. *)
Theorem typedef_of_other_type cursor parent client_data s r s'
    first mid name_tok last_tok :
  cursor_kind cursor = CXCursor_TypedefDecl →
  Forall (λ c, cursor_kind c ≠ CXCursor_StructDecl ∧
               cursor_kind c ≠ CXCursor_EnumDecl)
         (cursor_children cursor) →
  cursor_tokens cursor = first :: mid ++ [name_tok; last_tok] →
  mid ≠ [] →
  n_tokens (cursor_tokens cursor) < UINT_MOD →
  callback cursor parent client_data s = Done r s' →
  ∃ entry,
    last (typedefs s') = Some entry ∧
    TypedefDeclaration.name entry = Stored (Some (cursor_spelling cursor)) ∧
    TypedefDeclaration.proxy entry
      = Stored (Some (Stored (String.concat " " (tok_spelling <$> mid)))) ∧
    TypedefDeclaration.struct_decl entry = Indeterminate ∧
    TypedefDeclaration.enum_decl entry = Indeterminate.
Proof.
  intros Hk Hch Htok Hmid Hsmall H.
  rewrite (callback_typedef _ _ _ Hk) in H. mbind_inv H.
  rewrite (visit_returns_data _ _ Hch _ _ _ _ E) in H.
  mbind_inv H. injection H as _ <-.
  unfold on_typedefs, register_typedef in E0. simpl in E0.
  assert (Hproxy : concat_name (cursor_tokens cursor) 1
                     (to_unsigned (n_tokens (cursor_tokens cursor) - 3))
                   = Ok (Stored (String.concat " " (tok_spelling <$> mid)))).
  { assert (Hlen : (0 < length mid)%nat)
      by (destruct mid; [contradiction|simpl; lia]).
    rewrite Htok in *. unfold n_tokens in *.
    rewrite length_cons, length_app in *. simpl length in *.
    rewrite to_unsigned_small by lia.
    rewrite concat_name_range by lia.
    replace (Z.to_nat (Z.of_nat (S (length mid + 2)) - 3 - 1 + 1))
      with (length mid) by lia.
    rewrite (concat_from_join _ _ 1)
      by (simpl; rewrite length_app; simpl; lia).
    change (drop 1 (first :: mid ++ [name_tok; last_tok]))
      with (mid ++ [name_tok; last_tok]).
    now rewrite take_app_length. }
  rewrite Hproxy in E0. simpl in E0. injection E0 as _ <-. simpl.
  eexists. rewrite last_snoc. now repeat split.
Qed.

Lemma typedef_of_other_type_witness :
  ∃ s' entry,
    callback typedef_scalar (translation_unit [] [typedef_scalar]) None
             initial_state = Done None s' ∧
    last (typedefs s') = Some entry ∧
    TypedefDeclaration.proxy entry
      = Stored (Some (Stored "unsigned long"%string)) ∧
    TypedefDeclaration.struct_decl entry = Indeterminate ∧
    TypedefDeclaration.enum_decl entry = Indeterminate.
Proof.
  assert (∃ s', callback typedef_scalar
                  (translation_unit [] [typedef_scalar]) None
                  initial_state = Done None s')
    as (s' & Hrun) by (eexists; vm_compute; reflexivity).
  destruct (typedef_of_other_type typedef_scalar _ _ _ _ _
              (tok "typedef") [tok "unsigned"; tok "long"] (tok "size")
              (tok ";") eq_refl (List.Forall_nil _) eq_refl
              ltac:(discriminate) eq_refl Hrun)
    as (entry & Hlast & _ & Hproxy & Hs & He).
  now exists s', entry.
Defined.

(** ** Initializers the evaluator skips, and references it resolves *)

(** X14: the evaluator finds a value only for an initializer that is a
    binary operator, an integer literal or a reference to a constant,
    and it does not look inside a cursor of another kind.  An
    enumerator whose initializer is of another kind, a negative literal
    or a parenthesized expression for instance, is registered as if it
    had no initializer: with 0 when it is the first member, else with
    the value of the member before it plus 1. *)
Theorem other_initializers_are_ignored decl enums d cursor parent :
  cursor_kind cursor = CXCursor_EnumConstantDecl →
  enums !! decl = Some d →
  Forall (λ c, evaluated_kind (cursor_kind c) = false)
         (cursor_children cursor) →
  INT_MIN ≤ next_default d ≤ INT_MAX →
  fill_enum_members decl cursor parent enums
    = Ok (with_member decl d
            (EnumMember.mk (cursor_spelling cursor) (next_default d)
                           cursor) enums).
Proof.
  intros Hk Hd Hskip Hrange.
  unfold fill_enum_members, clang_visitChildren.
  rewrite Hk, Hd, (visit_skipped _ _ _ _ Hskip). simpl.
  unfold next_default in *.
  destruct (last (EnumDeclaration.entries d)) as [prev|]; [|reflexivity].
  now rewrite (int_result_in _ (in_int_bounds _ Hrange)).
Qed.

Lemma other_initializers_are_ignored_witness :
  fill_enum_members 0
    (enum_constant "A"
       [sample 112 0 "" ["-"; "1"; ","] [integer_literal "1" ","]])
    enum_ignored_initializers
    [EnumDeclaration.mk [] "E" enum_ignored_initializers]
  = Ok [EnumDeclaration.mk
          [EnumMember.mk "A" 0
             (enum_constant "A"
                [sample 112 0 "" ["-"; "1"; ","]
                   [integer_literal "1" ","]])]
          "E" enum_ignored_initializers].
Proof.
  apply (other_initializers_are_ignored 0
           [EnumDeclaration.mk [] "E" enum_ignored_initializers]
           (EnumDeclaration.mk [] "E" enum_ignored_initializers)).
  - reflexivity.
  - reflexivity.
  - repeat constructor.
  - vm_compute. split; discriminate.
Defined.

(** X15: an enumerator initialized with a reference to a constant takes
    the value of the first registered member of that name; the members
    the declaration under registration has got so far are among them,
    so an enumerator can refer to the enumerators before it. *)
Theorem reference_takes_registered_value decl enums d cursor parent r t
    before m after :
  cursor_kind cursor = CXCursor_EnumConstantDecl →
  enums !! decl = Some d →
  cursor_children cursor = [r] →
  cursor_kind r = CXCursor_DeclRefExpr →
  n_tokens (cursor_tokens r) = 2 →
  cursor_tokens r !! 0%nat = Some t →
  all_members enums = before ++ m :: after →
  EnumMember.name m = tok_spelling t →
  unregistered (tok_spelling t) before →
  fill_enum_members decl cursor parent enums
    = Ok (with_member decl d
            (EnumMember.mk (cursor_spelling cursor) (EnumMember.value m)
                           cursor) enums).
Proof.
  intros Hk Hd Hch Hkr Hn Ht Hall Hm Hbefore.
  assert (Hvalue : fill_enum_value enums r cursor empty_cache
                   = Ok [1; EnumMember.value m; 0]).
  { destruct r as [kind data str line col file tokens children].
    simpl in Hkr, Hn, Ht. subst kind. simpl. rewrite Hn. simpl.
    pose proof (token_at_lookup tokens 0 t Ht) as Hat.
    change (Z.of_nat 0) with 0 in Hat. rewrite Hat. simpl.
    unfold find_enum_value.
    rewrite find_enum_from_flat,
      (find_member_first _ _ _ _ _ Hall Hm Hbefore).
    reflexivity. }
  rewrite (fill_enum_members_evaluated _ _ d _ _ [1; EnumMember.value m; 0]);
    try assumption; try reflexivity.
  unfold clang_visitChildren. rewrite Hch. simpl. now rewrite Hvalue.
Qed.

Lemma reference_takes_registered_value_witness :
  fill_enum_members 1 (enum_constant "C" [decl_ref "B" "}"])
                    (enum_decl 2 "F" []) sample_enums
  = Ok [EnumDeclaration.mk
          [EnumMember.mk "A" 5
             (enum_constant "A" [integer_literal "5" ","]);
           EnumMember.mk "B" 6 (enum_constant "B" [])]
          "E" (enum_decl 1 "E" []);
        EnumDeclaration.mk
          [EnumMember.mk "B" 9
             (enum_constant "B" [integer_literal "9" "}"]);
           EnumMember.mk "C" 6 (enum_constant "C" [decl_ref "B" "}"])]
          "F" (enum_decl 2 "F" [])].
Proof.
  apply (reference_takes_registered_value 1 sample_enums
           (EnumDeclaration.mk
              [EnumMember.mk "B" 9
                 (enum_constant "B" [integer_literal "9" "}"])]
              "F" (enum_decl 2 "F" []))
           (enum_constant "C" [decl_ref "B" "}"]) (enum_decl 2 "F" [])
           (decl_ref "B" "}") (tok "B")
           [EnumMember.mk "A" 5
              (enum_constant "A" [integer_literal "5" ","])]
           (EnumMember.mk "B" 6 (enum_constant "B" []))
           [EnumMember.mk "B" 9
              (enum_constant "B" [integer_literal "9" "}"])]).
  - reflexivity.
  - reflexivity.
  - reflexivity.
  - reflexivity.
  - reflexivity.
  - reflexivity.
  - reflexivity.
  - reflexivity.
  - repeat constructor. discriminate.
Defined.

(** ** The printer on any token sequence *)

Lemma blank_app a b : blank (a ++ b) = blank a && blank b.
Proof.
  induction a as [|c a IH]; [reflexivity|].
  rewrite string_app_cons. simpl. rewrite IH. now rewrite andb_assoc.
Qed.

Lemma blank_replicate n s : blank s = true → blank (replicate_string n s) = true.
Proof.
  intros Hs. induction n as [|n IH]; [reflexivity|].
  change (replicate_string (S n) s) with (s ++ replicate_string n s)%string.
  now rewrite blank_app, Hs, IH.
Qed.

Lemma lines_in_order_cons lnum tok rest :
  lines_in_order lnum (tok :: rest)
    = (lnum <=? to_unsigned (tok_line tok - 1))
      && lines_in_order (to_unsigned (tok_line tok - 1)) rest.
Proof. reflexivity. Qed.

Lemma print_tokens_from_any tokens :
  ∀ cpos lnum, ∃ out,
    (∀ s, print_tokens_from tokens cpos lnum s
          = printed s out (printer_stop (lines_in_order lnum tokens))) ∧
    (lines_in_order lnum tokens = true → spaced tokens out).
Proof.
  induction tokens as [|tok tokens IH]; intros cpos lnum.
  - exists ""%string. split; [|intros _; constructor].
    intros s. simpl. now rewrite with_output_nil.
  - destruct (lnum <=? to_unsigned (tok_line tok - 1)) eqn:Hline.
    + match type of Hline with
      | (_ <=? ?line) = true =>
          destruct (IH (to_unsigned
                          ((if (if lnum <? line then 0 else cpos)
                                <? to_unsigned (tok_col tok - 1)
                            then to_unsigned (tok_col tok - 1)
                            else if lnum <? line then 0 else cpos)
                           + strlen (tok_spelling tok))) line)
            as (out & Hrun & Hspaced)
      end.
      eexists. split.
      * intros s. rewrite (print_tokens_from_step _ _ _ _ _ Hline), Hrun.
        rewrite lines_in_order_cons, Hline, andb_true_l.
        destruct (lines_in_order _ tokens); unfold printed, printer_stop;
          rewrite !with_output_app; reflexivity.
      * rewrite lines_in_order_cons, Hline, andb_true_l. intros Hrest.
        rewrite <- string_app_assoc. constructor; [|now apply Hspaced].
        rewrite blank_app, !blank_replicate; reflexivity.
    + exists ""%string. split.
      * intros s. rewrite lines_in_order_cons, Hline, andb_false_l.
        simpl. unfold mbind, M_bind, lift, assert. rewrite Hline.
        unfold printed, printer_stop. now rewrite with_output_nil.
      * rewrite lines_in_order_cons, Hline. discriminate.
Qed.

(** X16: round trip of the locations.  For tokens without a line break
    in their spelling, whose locations neither go back nor overlap,
    the printer ends normally from any state, whatever is on standard
    output already, and in the text it writes every token begins at
    its recorded line and column: reading the output again gives the
    tokens at the locations they had in the source. *)
Theorem print_tokens_places_tokens tokens s :
  well_placed 0 0 tokens →
  ∃ out,
    print_tokens tokens s = Done tt (with_output s (out ++ NL)) ∧
    Forall (printed_at out) tokens.
Proof.
  intros Hwp.
  destruct (print_tokens_from_positions tokens 0 0 initial_state Hwp)
    as (out & Hrun & Hall); [lia|lia|reflexivity|].
  destruct (print_tokens_from_any tokens 0 0) as (out' & Hany & _).
  rewrite Hany in Hrun. unfold printed, printer_stop in Hrun.
  destruct (lines_in_order 0 tokens) eqn:Horder; [|discriminate].
  injection Hrun as Hout. change (out' = out) in Hout. subst out'.
  exists out. split; [|exact Hall].
  unfold print_tokens, mbind, M_bind. rewrite Hany.
  unfold printed, printer_stop.
  now rewrite printf_with_output, with_output_app.
Qed.

Lemma print_tokens_places_tokens_witness :
  ∃ out,
    print_tokens int_x_tokens (with_output initial_state "trace")
      = Done tt (with_output (with_output initial_state "trace")
                             (out ++ NL)) ∧
    Forall (printed_at out) int_x_tokens.
Proof.
  apply print_tokens_places_tokens.
  repeat (constructor;
          [vm_compute; split; congruence
          |vm_compute; congruence
          |reflexivity
          |reflexivity
          |right; split; [reflexivity|vm_compute; congruence]
          |]).
  constructor.
Defined.

(** X17: the printer finishes exactly when the lines of the tokens
    never go back: then it ends normally, whatever the columns and the
    spellings are; if some token is on an earlier line than the token
    before it, the run stops on the assertion [line >= lnum]. *)
Theorem print_tokens_finishes_iff_lines_in_order tokens s :
  (lines_in_order 0 tokens = true →
   ∃ s', print_tokens tokens s = Done tt s') ∧
  (lines_in_order 0 tokens = false →
   ∃ s', print_tokens tokens s = Stopped (Abort "line >= lnum") s').
Proof.
  destruct (print_tokens_from_any tokens 0 0) as (out & Hrun & _).
  unfold print_tokens, mbind, M_bind. rewrite Hrun.
  split; intros ->; simpl; now eexists.
Qed.

Lemma print_tokens_finishes_iff_lines_in_order_witness :
  (∃ s', print_tokens int_x_tokens initial_state = Done tt s') ∧
  (∃ s', print_tokens backward_tokens initial_state
           = Stopped (Abort "line >= lnum") s').
Proof.
  split.
  - destruct (print_tokens_finishes_iff_lines_in_order int_x_tokens
                initial_state) as (H & _).
    apply H. reflexivity.
  - destruct (print_tokens_finishes_iff_lines_in_order backward_tokens
                initial_state) as (_ & H).
    apply H. reflexivity.
Defined.

(** X18: the printer neither drops nor reorders nor alters a token:
    when it finishes, what it has written is the spellings of the
    tokens in their order, each preceded by spaces and line breaks
    only, and a final line break. *)
Theorem print_tokens_keeps_tokens tokens s s' :
  print_tokens tokens s = Done tt s' →
  ∃ out, stdout s' = (stdout s ++ out ++ NL)%string ∧ spaced tokens out.
Proof.
  destruct (print_tokens_from_any tokens 0 0) as (out & Hrun & Hspaced).
  unfold print_tokens, mbind, M_bind. rewrite Hrun.
  destruct (lines_in_order 0 tokens); simpl; [|discriminate].
  intros [= <-]. exists out. simpl. split; [|now apply Hspaced].
  now rewrite string_app_assoc.
Qed.

Lemma print_tokens_keeps_tokens_witness :
  ∃ s' out,
    print_tokens int_x_tokens initial_state = Done tt s' ∧
    stdout s' = (stdout initial_state ++ out ++ NL)%string ∧
    spaced int_x_tokens out.
Proof.
  assert (∃ s', print_tokens int_x_tokens initial_state = Done tt s')
    as (s' & Hrun) by (eexists; vm_compute; reflexivity).
  destruct (print_tokens_keeps_tokens int_x_tokens initial_state s' Hrun)
    as (out & Hout & Hspaced).
  now exists s', out.
Defined.

(** ** How many values an initializer may have *)

Lemma cache_push_count ptr v ptr' :
  0 ≤ cache_get ptr 0 →
  cache_push ptr v = Ok ptr' →
  cache_get ptr' 0 = cache_get ptr 0 + 1.
Proof.
  intros Hcount. unfold cache_push.
  destruct (Z.ltb_spec (1 + cache_get ptr 0) (Z.of_nat (length ptr)));
    [|discriminate].
  intros [= <-]. unfold cache_get at 1.
  rewrite list_lookup_insert_eq; [reflexivity|].
  rewrite length_insert. lia.
Qed.

Lemma fill_enum_value_count enums c parent ptr ptr' :
  0 ≤ cache_get ptr 0 →
  fill_enum_value enums c parent ptr = Ok ptr' →
  cache_get ptr' 0
    = cache_get ptr 0 + (if evaluated_kind (cursor_kind c) then 1 else 0).
Proof.
  intros Hcount.
  destruct c as [kind data str line col file tokens children].
  unfold evaluated_kind. simpl.
  destruct (kind =? CXCursor_BinaryOperator).
  { intros H. do 5 bind_inv H. exact (cache_push_count _ _ _ Hcount H). }
  destruct (kind =? CXCursor_IntegerLiteral).
  { intros H. do 3 bind_inv H. exact (cache_push_count _ _ _ Hcount H). }
  destruct (kind =? CXCursor_DeclRefExpr).
  { intros H. do 3 bind_inv H. exact (cache_push_count _ _ _ Hcount H). }
  intros [= <-]. simpl. lia.
Qed.

Lemma visit_count enums parent children :
  ∀ ptr ptr',
    0 ≤ cache_get ptr 0 →
    visit_list (fill_enum_value enums) parent children ptr = Ok ptr' →
    cache_get ptr' 0
      = cache_get ptr 0
        + Z.of_nat (length (filter
                              (λ x, evaluated_kind (cursor_kind x) = true)
                              children)).
Proof.
  induction children as [|c children IH]; intros ptr ptr' Hcount; simpl.
  - intros [= <-]. lia.
  - intros H. bind_inv H.
    pose proof (fill_enum_value_count _ _ _ _ _ Hcount E) as Hc.
    assert (0 ≤ cache_get a 0) as Hcount'
      by (destruct (evaluated_kind (cursor_kind c)); lia).
    rewrite (IH _ _ Hcount' H), Hc.
    destruct (evaluated_kind (cursor_kind c)) eqn:Hk.
    + rewrite filter_cons_True by assumption. simpl length. lia.
    + rewrite filter_cons_False by congruence. lia.
Qed.

(** X19: the evaluator counts one value for each child that is a binary
    operator, an integer literal or a reference.  An enumerator is
    registered only if at most one of its children is of these kinds,
    and a binary operator has a value only if exactly two of its
    children are and its extent has four tokens, that is, if its
    operands are single tokens. *)
Theorem initializer_value_counts :
  (∀ decl cursor parent enums enums',
     cursor_kind cursor = CXCursor_EnumConstantDecl →
     fill_enum_members decl cursor parent enums = Ok enums' →
     (length (evaluated_children cursor) ≤ 1)%nat) ∧
  (∀ enums cursor parent ptr ptr',
     cursor_kind cursor = CXCursor_BinaryOperator →
     fill_enum_value enums cursor parent ptr = Ok ptr' →
     length (evaluated_children cursor) = 2%nat ∧
     n_tokens (cursor_tokens cursor) = 4).
Proof.
  split.
  - intros decl cursor parent enums enums' Hk.
    unfold fill_enum_members, clang_visitChildren. rewrite Hk. simpl.
    destruct (enums !! decl); [|discriminate].
    intros H. bind_inv H. bind_inv H.
    apply visit_count in E; [|vm_compute; discriminate].
    unfold assert in E0.
    destruct (Z.leb_spec (cache_get a 0) 1); [|discriminate].
    unfold evaluated_children. change (cache_get empty_cache 0) with 0 in E.
    lia.
  - intros enums cursor parent ptr ptr' Hk.
    destruct cursor as [kind data str line col file tokens children].
    simpl in Hk. subst kind. simpl.
    intros H. do 4 bind_inv H.
    apply visit_count in E1; [|vm_compute; discriminate].
    unfold assert in E, E2.
    destruct (Z.eqb_spec (n_tokens tokens) 4); [|discriminate].
    destruct (Z.eqb_spec (cache_get a1 0) 2); [|discriminate].
    unfold evaluated_children. simpl.
    change (cache_get empty_cache 0) with 0 in E1. split; [lia|assumption].
Qed.

Lemma initializer_value_counts_witness :
  (length (evaluated_children
             (enum_constant "A" [integer_literal "5" ","])) ≤ 1)%nat ∧
  length (evaluated_children (binary_literals "6" "*" "7" "}")) = 2%nat ∧
  n_tokens (cursor_tokens (binary_literals "6" "*" "7" "}")) = 4.
Proof.
  destruct initializer_value_counts as (Hmember & Hbinary).
  split.
  - assert (∃ enums',
              fill_enum_members 0
                (enum_constant "A" [integer_literal "5" ","])
                enum_from_five [EnumDeclaration.mk [] "E" enum_from_five]
              = Ok enums')
      as (enums' & Hrun) by (eexists; vm_compute; reflexivity).
    exact (Hmember 0%nat (enum_constant "A" [integer_literal "5" ","])
             _ _ _ eq_refl Hrun).
  - assert (∃ ptr',
              fill_enum_value [] (binary_literals "6" "*" "7" "}")
                (enum_constant "A" []) empty_cache = Ok ptr')
      as (ptr' & Hrun) by (eexists; vm_compute; reflexivity).
    exact (Hbinary [] (binary_literals "6" "*" "7" "}") _ _ _
             eq_refl Hrun).
Defined.

(** ** The entry of a typedef *)

(** X20: [register_typedef] appends one entry, with the name and the
    cursor of the typedef, and chooses what it writes by the
    declaration built for the typedef: its struct reference if that is
    set, even when the enum reference is set too; else its enum
    reference if that is set; else the proxy, which then points to the
    block [concat_name] returns for the tokens 1 to [n_tokens - 3].
    For a typedef of four tokens or more that block holds the tokens
    between the first and the last two, joined by single spaces; for a
    typedef of three tokens the range is empty and the proxy points to
    a block in which nothing has been written.  The two alternatives
    that are not chosen are never written. *)
Theorem typedef_entry_alternatives name tokens decl cursor typedefs
    typedefs' :
  register_typedef name tokens decl cursor typedefs = Ok typedefs' →
  ∃ entry,
    typedefs' = typedefs ++ [entry] ∧
    TypedefDeclaration.name entry = Stored (Some name) ∧
    TypedefDeclaration.cursor entry = Stored cursor ∧
    (∀ n, TypedefDeclaration.struct_decl decl = Stored (Some n) →
          TypedefDeclaration.struct_decl entry = Stored (Some n) ∧
          TypedefDeclaration.enum_decl entry = Indeterminate ∧
          TypedefDeclaration.proxy entry = Indeterminate) ∧
    (∀ n, TypedefDeclaration.struct_decl decl = Stored None →
          TypedefDeclaration.enum_decl decl = Stored (Some n) →
          TypedefDeclaration.struct_decl entry = Indeterminate ∧
          TypedefDeclaration.enum_decl entry = Stored (Some n) ∧
          TypedefDeclaration.proxy entry = Indeterminate) ∧
    (TypedefDeclaration.struct_decl decl = Stored None →
     TypedefDeclaration.enum_decl decl = Stored None →
     ∃ block,
       concat_name tokens 1 (to_unsigned (n_tokens tokens - 3)) = Ok block ∧
       TypedefDeclaration.struct_decl entry = Indeterminate ∧
       TypedefDeclaration.enum_decl entry = Indeterminate ∧
       TypedefDeclaration.proxy entry = Stored (Some block) ∧
       (n_tokens tokens = 3 → block = Indeterminate) ∧
       (4 ≤ n_tokens tokens < UINT_MOD →
        block = Stored (String.concat " "
                          (spellings_between tokens 1
                             (n_tokens tokens - 3))))).
Proof.
  unfold register_typedef.
  destruct (TypedefDeclaration.struct_decl decl) as [|[n|]] eqn:Hs;
    simpl; [discriminate| |].
  - intros [= <-]. eexists. split; [reflexivity|]. simpl.
    repeat split; try congruence; try discriminate.
  - destruct (TypedefDeclaration.enum_decl decl) as [|[n|]] eqn:He;
      simpl; [discriminate| |].
    + intros [= <-]. eexists. split; [reflexivity|]. simpl.
      repeat split; try congruence; try discriminate.
    + destruct (concat_name tokens 1 _) as [block|] eqn:Ht;
        simpl; [|discriminate].
      intros [= <-]. eexists. split; [reflexivity|]. simpl.
      repeat split; try congruence; try discriminate.
      intros _ _. exists block.
      repeat match goal with |- _ ∧ _ => split end; try reflexivity.
      * intros H3. rewrite H3 in Ht. vm_compute in Ht. congruence.
      * intros Hn. rewrite to_unsigned_small in Ht by lia.
        destruct (concat_name_joins tokens 1 (n_tokens tokens - 3))
          as [Hjoin _].
        rewrite Hjoin in Ht by lia. congruence.
Qed.

Lemma typedef_entry_alternatives_witness :
  (∃ entry,
     register_typedef "T" typedef_int_tokens
       (TypedefDeclaration.set_enum_decl (Some 0%nat)
          (TypedefDeclaration.set_struct_decl (Some 0%nat)
             TypedefDeclaration.zeroed))
       typedef_int []
     = Ok ([] ++ [entry]) ∧
     TypedefDeclaration.struct_decl entry = Stored (Some 0%nat) ∧
     TypedefDeclaration.enum_decl entry = Indeterminate ∧
     TypedefDeclaration.proxy entry = Indeterminate) ∧
  (∃ entry,
     register_typedef "x" typedef_name_tokens TypedefDeclaration.zeroed
       (mkCursor CXCursor_TypedefDecl 1 "x" 1 9 "a.c" typedef_name_tokens
                 [])
       []
     = Ok ([] ++ [entry]) ∧
     TypedefDeclaration.proxy entry = Stored (Some Indeterminate)).
Proof.
  split.
  - assert (∃ typedefs',
              register_typedef "T" typedef_int_tokens
                (TypedefDeclaration.set_enum_decl (Some 0%nat)
                   (TypedefDeclaration.set_struct_decl (Some 0%nat)
                      TypedefDeclaration.zeroed))
                typedef_int [] = Ok typedefs')
      as (typedefs' & Hrun) by (eexists; vm_compute; reflexivity).
    destruct (typedef_entry_alternatives _ _ _ _ _ _ Hrun)
      as (entry & -> & _ & _ & Hstruct & _).
    exists entry. split; [exact Hrun|]. exact (Hstruct 0%nat eq_refl).
  - assert (∃ typedefs',
              register_typedef "x" typedef_name_tokens
                TypedefDeclaration.zeroed
                (mkCursor CXCursor_TypedefDecl 1 "x" 1 9 "a.c"
                          typedef_name_tokens [])
                [] = Ok typedefs')
      as (typedefs' & Hrun) by (eexists; vm_compute; reflexivity).
    destruct (typedef_entry_alternatives _ _ _ _ _ _ Hrun)
      as (entry & -> & _ & _ & _ & _ & Hproxy).
    destruct (Hproxy eq_refl eq_refl)
      as (block & _ & _ & _ & Hblock & Hempty & _).
    exists entry. split; [exact Hrun|].
    now rewrite Hblock, (Hempty eq_refl).
Defined.

(** ** Fields and literals the code does not read as C does *)

(** X21: a field whose name is not spelled by any of its tokens, as
    libclang reports an unnamed bit-field ([int : 3;], whose spelling is
    empty), is not skipped: [fill_struct_members] ends the run with
    status 1 and the message "Could not find token <name> in set", and
    so does the registration of the struct that has it as its first
    child. *)
Theorem field_without_name_token cursor parent decl :
  cursor_kind cursor = CXCursor_FieldDecl →
  Forall (λ t, tok_spelling t ≠ cursor_spelling cursor)
         (cursor_tokens cursor) →
  let stop :=
    Exit 1 ("Could not find token " ++ cursor_spelling cursor
            ++ " in set" ++ NL) in
  fill_struct_members cursor parent decl = Fail stop ∧
  ∀ str s decl_ptr structs rest,
    cursor_children s = cursor :: rest →
    find_other StructDeclaration.name StructDeclaration.cursor
               structs str s 0 = None →
    register_struct str s decl_ptr structs = Fail stop.
Proof.
  intros Hk Hall stop.
  assert (Hfill : ∀ p d, fill_struct_members cursor p d = Fail stop).
  { intros p d. unfold fill_struct_members, find_token_index.
    rewrite Hk. simpl.
    destruct (find_token_from (cursor_tokens cursor)
                (cursor_spelling cursor) 0) as [k|] eqn:Hfind;
      [|reflexivity].
    destruct (find_token_from_found _ _ _ _ Hfind)
      as (i & t & _ & Hi & Ht & _).
    destruct (Forall_lookup_1 _ _ _ _ Hall Hi Ht). }
  split; [apply Hfill|].
  intros str s decl_ptr structs rest Hchildren Hother.
  unfold register_struct, clang_visitChildren.
  rewrite Hother, Hchildren. simpl. now rewrite Hfill.
Qed.

Lemma field_without_name_token_witness :
  fill_struct_members unnamed_bit_field (struct_of [unnamed_bit_field])
    (StructDeclaration.mk [] "S" (struct_of [unnamed_bit_field]))
  = Fail (Exit 1 ("Could not find token  in set" ++ NL)).
Proof.
  refine (proj1 (field_without_name_token unnamed_bit_field
                   (struct_of [unnamed_bit_field])
                   (StructDeclaration.mk [] "S"
                      (struct_of [unnamed_bit_field]))
                   eq_refl _)).
  repeat constructor; discriminate.
Defined.

Lemma is_digit_spec c :
  is_digit c = true →
  isspace c = false ∧ c ≠ "-"%char ∧ c ≠ "+"%char.
Proof.
  destruct c as [[] [] [] [] [] [] [] []]; vm_compute;
    try discriminate; intros _; repeat split; discriminate.
Qed.

Lemma read_digits_prefix digits tail :
  all_digits digits = true →
  no_leading_digit tail = true →
  ∀ acc, read_digits (digits ++ tail) acc = read_digits digits acc.
Proof.
  intros Hd Ht. induction digits as [|c digits IH]; intros acc.
  - change (""%string ++ tail)%string with tail.
    destruct tail as [|c tail]; [reflexivity|]. simpl.
    simpl in Ht. unfold is_digit in Ht.
    now destruct (digit_value c).
  - rewrite string_app_cons. simpl in Hd |- *.
    apply andb_true_iff in Hd as [Hc Hd]. unfold is_digit in Hc.
    destruct (digit_value c); [|discriminate]. now apply IH.
Qed.

Lemma atoi_prefix c digits tail :
  all_digits (String c digits) = true →
  no_leading_digit tail = true →
  atoi (String c digits ++ tail) = atoi (String c digits).
Proof.
  intros Hd Ht. pose proof Hd as Hc. simpl in Hc.
  apply andb_true_iff in Hc as [Hc _].
  destruct (is_digit_spec c Hc) as (Hspace & Hminus & Hplus).
  unfold atoi. rewrite string_app_cons. simpl skip_spaces.
  rewrite Hspace.
  assert (Hread : ∀ s : string,
            match String c s with
            | String "-"%char s' => - read_digits s' 0
            | String "+"%char s' => read_digits s' 0
            | _ => read_digits (String c s) 0
            end = read_digits (String c s) 0).
  { intros s.
    destruct c as [[] [] [] [] [] [] [] []]; try reflexivity;
      congruence. }
  rewrite !Hread, <- string_app_cons.
  now rewrite (read_digits_prefix _ _ Hd Ht).
Qed.

(** X22: the evaluator reads an integer literal as [atoi] does, not as
    C does: its value is that of the decimal digits the spelling
    begins with, and what follows them (the rest of a hexadecimal or
    binary literal, a suffix) is dropped.  A literal spelled [0x...]
    has the value 0. *)
Theorem literal_value_is_decimal_prefix enums cursor parent ptr t next c
    digits tail :
  cursor_kind cursor = CXCursor_IntegerLiteral →
  cursor_tokens cursor = [t; next] →
  tok_spelling t = (String c digits ++ tail)%string →
  all_digits (String c digits) = true →
  no_leading_digit tail = true →
  fill_enum_value enums cursor parent ptr
    = (v ← atoi (String c digits); cache_push ptr v) ∧
  (c = "0"%char → digits = ""%string →
   fill_enum_value enums cursor parent ptr = cache_push ptr 0).
Proof.
  intros Hk Htokens Ht Hd Htail.
  assert (Hfill : fill_enum_value enums cursor parent ptr
                  = (v ← atoi (String c digits); cache_push ptr v)).
  { destruct cursor as [kind data str line col file tokens children].
    simpl in Hk, Htokens. subst kind tokens. simpl.
    now rewrite Ht, (atoi_prefix _ _ _ Hd Htail). }
  split; [exact Hfill|].
  intros -> ->. exact Hfill.
Qed.

Lemma literal_value_is_decimal_prefix_witness :
  fill_enum_value [] hexadecimal_literal (enum_constant "A" []) empty_cache
    = Ok [1; 0; 0].
Proof.
  refine (proj2 (literal_value_is_decimal_prefix [] hexadecimal_literal
                   (enum_constant "A" []) empty_cache (tok "0x10")
                   (tok ",") "0" "" "x10" eq_refl eq_refl eq_refl
                   eq_refl eq_refl) eq_refl eq_refl).
Defined.
